(** * Real-time collaborative drawing canvas: the synchronisation engine

    A shallow embedding of the server's room state ([drawing-state.js],
    [rooms.js], [server.js]) and of the client's reconciler
    ([client/canvas.js], [client/main.js]), followed by the properties of
    the specification that were checked against it.

    Conventions.
    - JavaScript values that travel on the wire or are stored in a room are
      values of [JS.val]; objects are association lists in key order, and
      numbers are integers: nothing below computes with a fraction.
    - A JavaScript array used as a stack keeps its index order: [push]
      appends at the end, [pop] removes the last element.
    - [Map]s keyed by strings are [gmap string _]; the order in which a
      [Map] lists its entries is not kept.
    - Mutating methods are functions from the state before to a result and
      the state after; the handlers of [server.js] run in a small state
      monad over the whole server. *)

From stdpp Require Import gmap strings pretty list fin_maps sorting.
From Stdlib Require Import ZArith.

Open Scope Z_scope.

(** ** JavaScript values *)

Module JS.

#[warnings="-register-all"]
Inductive val : Type :=
| Undefined
| Null
| Bool (b : bool)
| Num (n : Z)
| Str (s : string)
| Arr (xs : list val)
| Obj (fields : list (string * val)).

(** [ToBoolean]: [undefined], [null], [false], [0] and [""] are falsy. *)
Definition truthy (v : val) : bool :=
  match v with
  | Undefined | Null => false
  | Bool b => b
  | Num n => negb (n =? 0)
  | Str s => negb (String.eqb s "")
  | Arr _ | Obj _ => true
  end.

(** [a || b] *)
Definition or (a b : val) : val := if truthy a then a else b.

(** [null] or [undefined]: the values of which no property can be read,
    [v.k] throws a [TypeError]. *)
Definition nullish (v : val) : bool :=
  match v with Undefined | Null => true | _ => false end.

(** [Array.isArray(v)] *)
Definition isArray (v : val) : bool :=
  match v with Arr _ => true | _ => false end.

Fixpoint lookup_field (k : string) (fs : list (string * val)) : val :=
  match fs with
  | [] => Undefined
  | (k', v) :: fs' => if String.eqb k k' then v else lookup_field k fs'
  end.

(** [v.k] for a value that is not [null] or [undefined]; a property that
    is absent, or any property of a primitive or an array other than its
    elements, reads as [undefined]. *)
Definition get (k : string) (v : val) : val :=
  match v with
  | Obj fs => lookup_field k fs
  | _ => Undefined
  end.

(** [o.k = x] on an object: an own key keeps its place, a new key is
    added last. *)
Fixpoint set (k : string) (x : val) (fs : list (string * val))
  : list (string * val) :=
  match fs with
  | [] => [(k, x)]
  | (k', v) :: fs' =>
      if String.eqb k k' then (k, x) :: fs' else (k', v) :: set k x fs'
  end.

(** [a.pop()]: the last element and the array without it. *)
Fixpoint pop {A : Type} (l : list A) : option (A * list A) :=
  match l with
  | [] => None
  | x :: l' =>
      match pop l' with
      | None => Some (x, [])
      | Some (y, r) => Some (y, x :: r)
      end
  end.

(** [a.push(x)] *)
Definition push {A : Type} (l : list A) (x : A) : list A := l ++ [x].

(** [s || d] for a string that may be missing, and [n || d] for a number
    that may be missing: [""] and [0] are falsy. *)
Definition str_or (s : option string) (d : string) : string :=
  match s with
  | Some s => if String.eqb s "" then d else s
  | None => d
  end.

Definition num_or (n : option Z) (d : Z) : Z :=
  match n with
  | Some n => if n =? 0 then d else n
  | None => d
  end.

End JS.

(** ** [drawing-state.js]: the stroke log with its redo stack *)

Module DrawingState.

Record t : Type := mk { strokes : list JS.val; undoStack : list JS.val }.

(** [constructor(initialStrokes = [])] *)
Definition new (initialStrokes : JS.val) : t :=
  let initialStrokes :=
    match initialStrokes with JS.Undefined => JS.Arr [] | v => v end in
  {| strokes := match initialStrokes with JS.Arr xs => xs | _ => [] end;
     undoStack := [] |}.

(** [addStroke(stroke)], for a [stroke] that is an object: the result is
    [stroke.id]. *)
Definition addStroke (stroke : JS.val) (d : t) : JS.val * t :=
  (JS.get "id" stroke,
   {| strokes := JS.push (strokes d) stroke; undoStack := [] |}).

Definition undoLastStroke (d : t) : JS.val * t :=
  match JS.pop (strokes d) with
  | None => (JS.Null, d)
  | Some (removedStroke, rest) =>
      (removedStroke,
       {| strokes := rest; undoStack := JS.push (undoStack d) removedStroke |})
  end.

Definition redoLastStroke (d : t) : JS.val * t :=
  match JS.pop (undoStack d) with
  | None => (JS.Null, d)
  | Some (restoredStroke, rest) =>
      (restoredStroke,
       {| strokes := JS.push (strokes d) restoredStroke; undoStack := rest |})
  end.

Definition getState (d : t) : JS.val := JS.Arr (strokes d).

Definition clear (d : t) : t := {| strokes := []; undoStack := [] |}.

Definition getStrokeCount (d : t) : nat := length (strokes d).

Definition toJSON (d : t) : JS.val :=
  JS.Obj [("strokes", JS.Arr (strokes d))].

Definition fromJSON (obj : JS.val) : t :=
  if negb (JS.truthy obj) || negb (JS.isArray (JS.get "strokes" obj))
  then new JS.Undefined
  else new (JS.get "strokes" obj).

End DrawingState.

(** ** [JSON.stringify] and [JSON.parse]

    A file of the data directory is identified with what [JSON.parse]
    makes of its text: [Unparseable] when it throws, [Parses v] when it
    returns [v].  Writing [JSON.stringify(v)] and parsing the text back
    gives [JSON.reread v]: a property whose value is [undefined] is left
    out of an object, and an [undefined] array element is written as
    [null]. *)

Module JSON.

Inductive file : Type :=
| Unparseable
| Parses (v : JS.val).

Fixpoint reread (v : JS.val) : JS.val :=
  match v with
  | JS.Arr xs =>
      JS.Arr (map (fun x => match x with
                            | JS.Undefined => JS.Null
                            | _ => reread x
                            end) xs)
  | JS.Obj fs =>
      JS.Obj ((fix fields (fs : list (string * JS.val)) :=
                 match fs with
                 | [] => []
                 | (k, x) :: fs' =>
                     match x with
                     | JS.Undefined => fields fs'
                     | _ => (k, reread x) :: fields fs'
                     end
                 end) fs)
  | _ => v
  end.

(** Values that JSON represents exactly: no [undefined] anywhere. *)
Fixpoint representable (v : JS.val) : bool :=
  match v with
  | JS.Undefined => false
  | JS.Arr xs => forallb representable xs
  | JS.Obj fs => forallb (fun kx => representable kx.2) fs
  | _ => true
  end.

End JSON.

(** ** The server process: rooms, sockets, the data directory, pending
    promises and what was emitted *)

Module World.

(** [userObj] of the connection handler. *)
Record User : Type :=
  { id : string; name : string; color : string; layer : nat }.

Record Room : Type :=
  { users : gmap string User; drawingState : DrawingState.t }.

(** Promises that are pending between two handler runs. *)
Inductive task : Type :=
| Hydrate (roomId : string)
    (* [fs.readFile(filePath).then(...)] of [getOrCreateRoom] *)
| SaveMkdir (roomId : string)
    (* [saveRoomState] waiting on [fs.mkdir] *)
| SaveWrite (roomId : string) (content : JS.val).
    (* [saveRoomState] waiting on [fs.writeFile(filePath, content)] *)

(** Events sent to clients, one constructor per event name. *)
Inductive msg : Type :=
| usersList (us : gmap string User)
| state (strokes : JS.val) (timestamp : option Z)
| userJoined (userId name color : string) (layer : nat)
| userColor (color : string)
| drawing (stroke : JS.val)
| drawingSegment (data : JS.val)
| undo (userId : string) (strokeId removedBy : JS.val)
| undoFailed (message : string)
| redo (userId : string) (stroke restoredBy : JS.val)
| redoFailed (message : string)
| clear (userId : string)
| userLeft (userId name color : string).

(** One [emit]: the sockets it was delivered to, and the event. *)
Record Emission : Type := { to : gset string; what : msg }.

(** What the closure of a connection handler keeps for its socket. *)
Record Socket : Type :=
  { roomId : string; userName : string; userColorOf : string }.

Record t : Type :=
  { rooms : gmap string Room;            (* [roomManager.rooms] *)
    joined : gmap string (gset string);  (* socket.io room -> its sockets *)
    sockets : gmap string Socket;        (* connected sockets *)
    disk : gmap string JSON.file;        (* files by path *)
    tasks : list task;
    sent : list Emission }.

Definition init (files : gmap string JSON.file) : t :=
  {| rooms := ∅; joined := ∅; sockets := ∅; disk := files;
     tasks := []; sent := [] |}.

Definition with_rooms (f : gmap string Room → gmap string Room) (w : t) : t :=
  {| rooms := f (rooms w); joined := joined w; sockets := sockets w;
     disk := disk w; tasks := tasks w; sent := sent w |}.

Definition with_joined
    (f : gmap string (gset string) → gmap string (gset string)) (w : t) : t :=
  {| rooms := rooms w; joined := f (joined w); sockets := sockets w;
     disk := disk w; tasks := tasks w; sent := sent w |}.

Definition with_sockets
    (f : gmap string Socket → gmap string Socket) (w : t) : t :=
  {| rooms := rooms w; joined := joined w; sockets := f (sockets w);
     disk := disk w; tasks := tasks w; sent := sent w |}.

Definition with_disk
    (f : gmap string JSON.file → gmap string JSON.file) (w : t) : t :=
  {| rooms := rooms w; joined := joined w; sockets := sockets w;
     disk := f (disk w); tasks := tasks w; sent := sent w |}.

Definition with_tasks (f : list task → list task) (w : t) : t :=
  {| rooms := rooms w; joined := joined w; sockets := sockets w;
     disk := disk w; tasks := f (tasks w); sent := sent w |}.

Definition with_sent (f : list Emission → list Emission) (w : t) : t :=
  {| rooms := rooms w; joined := joined w; sockets := sockets w;
     disk := disk w; tasks := tasks w; sent := f (sent w) |}.

Definition with_users (f : gmap string User → gmap string User) (r : Room)
  : Room :=
  {| users := f (users r); drawingState := drawingState r |}.

Definition with_drawingState (f : DrawingState.t → DrawingState.t) (r : Room)
  : Room :=
  {| users := users r; drawingState := f (drawingState r) |}.

(** The state monad of the handlers. *)
Definition M (A : Type) : Type := t → A * t.

Definition ret {A : Type} (a : A) : M A := fun w => (a, w).

Definition bind {A B : Type} (m : M A) (k : A → M B) : M B :=
  fun w => let (a, w') := m w in k a w'.

Definition modify (f : t → t) : M unit := fun w => (tt, f w).

Definition exec {A : Type} (m : M A) (w : t) : t := (m w).2.

End World.

Notation "'let!' x := m 'in' k" := (World.bind m (fun x => k))
  (at level 10, x name, m at level 100, k at level 200,
   format "'[v' 'let!'  x  :=  m  'in' '/' k ']'").
Notation "'run!' m 'in' k" := (World.bind m (fun _ => k))
  (at level 10, m at level 100, k at level 200,
   format "'[v' 'run!'  m  'in' '/' k ']'").

(** ** [path.join], as Node has it for POSIX paths

    The arguments are joined by ["/"] and the result is normalised: empty
    segments and ["."] go, [".."] takes back the segment before it, and a
    [".."] that has no segment to take back stays, the path being relative
    (here: to the directory of the module). *)

Module Path.

Fixpoint split (path : string) : list string :=
  match path with
  | EmptyString => [""]
  | String a rest =>
      if String.eqb (String a "") "/" then "" :: split rest
      else match split rest with
           | segment :: segments => String a segment :: segments
           | [] => [String a ""]
           end
  end.

(** [kept] holds the segments kept so far, the last one first. *)
Fixpoint normalizeSegments (kept segments : list string) : list string :=
  match segments with
  | [] => reverse kept
  | segment :: segments =>
      if String.eqb segment "" || String.eqb segment "."
      then normalizeSegments kept segments
      else if String.eqb segment ".."
      then match kept with
           | before :: kept' =>
               if String.eqb before ".."
               then normalizeSegments (".." :: kept) segments
               else normalizeSegments kept' segments
           | [] => normalizeSegments [".."] segments
           end
      else normalizeSegments (segment :: kept) segments
  end.

(** [path.join(a, b)] for a relative [a] and a [b] that does not end in a
    separator, neither of them empty. *)
Definition join (a b : string) : string :=
  String.concat "/" (normalizeSegments [] (split (a +:+ "/" +:+ b))).

End Path.

(** ** [rooms.js]: the room manager *)

Module RoomManager.
Import World.

(** [path.join(__dirname, '../data/rooms')], relative to [__dirname]. *)
Definition DATA_DIR : string := Path.join "." "../data/rooms".

(** [path.join(DATA_DIR, `${roomId}.json`)] *)
Definition filePath (roomId : string) : string :=
  Path.join DATA_DIR (roomId +:+ ".json").

Definition getOrCreateRoom (roomId : string) : M Room := fun w =>
  match rooms w !! roomId with
  | Some room => (room, w)
  | None =>
      let room :=
        {| users := ∅; drawingState := DrawingState.new JS.Undefined |} in
      (room,
       with_tasks (fun ts => ts ++ [Hydrate roomId])
         (with_rooms <[roomId := room]> w))
  end.

(** The callbacks of the read that [getOrCreateRoom] started, run when
    the read settles: [then] when the file was read, [catch] when not.
    [room] of the closure is the room the map holds under [roomId]. *)
Definition hydrate (roomId : string) (read_ok : bool) : M unit := fun w =>
  match (if read_ok then disk w !! filePath roomId else None) with
  | Some (JSON.Parses obj) =>
      (tt, with_rooms
             (alter (with_drawingState (fun _ => DrawingState.fromJSON obj))
                roomId) w)
  | Some JSON.Unparseable => (tt, w)
  | None => (tt, w)
  end.

Definition addUser (roomId socketId : string) (user : User) : M User :=
  run! getOrCreateRoom roomId in
  run! modify (with_rooms (alter (with_users <[socketId := user]>) roomId)) in
  ret user.

Definition removeUser (roomId socketId : string) : M (option User) := fun w =>
  match rooms w !! roomId with
  | None => (None, w)
  | Some room =>
      match users room !! socketId with
      | Some user =>
          (Some user,
           with_rooms (alter (with_users (delete socketId)) roomId) w)
      | None => (None, w)
      end
  end.

Definition getUsers (roomId : string) : M (gmap string User) := fun w =>
  match rooms w !! roomId with
  | Some room => (users room, w)
  | None => (∅, w)
  end.

Definition getDrawingState (roomId : string) : M DrawingState.t :=
  let! room := getOrCreateRoom roomId in
  ret (drawingState room).

(** [roomManager.getDrawingState(roomId).method(...)]: a mutating method
    run on the object that the room holds. *)
Definition onDrawingState {A : Type} (roomId : string)
    (method : DrawingState.t → A * DrawingState.t) : M A :=
  let! d := getDrawingState roomId in
  let (a, d') := method d in
  run! modify
         (with_rooms (alter (with_drawingState (fun _ => d')) roomId)) in
  ret a.

Definition getRoomCount : M nat := fun w => (size (rooms w), w).

(** [saveRoomState] up to its first [await]. *)
Definition saveRoomState (roomId : string) : M unit := fun w =>
  match rooms w !! roomId with
  | None => (tt, w)
  | Some _ => (tt, with_tasks (fun ts => ts ++ [SaveMkdir roomId]) w)
  end.

(** ... after [await fs.mkdir]: the content is taken from the drawing
    state the room holds now, and the write is started. *)
Definition saveRoomState_mkdir (roomId : string) (ok : bool) : M unit :=
  fun w =>
    match (if ok then rooms w !! roomId else None) with
    | Some room =>
        let content := JSON.reread (DrawingState.toJSON (drawingState room)) in
        (tt, with_tasks (fun ts => ts ++ [SaveWrite roomId content]) w)
    | None => (tt, w)
    end.

(** ... after [await fs.writeFile]. *)
Definition saveRoomState_write (roomId : string) (content : JS.val)
    (ok : bool) : M unit :=
  if ok
  then modify (with_disk <[filePath roomId := JSON.Parses content]>)
  else ret tt.

End RoomManager.

(** ** [server.js]: the socket handlers

    A handler reads the clock once: [now] is [Date.now()] of that run.
    [pick] and [rand] stand for the draws of [Math.random()]. *)

Module Server.
Import World RoomManager.

Definition colors : list string :=
  [ "#FF6B6B"; "#4ECDC4"; "#45B7D1"; "#FFA07A"; "#98D8C8";
    "#F7DC6F"; "#BB8FCE"; "#85C1E2"; "#F8B739"; "#E74C3C";
    "#3498DB"; "#2ECC71"; "#9B59B6"; "#E67E22"; "#1ABC9C";
    "#F39C12"; "#E91E63"; "#00BCD4"; "#FF9800"; "#8BC34A" ].

(** [colors[Math.floor(Math.random() * colors.length)]] *)
Definition generateUserColor (pick : nat) : string :=
  nth (pick mod length colors)%nat colors "".

(** The sockets of a socket.io room. *)
Definition members (room : string) (w : t) : gset string :=
  default ∅ (joined w !! room).

(** [socket.join(room)] *)
Definition socket_join (socket_id room : string) : M unit :=
  modify (with_joined (fun j => <[room := {[socket_id]} ∪ default ∅ (j !! room)]> j)).

(** A socket that disconnects leaves the rooms it had joined. *)
Definition socket_leaveAll (socket_id : string) : M unit :=
  modify (with_joined (fmap (fun s => s ∖ {[socket_id]}))).

(** [socket.emit(...)] *)
Definition socket_emit (socket_id : string) (m : msg) : M unit :=
  modify (with_sent (fun l => l ++ [{| to := {[socket_id]}; what := m |}])).

(** [io.in(room).emit(...)] *)
Definition io_in_emit (room : string) (m : msg) : M unit := fun w =>
  (tt, with_sent (fun l => l ++ [{| to := members room w; what := m |}]) w).

(** [socket.to(room).emit(...)] *)
Definition socket_to_emit (socket_id room : string) (m : msg) : M unit :=
  fun w =>
    (tt, with_sent
           (fun l => l ++ [{| to := members room w ∖ {[socket_id]};
                              what := m |}]) w).

(** [io.on('connection', ...)] up to the registration of the handlers. *)
Definition connection (socket_id : string)
    (query_roomId query_userName : option string) (pick : nat) : M unit :=
  let roomId := JS.str_or query_roomId "main" in
  let userName :=
    JS.str_or query_userName ("User_" +:+ String.substring 0 6 socket_id) in
  let userColor := generateUserColor pick in
  run! modify (with_sockets
                 <[socket_id := {| roomId := roomId; userName := userName;
                                   userColorOf := userColor |}]>) in
  run! socket_join socket_id roomId in
  let! roomObj := getOrCreateRoom roomId in
  let layerIndex := size (users roomObj) in
  let userObj :=
    {| id := socket_id; name := userName; color := userColor;
       layer := layerIndex |} in
  run! addUser roomId socket_id userObj in
  let! usersForRoom := getUsers roomId in
  run! io_in_emit roomId (usersList usersForRoom) in
  let! drawingState := getDrawingState roomId in
  run! socket_emit socket_id
         (state (DrawingState.getState drawingState) None) in
  run! socket_to_emit socket_id roomId
         (userJoined socket_id userName userColor (layer userObj)) in
  run! socket_emit socket_id (World.userColor userColor) in
  let! users := getUsers roomId in
  socket_emit socket_id (usersList users).

(** The canonical stroke that the ['drawing'] handler builds from a
    payload that is not [null] or [undefined]; [user] is the sender's
    entry in the room, if any. *)
Definition canonicalStroke (socket_id : string) (user : option User)
    (data : JS.val) (now : Z) (rand : string) : JS.val :=
  JS.Obj
    [ ("id", JS.Str (pretty now +:+ rand));
      ("userId", JS.Str socket_id);
      ("color", JS.get "color" data);
      ("lineWidth", JS.get "lineWidth" data);
      ("points", JS.get "points" data);
      ("isEraser", JS.or (JS.get "isEraser" data) (JS.Bool false));
      ("timestamp", JS.or (JS.get "timestamp" data) (JS.Num now));
      ("layer", match user with
                | Some user => JS.Num (Z.of_nat (layer user))
                | None => JS.Num 0
                end) ].

(** [socket.on('drawing', ...)].  On a payload that is [null] or
    [undefined] the read of [data.color] throws a [TypeError], after the
    drawing state and the sender were looked up and before a stroke is
    built: nothing is added, saved or sent.  The handler does not catch
    it. *)
Definition on_drawing (socket_id roomId : string) (data : JS.val)
    (now : Z) (rand : string) : M unit :=
  run! getDrawingState roomId in
  let! us := getUsers roomId in
  if JS.nullish data then ret tt else
  let user := us !! socket_id in
  let stroke := canonicalStroke socket_id user data now rand in
  run! onDrawingState roomId (DrawingState.addStroke stroke) in
  run! saveRoomState roomId in
  run! io_in_emit roomId (drawing stroke) in
  let! d := getDrawingState roomId in
  io_in_emit roomId (state (DrawingState.getState d) (Some now)).

(** [socket.on('drawingSegment', ...)].  The module is strict code: a
    property cannot be set on a payload that is not an object, the
    [TypeError] is caught and nothing is sent.  Named properties set on
    an array are not part of what is sent. *)
Definition on_drawingSegment (socket_id roomId : string) (data : JS.val)
    (now : Z) : M unit :=
  match data with
  | JS.Obj data =>
      let! us := getUsers roomId in
      let data :=
        match us !! socket_id with
        | Some user => JS.set "layer" (JS.Num (Z.of_nat (layer user))) data
        | None => data
        end in
      let serverTimestamp := JS.Num now in
      let data :=
        if negb (JS.truthy (JS.lookup_field "timestamp" data))
        then JS.set "timestamp" serverTimestamp data else data in
      let data := JS.set "serverTimestamp" serverTimestamp data in
      let data := JS.set "userId" (JS.Str socket_id) data in
      let data :=
        if negb (JS.truthy (JS.lookup_field "tool" data))
        then JS.set "tool" (JS.Str "brush") data else data in
      socket_to_emit socket_id roomId (drawingSegment (JS.Obj data))
  | JS.Arr _ => socket_to_emit socket_id roomId (drawingSegment data)
  | _ => ret tt
  end.

(** [socket.on('undo', ...)] *)
Definition on_undo (socket_id roomId : string) (now : Z) : M unit :=
  let! removedStroke := onDrawingState roomId DrawingState.undoLastStroke in
  if JS.truthy removedStroke then
    run! io_in_emit roomId
           (undo socket_id (JS.get "id" removedStroke)
              (JS.get "userId" removedStroke)) in
    let! d := getDrawingState roomId in
    run! io_in_emit roomId (state (DrawingState.getState d) (Some now)) in
    saveRoomState roomId
  else
    socket_emit socket_id (undoFailed "No strokes to undo").

(** [socket.on('redo', ...)] *)
Definition on_redo (socket_id roomId : string) (now : Z) : M unit :=
  let! restoredStroke := onDrawingState roomId DrawingState.redoLastStroke in
  if JS.truthy restoredStroke then
    run! io_in_emit roomId
           (redo socket_id restoredStroke (JS.get "userId" restoredStroke)) in
    let! d := getDrawingState roomId in
    run! io_in_emit roomId (state (DrawingState.getState d) (Some now)) in
    saveRoomState roomId
  else
    socket_emit socket_id (redoFailed "No strokes to redo").

(** [socket.on('clear', ...)] *)
Definition on_clear (socket_id roomId : string) : M unit :=
  run! onDrawingState roomId (fun d => (tt, DrawingState.clear d)) in
  run! saveRoomState roomId in
  io_in_emit roomId (World.clear socket_id).

(** [socket.on('disconnect', ...)] *)
Definition on_disconnect (socket_id roomId : string) : M unit :=
  let! removedUser := removeUser roomId socket_id in
  match removedUser with
  | Some removedUser =>
      socket_to_emit socket_id roomId
        (userLeft socket_id (name removedUser) (color removedUser))
  | None => ret tt
  end.

(** What the event loop runs next: a connection, an event of a connected
    socket, or the settling of the [i]-th pending promise, with or
    without an I/O error.  socket.io gives every connection an id of its
    own, delivers the events of a socket only while it is connected, and
    takes a socket out of its rooms when it disconnects. *)
Inductive event : Type :=
| Connect (socket_id : string) (query_roomId query_userName : option string)
    (pick : nat)
| Drawing (socket_id : string) (data : JS.val) (now : Z) (rand : string)
| DrawingSegment (socket_id : string) (data : JS.val) (now : Z)
| Undo (socket_id : string) (now : Z)
| Redo (socket_id : string) (now : Z)
| Clear (socket_id : string)
| Disconnect (socket_id : string)
| Settle (i : nat) (ok : bool).

(** The handlers of a socket close over the [roomId] of its connection;
    a socket that is not connected has none. *)
Definition of_socket (socket_id : string) (h : string → M unit) : M unit :=
  fun w =>
    match sockets w !! socket_id with
    | Some s => h (roomId s) w
    | None => (tt, w)
    end.

Definition settle (k : task) (ok : bool) : M unit :=
  match k with
  | Hydrate roomId => hydrate roomId ok
  | SaveMkdir roomId => saveRoomState_mkdir roomId ok
  | SaveWrite roomId content => saveRoomState_write roomId content ok
  end.

Definition handle (e : event) : M unit :=
  match e with
  | Connect socket_id query_roomId query_userName pick =>
      fun w =>
        match sockets w !! socket_id with
        | None => connection socket_id query_roomId query_userName pick w
        | Some _ => (tt, w)   (* socket ids are unique *)
        end
  | Drawing socket_id data now rand =>
      of_socket socket_id (fun roomId => on_drawing socket_id roomId data now rand)
  | DrawingSegment socket_id data now =>
      of_socket socket_id (fun roomId => on_drawingSegment socket_id roomId data now)
  | Undo socket_id now =>
      of_socket socket_id (fun roomId => on_undo socket_id roomId now)
  | Redo socket_id now =>
      of_socket socket_id (fun roomId => on_redo socket_id roomId now)
  | Clear socket_id =>
      of_socket socket_id (fun roomId => on_clear socket_id roomId)
  | Disconnect socket_id =>
      of_socket socket_id (fun roomId =>
        run! socket_leaveAll socket_id in
        run! on_disconnect socket_id roomId in
        modify (with_sockets (delete socket_id)))
  | Settle i ok =>
      fun w =>
        match tasks w !! i with
        | Some k => settle k ok (with_tasks (delete i) w)
        | None => (tt, w)
        end
  end.

Definition step (e : event) (w : t) : t := exec (handle e) w.

Definition run (es : list event) (w : t) : t :=
  foldl (fun w e => step e w) w es.

(** The process is stopped, or ended by an exception that no handler
    catches, and started again: the files stay. *)
Definition restart (w : t) : t := init (disk w).

Inductive reachable : t → Prop :=
| reachable_init files : reachable (init files)
| reachable_step e w : reachable w → reachable (step e w)
| reachable_restart w : reachable w → reachable (restart w).

End Server.

(** ** [client/canvas.js] and [client/main.js]: the reconciler

    A canvas is the list of what was painted on it since it was last
    cleared, in painting order.  The fields of a segment or stroke that
    the client computes with are typed; a missing field is [None]. *)

Module Client.

Definition Point : Type := Z * Z.

Inductive op : Type :=
| background (globalCompositeOperation : string)
    (* [fillRect] of the whole canvas with the background colour, in the
       compositing mode the context is in: under ['destination-out'] the
       fill erases instead of painting *)
| smoothStroke (points : list Point) (color : string) (size : Z)
    (mode : string)
    (* [drawSmoothStroke(ctx, points, color, size, mode)] *)
| strokePath (points : list Point) (color : string) (lineWidth : Z)
    (isEraser : bool).
    (* [drawStroke(points, color, lineWidth, isEraser)] *)

Record Segment : Type :=
  { seg_userId : option string;
    seg_timestamp : option Z;
    seg_color : option string;
    seg_size : option Z;
    seg_tool : option string;
    seg_points : option (list Point);
    seg_x0 : option Z; seg_y0 : option Z;
    seg_x1 : option Z; seg_y1 : option Z }.

(** A completed stroke as the client reads it, of a snapshot or of the
    queue; its [points] are an array of points. *)
Record Stroke : Type :=
  { points : list Point;
    color : string;
    lineWidth : Z;
    isEraser : bool;
    timestamp : option Z;
    layer : option Z }.

(** An entry of [userLayers]. *)
Record LayerData : Type :=
  { canvas : list op; lastUpdate : Z; lastTimestamp : Z }.

(** The [CanvasManager], with [window.currentSocketId]. *)
Record t : Type :=
  { ctx : list op;                          (* the main canvas *)
    globalCompositeOperation : string;      (* of the main context *)
    userLayers : gmap string LayerData;
    container : bool;                       (* [canvas.parentElement] *)
    penWidth : Z;                           (* [this.lineWidth] *)
    incomingStrokes : list Stroke;
    currentSocketId : string }.

(** The constructor, as far as this state goes: a context in its initial
    compositing mode, no layers, an empty queue, a pen of width 5 and, when
    the canvas has a parent, the background that [clear()] paints. *)
Definition new (container : bool) (currentSocketId : string) : t :=
  {| ctx := if container then [background "source-over"] else [];
     globalCompositeOperation := "source-over";
     userLayers := ∅;
     container := container;
     penWidth := 5;
     incomingStrokes := [];
     currentSocketId := currentSocketId |}.

Definition with_ctx (f : list op → list op) (c : t) : t :=
  {| ctx := f (ctx c);
     globalCompositeOperation := globalCompositeOperation c;
     userLayers := userLayers c; container := container c;
     penWidth := penWidth c; incomingStrokes := incomingStrokes c;
     currentSocketId := currentSocketId c |}.

Definition with_userLayers
    (f : gmap string LayerData → gmap string LayerData) (c : t) : t :=
  {| ctx := ctx c; globalCompositeOperation := globalCompositeOperation c;
     userLayers := f (userLayers c); container := container c;
     penWidth := penWidth c; incomingStrokes := incomingStrokes c;
     currentSocketId := currentSocketId c |}.

Definition with_incomingStrokes (f : list Stroke → list Stroke) (c : t) : t :=
  {| ctx := ctx c; globalCompositeOperation := globalCompositeOperation c;
     userLayers := userLayers c; container := container c;
     penWidth := penWidth c; incomingStrokes := f (incomingStrokes c);
     currentSocketId := currentSocketId c |}.

Definition with_globalCompositeOperation (mode : string) (c : t) : t :=
  {| ctx := ctx c; globalCompositeOperation := mode;
     userLayers := userLayers c; container := container c;
     penWidth := penWidth c; incomingStrokes := incomingStrokes c;
     currentSocketId := currentSocketId c |}.

Definition getUserLayer (userId : string) (now : Z) (c : t)
  : option LayerData * t :=
  match userLayers c !! userId with
  | Some layerData => (Some layerData, c)
  | None =>
      if container c then
        let layerData :=
          {| canvas := []; lastUpdate := now; lastTimestamp := 0 |} in
        (Some layerData, with_userLayers <[userId := layerData]> c)
      else (None, c)
  end.

Definition clearUserLayer (userId : string) (c : t) : t :=
  with_userLayers (delete userId) c.

(** The points that [drawSegment] strokes: the segment's own when there
    are two or more, else the two ends of the legacy format. *)
Definition segment_points (seg : Segment) : list Point :=
  let legacy :=
    [ (JS.num_or (seg_x0 seg) 0, JS.num_or (seg_y0 seg) 0);
      (JS.num_or (seg_x1 seg) 0, JS.num_or (seg_y1 seg) 0) ] in
  match seg_points seg with
  | Some ps => if (2 <=? length ps)%nat then ps else legacy
  | None => legacy
  end.

(** [drawSegment(seg)] for a segment that is there; the clock is read
    once, [now].  [drawSmoothStroke] works between [save()] and
    [restore()]: the compositing mode of the main context is left as it
    was. *)
Definition drawSegment (seg : Segment) (now : Z) (c : t) : t :=
  let userId := JS.str_or (seg_userId seg) (currentSocketId c) in
  let timestamp := JS.num_or (seg_timestamp seg) now in
  let isOwnSegment := String.eqb userId (currentSocketId c) in
  if isOwnSegment then c else
  match getUserLayer userId now c with
  | (None, c) => c
  | (Some layerData, c) =>
      if negb (lastTimestamp layerData =? 0)
         && (timestamp <? lastTimestamp layerData)
      then c
      else
        let color := JS.str_or (seg_color seg) "#000000" in
        let size := JS.num_or (seg_size seg) (penWidth c) in
        let isEraser :=
          match seg_tool seg with
          | Some tool => String.eqb tool "eraser"
          | None => false
          end in
        let painted :=
          smoothStroke (segment_points seg) color size
            (if isEraser then "eraser" else "brush") in
        let layerData :=
          {| canvas := canvas layerData ++ [painted];
             lastUpdate := now;
             lastTimestamp := timestamp |} in
        let c := with_userLayers <[userId := layerData]> c in
        if isEraser
        then with_ctx (fun ops => ops ++
               [smoothStroke (segment_points seg) color size "eraser"]) c
        else c
  end.

(** [wsManager.onDrawingSegmentReceived] of [main.js]; [myId] is
    [wsManager.getUserId()]. *)
Definition onDrawingSegmentReceived (myId : string) (data : Segment)
    (now : Z) (c : t) : t :=
  if match seg_userId data with
     | Some u => String.eqb u myId
     | None => false
     end
  then c
  else
    let data :=
      {| seg_userId := Some (JS.str_or (seg_userId data) "unknown");
         seg_timestamp := Some (JS.num_or (seg_timestamp data) now);
         seg_color := seg_color data; seg_size := seg_size data;
         seg_tool := seg_tool data; seg_points := seg_points data;
         seg_x0 := seg_x0 data; seg_y0 := seg_y0 data;
         seg_x1 := seg_x1 data; seg_y1 := seg_y1 data |} in
    drawSegment data now c.

(** [drawStroke] sets the compositing mode of the main context for its
    stroke and leaves it set. *)
Definition drawStroke (points : list Point) (color : string) (lineWidth : Z)
    (isEraser : bool) (c : t) : t :=
  if (length points =? 0)%nat then c
  else
    let c :=
      with_globalCompositeOperation
        (if isEraser then "destination-out" else "source-over") c in
    with_ctx (fun ops => ops ++ [strokePath points color lineWidth isEraser]) c.

(** [redraw]: the canvas is cleared between [save()] and [restore()], which
    leaves the compositing mode as it was, and the background is filled in
    that mode. *)
Definition redraw (strokes : list Stroke) (c : t) : t :=
  if container c then
    let c := with_ctx (fun _ => [background (globalCompositeOperation c)]) c in
    foldl (fun c stroke =>
             drawStroke (points stroke) (color stroke) (lineWidth stroke)
               (isEraser stroke || false) c)
      c strokes
  else c.

(** [wsManager.onStateReceived] of [main.js] *)
Definition onStateReceived (strokes : option (list Stroke)) (c : t) : t :=
  redraw (default [] strokes) c.

Definition enqueueStroke (stroke : Stroke) (c : t) : t :=
  with_incomingStrokes (fun q => JS.push q stroke) c.

(** The comparator of [_processIncomingQueue]: negative, zero or
    positive. *)
Definition compareStrokes (a b : Stroke) : Z :=
  if negb (JS.num_or (timestamp a) 0 =? JS.num_or (timestamp b) 0)
  then JS.num_or (timestamp a) 0 - JS.num_or (timestamp b) 0
  else JS.num_or (layer a) 0 - JS.num_or (layer b) 0.

(** [Array.prototype.sort(compare)], which is stable. *)
Fixpoint sort_insert {A : Type} (compare : A → A → Z) (x : A) (l : list A)
  : list A :=
  match l with
  | [] => [x]
  | y :: l' =>
      if compare x y <=? 0 then x :: y :: l'
      else y :: sort_insert compare x l'
  end.

Definition sort {A : Type} (compare : A → A → Z) (l : list A) : list A :=
  foldr (sort_insert compare) [] l.

(** One frame of [_processIncomingQueue]. *)
Definition processIncomingQueue (c : t) : t :=
  match incomingStrokes c with
  | [] => c
  | _ =>
      let sorted := sort compareStrokes (incomingStrokes c) in
      let batchSize := 5%nat in
      let batch := take batchSize sorted in
      let c := with_incomingStrokes (fun _ => drop batchSize sorted) c in
      foldl (fun c stroke =>
               drawStroke (points stroke)
                 (JS.str_or (Some (color stroke)) "#000000")
                 (JS.num_or (Some (lineWidth stroke)) (penWidth c))
                 (isEraser stroke || false) c)
        c batch
  end.

End Client.

(** ** What the statements below read off a server state *)

(** The layer index held by a participant of a room. *)
Definition layer_of (roomId socket_id : string) (w : World.t) : option nat :=
  match World.rooms w !! roomId with
  | Some room => World.layer <$> World.users room !! socket_id
  | None => None
  end.

(** The stroke log of a room. *)
Definition log_of (roomId : string) (w : World.t) : option (list JS.val) :=
  match World.rooms w !! roomId with
  | Some room => Some (DrawingState.strokes (World.drawingState room))
  | None => None
  end.

(** The participants of a room. *)
Definition participants (roomId : string) (w : World.t) : gset string :=
  dom (RoomManager.getUsers roomId w).1.

(** What [redraw] paints for a stroke, and whether it paints it: a stroke
    without points paints nothing. *)
Definition paint_of (s : Client.Stroke) : Client.op :=
  Client.strokePath (Client.points s) (Client.color s) (Client.lineWidth s)
    (Client.isEraser s || false).

Definition is_painted (s : Client.Stroke) : bool :=
  negb (length (Client.points s) =? 0)%nat.

(** [a] was painted on a canvas before [b]. *)
Definition painted_before (a b : Client.op) (ops : list Client.op) : Prop :=
  ∃ i j : nat, ops !! i = Some a ∧ ops !! j = Some b ∧ (i < j)%nat.

(** What [drawSegment] paints on the author's layer for a segment. *)
Definition paint_of_segment (seg : Client.Segment) (penWidth : Z) : Client.op :=
  Client.smoothStroke (Client.segment_points seg)
    (JS.str_or (Client.seg_color seg) "#000000")
    (JS.num_or (Client.seg_size seg) penWidth)
    (if match Client.seg_tool seg with
        | Some tool => String.eqb tool "eraser"
        | None => false
        end
     then "eraser" else "brush").

(** Every participant of a room is a connected socket whose handlers are
    bound to that room, and is in the socket.io room of that name. *)
Definition presence_inv (w : World.t) : Prop :=
  ∀ (roomId p : string),
    p ∈ participants roomId w →
    p ∈ Server.members roomId w ∧
    World.roomId <$> World.sockets w !! p = Some roomId.

(** A computation that leaves untouched who is connected, who has joined
    which socket.io room, and who takes part in which room. *)
Definition keeps_presence {A : Type} (m : World.M A) : Prop :=
  ∀ w : World.t,
    World.joined (m w).2 = World.joined w ∧
    World.sockets (m w).2 = World.sockets w ∧
    ∀ roomId, (RoomManager.getUsers roomId (m w).2).1
              = (RoomManager.getUsers roomId w).1.

(** ** [server.js]: the cursor relay *)

Module Relay.
Import World RoomManager.

(** [{...data}]: the own properties of [data], none for a value that has
    none, the indices for an array or a string. *)
Definition spread (data : JS.val) : list (string * JS.val) :=
  match data with
  | JS.Obj fields => fields
  | JS.Arr xs => imap (fun i x => (pretty i, x)) xs
  | JS.Str s =>
      imap (fun i a => (pretty i, JS.Str (String a EmptyString)))
        (String.list_ascii_of_string s)
  | _ => []
  end.

(** [socket.on('cursorMove', ...)]: the sockets that [socket.to(roomId)]
    reaches and the object they are sent.  The handler changes nothing. *)
Definition on_cursorMove (socket_id roomId : string) (data : JS.val) (w : t)
  : gset string * JS.val :=
  let users := (getUsers roomId w).1 in
  let user := users !! socket_id in
  let userColor :=
    match user with Some user => color user | None => "#000000" end in
  (Server.members roomId w ∖ {[socket_id]},
   JS.Obj
     (JS.set "name"
        (JS.Str (match user with Some user => name user | None => socket_id end))
        (JS.set "color" (JS.Str userColor)
           (JS.set "userId" (JS.Str socket_id) (spread data))))).

End Relay.

(** ** [client/canvas.js]: the local pen

    [startDrawing], [draw] and [stopDrawing], on the coordinates that
    [getCoordinates] gives for the pointer event.  What they paint on the
    main canvas is listed in [painted]; the calls of [onSegment] and
    [onStrokeComplete] are their output. *)

Module Pen.

(** The argument of [onSegment]. *)
Record LiveSegment : Type :=
  { points : list Client.Point; color : string; size : Z; tool : string;
    userId : string; timestamp : Z }.

Inductive output : Type :=
| segment (seg : LiveSegment)                 (* [onSegment(seg)] *)
| strokeComplete (path : list Client.Point).  (* [onStrokeComplete(path)] *)

Inductive mark : Type :=
| dot (p : Client.Point) (lineWidth : Z) (color : string)
    (* [drawPoint(p)] *)
| curve (points : list Client.Point) (color : string) (size : Z) (mode : string).
    (* [drawSmoothStroke(this.ctx, points, color, size, mode)] *)

Record t : Type :=
  { isDrawing : bool;
    currentPath : list Client.Point;
    pointBuffer : list Client.Point;
    lastX : Z; lastY : Z;
    lastSentTime : Z;
    mode : string;                 (* ['brush'] or ['eraser'] *)
    penColor : string;             (* [this.color] *)
    lineWidth : Z;
    painted : list mark;
    currentSocketId : string }.

Definition minSegmentInterval : Z := 12.
Definition maxBufferSize : nat := 5.

Definition new (currentSocketId : string) : t :=
  {| isDrawing := false; currentPath := []; pointBuffer := [];
     lastX := 0; lastY := 0; lastSentTime := 0; mode := "brush";
     penColor := "#000000"; lineWidth := 5; painted := [];
     currentSocketId := currentSocketId |}.

(** [a.slice(-n)] *)
Definition slice_last {A : Type} (n : nat) (l : list A) : list A :=
  drop (length l - n) l.

Definition toolOf (mode : string) : string :=
  if String.eqb mode "eraser" then "eraser" else "brush".

Definition startDrawing (coords : Client.Point) (p : t) : t :=
  {| isDrawing := true;
     currentPath := [coords];
     pointBuffer := [coords];
     lastX := coords.1; lastY := coords.2;
     lastSentTime := 0;
     mode := mode p; penColor := penColor p; lineWidth := lineWidth p;
     painted := painted p ++ [dot coords (lineWidth p) (penColor p)];
     currentSocketId := currentSocketId p |}.

Definition draw (coords : Client.Point) (now : Z) (p : t) : t * list output :=
  if negb (isDrawing p) then (p, []) else
  let pointBuffer := JS.push (pointBuffer p) coords in
  let pointBuffer :=
    if (maxBufferSize <? length pointBuffer)%nat then tail pointBuffer
    else pointBuffer in
  let painted :=
    if (2 <=? length pointBuffer)%nat
    then painted p ++ [curve (slice_last 3 pointBuffer) (penColor p)
                         (lineWidth p) (mode p)]
    else painted p in
  let currentPath := JS.push (currentPath p) coords in
  let emits := minSegmentInterval <=? now - lastSentTime p in
  let pointsToSend := slice_last 3 pointBuffer in
  ({| isDrawing := true;
      currentPath := currentPath;
      pointBuffer := pointBuffer;
      lastX := coords.1; lastY := coords.2;
      lastSentTime := if emits then now else lastSentTime p;
      mode := mode p; penColor := penColor p; lineWidth := lineWidth p;
      painted := painted;
      currentSocketId := currentSocketId p |},
   if emits && (2 <=? length pointsToSend)%nat
   then [segment {| points := pointsToSend; color := penColor p;
                    size := lineWidth p; tool := toolOf (mode p);
                    userId := currentSocketId p; timestamp := now |}]
   else []).

Definition stopDrawing (now : Z) (p : t) : t * list output :=
  if negb (isDrawing p) then (p, []) else
  ({| isDrawing := false;
      currentPath := [];
      pointBuffer := [];
      lastX := lastX p; lastY := lastY p;
      lastSentTime := lastSentTime p;
      mode := mode p; penColor := penColor p; lineWidth := lineWidth p;
      painted := painted p;
      currentSocketId := currentSocketId p |},
   (if (2 <=? length (pointBuffer p))%nat
    then [segment {| points := pointBuffer p; color := penColor p;
                     size := lineWidth p; tool := toolOf (mode p);
                     userId := currentSocketId p; timestamp := now |}]
    else [])
   ++ [strokeComplete (currentPath p)]).

(** Pointer events, as the listeners dispatch them when not panning. *)
Inductive event : Type :=
| down (coords : Client.Point)
| move (coords : Client.Point) (now : Z)
| up (now : Z).

Definition handle (e : event) (p : t) : t * list output :=
  match e with
  | down coords => (startDrawing coords p, [])
  | move coords now => draw coords now p
  | up now => stopDrawing now p
  end.

Fixpoint run (es : list event) (p : t) : t * list output :=
  match es with
  | [] => (p, [])
  | e :: es =>
      let (p1, out1) := handle e p in
      let (p2, out2) := run es p1 in
      (p2, out1 ++ out2)
  end.

End Pen.

(** ** [client/websocket.js]: what the client sends *)

Module WebSocketManager.

Record t : Type :=
  { connected : bool;   (* [this.socket && this.socket.connected] *)
    userId : string }.

Definition point_val (p : Client.Point) : JS.val :=
  JS.Obj [("x", JS.Num p.1); ("y", JS.Num p.2)].

(** A coordinate argument, [null] when it is not given. *)
Definition coord_val (x : option Z) : JS.val :=
  match x with Some x => JS.Num x | None => JS.Null end.

(** [sendSegment]: the payload of the ['drawingSegment'] event, if one is
    emitted. *)
Definition sendSegment (x0 y0 x1 y1 : option Z) (color : string) (size : Z)
    (tool : string) (points : option (list Client.Point)) (now : Z) (ws : t)
  : option JS.val :=
  if connected ws then
    let data :=
      [ ("userId", JS.Str (userId ws)); ("color", JS.Str color);
        ("size", JS.Num size); ("tool", JS.Str tool);
        ("timestamp", JS.Num now) ] in
    Some (JS.Obj
            (match points with
             | Some ps =>
                 if (2 <=? length ps)%nat
                 then JS.set "points" (JS.Arr (map point_val ps)) data
                 else JS.set "y1" (coord_val y1)
                        (JS.set "x1" (coord_val x1)
                           (JS.set "y0" (coord_val y0)
                              (JS.set "x0" (coord_val x0) data)))
             | None =>
                 JS.set "y1" (coord_val y1)
                   (JS.set "x1" (coord_val x1)
                      (JS.set "y0" (coord_val y0)
                         (JS.set "x0" (coord_val x0) data)))
             end))
  else None.

End WebSocketManager.

(** ** [client/main.js]: the wiring of the pen and of the remaining events *)

Module Main.

(** What leaves the client. *)
Inductive emitted : Type :=
| emit_drawingSegment (data : JS.val)
| emit_drawing (data : JS.val).

(** [canvasManager.onSegment]: a segment of the pen always has its points
    array, so the point format is asked for. *)
Definition onSegment (seg : Pen.LiveSegment) (now : Z)
    (ws : WebSocketManager.t) : list emitted :=
  match WebSocketManager.sendSegment None None None None (Pen.color seg)
          (Pen.size seg) (Pen.tool seg) (Some (Pen.points seg)) now ws with
  | Some data => [emit_drawingSegment data]
  | None => []
  end.

(** [CanvasManager.clear()]: as in [redraw], the background is filled in
    the compositing mode the context is in. *)
Definition clear (c : Client.t) : Client.t :=
  if Client.container c
  then Client.with_ctx
         (fun _ => [Client.background (Client.globalCompositeOperation c)]) c
  else c.

(** [wsManager.onClearReceived] *)
Definition onClearReceived (c : Client.t) : Client.t := clear c.

(** [wsManager.onUserLeft], as far as the canvas goes:
    [removeCursorIndicator(userId)] ends with [clearUserLayer(userId)]. *)
Definition onUserLeft (userId : string) (c : Client.t) : Client.t :=
  Client.clearUserLayer userId c.

End Main.

(** ** From a relayed object to the segment the client reads

    [drawSegment] reads [userId], [timestamp], [color], [size], [tool],
    [points] and the four legacy coordinates.  A field that is [undefined]
    or [null] is missing.  A payload in which one of these fields holds a
    value of another type than the one it is read at is not a segment of
    this model: [segment_of] gives nothing for it. *)

Module Wire.

Definition as_str (v : JS.val) : option (option string) :=
  match v with
  | JS.Undefined | JS.Null => Some None
  | JS.Str s => Some (Some s)
  | _ => None
  end.

Definition as_num (v : JS.val) : option (option Z) :=
  match v with
  | JS.Undefined | JS.Null => Some None
  | JS.Num n => Some (Some n)
  | _ => None
  end.

Definition as_point (v : JS.val) : option Client.Point :=
  match JS.get "x" v, JS.get "y" v with
  | JS.Num x, JS.Num y => Some (x, y)
  | _, _ => None
  end.

Definition as_points (v : JS.val) : option (option (list Client.Point)) :=
  match v with
  | JS.Undefined | JS.Null => Some None
  | JS.Arr xs => Some <$> mapM as_point xs
  | _ => None
  end.

Definition segment_of (data : JS.val) : option Client.Segment :=
  match data with
  | JS.Obj _ =>
      userId ← as_str (JS.get "userId" data);
      timestamp ← as_num (JS.get "timestamp" data);
      color ← as_str (JS.get "color" data);
      size ← as_num (JS.get "size" data);
      tool ← as_str (JS.get "tool" data);
      points ← as_points (JS.get "points" data);
      x0 ← as_num (JS.get "x0" data);
      y0 ← as_num (JS.get "y0" data);
      x1 ← as_num (JS.get "x1" data);
      y1 ← as_num (JS.get "y1" data);
      Some {| Client.seg_userId := userId;
              Client.seg_timestamp := timestamp;
              Client.seg_color := color;
              Client.seg_size := size;
              Client.seg_tool := tool;
              Client.seg_points := points;
              Client.seg_x0 := x0; Client.seg_y0 := y0;
              Client.seg_x1 := x1; Client.seg_y1 := y1 |}
  | _ => None
  end.

End Wire.

(** ** What the further statements read off *)

(** Undo and redo as moves along one history. *)
Inductive move : Type := back | forward.

Definition move_on (m : move) (d : DrawingState.t) : DrawingState.t :=
  match m with
  | back => (DrawingState.undoLastStroke d).2
  | forward => (DrawingState.redoLastStroke d).2
  end.

(** The log followed by the undone strokes, the one undone last first. *)
Definition history (d : DrawingState.t) : list JS.val :=
  DrawingState.strokes d ++ reverse (DrawingState.undoStack d).

(** The number of pending hydrations of a room. *)
Definition hydrations (roomId : string) (w : World.t) : nat :=
  length (List.filter
            (fun k => match k with
                      | World.Hydrate r => String.eqb r roomId
                      | _ => false
                      end) (World.tasks w)).

(** A room that does not exist has no hydration pending, and no room has
    more than one. *)
Definition hydration_inv (w : World.t) : Prop :=
  ∀ roomId : string,
    (World.rooms w !! roomId = None → hydrations roomId w = 0%nat) ∧
    (hydrations roomId w ≤ 1)%nat.

(** A computation that keeps an invariant of the server. *)
Definition preserves {A : Type} (I : World.t → Prop) (m : World.M A) : Prop :=
  ∀ w : World.t, I w → I (m w).2.

(** Every connected socket takes part in the room of its handlers, under
    its own id. *)
Definition connected_inv (w : World.t) : Prop :=
  ∀ (p : string) (s : World.Socket),
    World.sockets w !! p = Some s →
    ∃ u : World.User,
      (RoomManager.getUsers (World.roomId s) w).1 !! p = Some u ∧
      World.id u = p.

(** What a frame of the queue paints for a stroke. *)
Definition paint_of_queued (penWidth : Z) (s : Client.Stroke) : Client.op :=
  Client.strokePath (Client.points s)
    (JS.str_or (Some (Client.color s)) "#000000")
    (JS.num_or (Some (Client.lineWidth s)) penWidth)
    (Client.isEraser s || false).

(** The order of the queue: by timestamp, then by layer. *)
Definition queue_le (a b : Client.Stroke) : Prop :=
  Client.compareStrokes a b ≤ 0.

(** Whether [drawSegment] takes a segment: it is by another author, the
    author has a layer or one can be made, and the gate of that layer is
    zero or not later than the segment's timestamp. *)
Definition is_accepted (seg : Client.Segment) (now : Z) (c : Client.t) : bool :=
  let author := JS.str_or (Client.seg_userId seg) (Client.currentSocketId c) in
  negb (String.eqb author (Client.currentSocketId c))
  && match Client.userLayers c !! author with
     | Some layerData =>
         (Client.lastTimestamp layerData =? 0)
         || (Client.lastTimestamp layerData
             <=? JS.num_or (Client.seg_timestamp seg) now)
     | None => Client.container c
     end.

(** The compositing mode that painting the strokes of a snapshot leaves on
    the main context, from the mode [before]: the mode of the last stroke
    that was painted, if any was. *)
Definition mode_after (strokes : list Client.Stroke) (before : string)
  : string :=
  match last (List.filter is_painted strokes) with
  | Some s =>
      if Client.isEraser s || false then "destination-out" else "source-over"
  | None => before
  end.

(** The timestamps of the segments among the outputs of the pen. *)
Definition segment_times (out : list Pen.output) : list Z :=
  omap (fun o => match o with
                 | Pen.segment seg => Some (Pen.timestamp seg)
                 | Pen.strokeComplete _ => None
                 end) out.

(** Successive times at least [gap] apart. *)
Fixpoint spaced (gap : Z) (ts : list Z) : Prop :=
  match ts with
  | [] => True
  | t :: ts' =>
      match ts' with
      | [] => True
      | t' :: _ => gap ≤ t' - t
      end ∧ spaced gap ts'
  end.

(** * Properties *)

(** ** Arrays used as stacks *)

Lemma pop_nil {A : Type} : JS.pop (@nil A) = None.
Proof. reflexivity. Qed.

Lemma pop_push {A : Type} (l : list A) (x : A) :
  JS.pop (JS.push l x) = Some (x, l).
Proof.
  unfold JS.push. induction l as [|y l IH]; simpl; [done|].
  by rewrite IH.
Qed.

Lemma pop_None {A : Type} (l : list A) : JS.pop l = None ↔ l = [].
Proof.
  split; [|by intros ->].
  destruct l as [|x l]; [done|]. simpl. by destruct (JS.pop l) as [[]|].
Qed.

Lemma pop_Some {A : Type} (l r : list A) (x : A) :
  JS.pop l = Some (x, r) ↔ l = JS.push r x.
Proof.
  split; [|intros ->; apply pop_push].
  revert r. induction l as [|y l IH]; intros r; simpl; [done|].
  destruct (JS.pop l) as [[z r']|] eqn:Hp.
  - intros [= -> <-]. unfold JS.push in *. simpl. f_equal. by apply IH.
  - intros [= -> <-]. apply pop_None in Hp. by subst.
Qed.

(** ** The stroke log *)

(** C4. Undo immediately after appending a stroke [s] returns [s] itself,
    puts the log back to what it was before the append, so that a stroke
    that was new to the log is no longer in it, and leaves [s] as the one
    entry of the redo stack. *)
Theorem undo_after_append (d : DrawingState.t) (s : JS.val) :
  s ∉ DrawingState.strokes d →
  ∃ d2 : DrawingState.t,
    DrawingState.undoLastStroke (DrawingState.addStroke s d).2 = (s, d2) ∧
    DrawingState.strokes d2 = DrawingState.strokes d ∧
    (s ∉ DrawingState.strokes d2) ∧
    DrawingState.undoStack d2 = [s].
Proof.
  intros Hfresh. unfold DrawingState.undoLastStroke. simpl.
  rewrite pop_push. eexists. split; [reflexivity|]. by simpl.
Qed.


(** C5. Whatever the redo stack holds after one or more undos, appending a
    stroke empties it, and the redo that follows finds nothing: it returns
    [null] and changes nothing. *)
Theorem append_discards_redo (d : DrawingState.t) (s : JS.val) :
  DrawingState.undoStack d ≠ [] →
  let d' := (DrawingState.addStroke s d).2 in
  DrawingState.undoStack d' = [] ∧
  DrawingState.redoLastStroke d' = (JS.Null, d').
Proof. intros _. by split. Qed.

Lemma append_discards_redo_witness :
  let s1 := JS.Obj [("id", JS.Str "s1")] in
  let s2 := JS.Obj [("id", JS.Str "s2")] in
  let d0 := DrawingState.new JS.Undefined in
  let d := (DrawingState.undoLastStroke (DrawingState.addStroke s1 d0).2).2 in
  DrawingState.undoStack d = [s1] ∧
  DrawingState.undoStack (DrawingState.addStroke s2 d).2 = [] ∧
  DrawingState.redoLastStroke (DrawingState.addStroke s2 d).2
  = (JS.Null, (DrawingState.addStroke s2 d).2).
Proof.
  split; [reflexivity|].
  apply (append_discards_redo
           (DrawingState.undoLastStroke
              (DrawingState.addStroke (JS.Obj [("id", JS.Str "s1")])
                 (DrawingState.new JS.Undefined)).2).2
           (JS.Obj [("id", JS.Str "s2")])).
  vm_compute. discriminate.
Defined.

Lemma undo_after_append_witness :
  let s := JS.Obj [("id", JS.Str "s2")] in
  let d := DrawingState.mk [JS.Obj [("id", JS.Str "s1")]] [] in
  ∃ d2 : DrawingState.t,
    DrawingState.undoLastStroke (DrawingState.addStroke s d).2 = (s, d2) ∧
    DrawingState.strokes d2 = DrawingState.strokes d ∧
    (s ∉ DrawingState.strokes d2) ∧
    DrawingState.undoStack d2 = [s].
Proof.
  apply (undo_after_append
           (DrawingState.mk [JS.Obj [("id", JS.Str "s1")]] [])
           (JS.Obj [("id", JS.Str "s2")])).
  simpl. intros H. apply list_elem_of_singleton in H. discriminate.
Defined.

(** C10. What [toJSON] hands to the file has no redo stack in it: the
    state that [fromJSON] rebuilds, directly or from the text that was
    written, has the strokes and an empty redo stack, so its [redo] returns
    [null] whatever was waiting to be redone. *)
Theorem serialization_drops_redo (d : DrawingState.t) :
  let d' := DrawingState.fromJSON (DrawingState.toJSON d) in
  let d'' := DrawingState.fromJSON (JSON.reread (DrawingState.toJSON d)) in
  DrawingState.strokes d' = DrawingState.strokes d ∧
  DrawingState.undoStack d' = [] ∧
  DrawingState.redoLastStroke d' = (JS.Null, d') ∧
  DrawingState.undoStack d'' = [] ∧
  DrawingState.redoLastStroke d'' = (JS.Null, d'').
Proof. by repeat split. Qed.

(** ** The server state *)

Lemma with_rooms_same (w : World.t) (f : gmap string World.Room → gmap string World.Room) :
  f (World.rooms w) = World.rooms w → World.with_rooms f w = w.
Proof. destruct w; unfold World.with_rooms; simpl. by intros ->. Qed.

Lemma with_drawingState_same (room : World.Room) :
  World.with_drawingState (fun _ => World.drawingState room) room = room.
Proof. by destruct room. Qed.

Lemma getDrawingState_existing (w : World.t) (roomId : string) (room : World.Room) :
  World.rooms w !! roomId = Some room →
  RoomManager.getDrawingState roomId w = (World.drawingState room, w).
Proof.
  intros Hroom.
  unfold RoomManager.getDrawingState, RoomManager.getOrCreateRoom, World.bind.
  by rewrite Hroom.
Qed.

(** A method that returns its receiver as it found it leaves the server as
    it was. *)
Lemma onDrawingState_unchanged {A : Type} (w : World.t) (roomId : string)
    (room : World.Room) (method : DrawingState.t → A * DrawingState.t) (a : A) :
  World.rooms w !! roomId = Some room →
  method (World.drawingState room) = (a, World.drawingState room) →
  RoomManager.onDrawingState roomId method w = (a, w).
Proof.
  intros Hroom Hm. unfold RoomManager.onDrawingState, World.bind at 1.
  rewrite (getDrawingState_existing _ _ _ Hroom), Hm.
  unfold World.bind, World.modify, World.ret. f_equal.
  apply with_rooms_same, alter_id. intros room' Hroom'.
  rewrite Hroom in Hroom'. injection Hroom' as <-.
  apply with_drawingState_same.
Qed.

(** C6. In a room whose log is empty, an undo request returns [null] from
    the log, leaves the whole server state as it was, and emits one event
    only, [undoFailed], delivered to the requesting socket and to no other;
    likewise a redo request when the redo stack is empty. *)
Theorem unavailable_goes_to_requester_only
    (w : World.t) (socket_id : string) (s : World.Socket) (room : World.Room)
    (now : Z) :
  World.sockets w !! socket_id = Some s →
  World.rooms w !! World.roomId s = Some room →
  (DrawingState.strokes (World.drawingState room) = [] →
   DrawingState.undoLastStroke (World.drawingState room)
   = (JS.Null, World.drawingState room) ∧
   Server.step (Server.Undo socket_id now) w
   = World.with_sent
       (fun l => l ++ [{| World.to := {[socket_id]};
                          World.what := World.undoFailed "No strokes to undo" |}])
       w) ∧
  (DrawingState.undoStack (World.drawingState room) = [] →
   DrawingState.redoLastStroke (World.drawingState room)
   = (JS.Null, World.drawingState room) ∧
   Server.step (Server.Redo socket_id now) w
   = World.with_sent
       (fun l => l ++ [{| World.to := {[socket_id]};
                          World.what := World.redoFailed "No strokes to redo" |}])
       w).
Proof.
  intros Hsock Hroom. split; intros Hempty.
  - assert (Hnull : DrawingState.undoLastStroke (World.drawingState room)
                    = (JS.Null, World.drawingState room)).
    { unfold DrawingState.undoLastStroke. by rewrite Hempty. }
    split; [done|].
    unfold Server.step, World.exec, Server.handle, Server.of_socket.
    rewrite Hsock. unfold Server.on_undo, World.bind.
    by rewrite (onDrawingState_unchanged _ _ _ _ _ Hroom Hnull).
  - assert (Hnull : DrawingState.redoLastStroke (World.drawingState room)
                    = (JS.Null, World.drawingState room)).
    { unfold DrawingState.redoLastStroke. by rewrite Hempty. }
    split; [done|].
    unfold Server.step, World.exec, Server.handle, Server.of_socket.
    rewrite Hsock. unfold Server.on_redo, World.bind.
    by rewrite (onDrawingState_unchanged _ _ _ _ _ Hroom Hnull).
Qed.

Lemma unavailable_goes_to_requester_only_witness :
  let w := Server.step (Server.Connect "a" None None 0) (World.init ∅) in
  Server.step (Server.Undo "a" 7) w
  = World.with_sent
      (fun l => l ++ [{| World.to := {["a"]};
                         World.what := World.undoFailed "No strokes to undo" |}])
      w ∧
  Server.step (Server.Redo "a" 7) w
  = World.with_sent
      (fun l => l ++ [{| World.to := {["a"]};
                         World.what := World.redoFailed "No strokes to redo" |}])
      w.
Proof.
  intros w.
  destruct (unavailable_goes_to_requester_only w "a"
              {| World.roomId := "main"; World.userName := "User_a";
                 World.userColorOf := "#FF6B6B" |}
              {| World.users :=
                   {[ "a" := {| World.id := "a"; World.name := "User_a";
                                World.color := "#FF6B6B"; World.layer := 0 |} ]};
                 World.drawingState := DrawingState.mk [] [] |}
              7) as [Hundo Hredo].
  - vm_compute. reflexivity.
  - vm_compute. reflexivity.
  - split; [apply Hundo | apply Hredo]; reflexivity.
Defined.

(** C2, as the code has it. The layer index given to a joining participant
    is the number of participants that the room holds when they join. After
    joins with indices 0, 1 and 2 and the departure of the first, the room
    holds two participants and the fourth joiner is given index 2. *)
Theorem layer_is_participant_count
    (w : World.t) (socket_id : string) (query_roomId query_userName : option string)
    (pick : nat) :
  World.sockets w !! socket_id = None →
  let roomId := JS.str_or query_roomId "main" in
  let w' := Server.step
              (Server.Connect socket_id query_roomId query_userName pick) w in
  layer_of roomId socket_id w' = Some (size (RoomManager.getUsers roomId w).1) ∧
  let joins3 := [ Server.Connect "a" None None 0; Server.Connect "b" None None 1;
                  Server.Connect "c" None None 2 ] in
  let w3 := Server.run joins3 (World.init ∅) in
  let w5 := Server.run [Server.Disconnect "a"; Server.Connect "d" None None 3] w3 in
  (layer_of "main" "a" w3 = Some 0 ∧ layer_of "main" "b" w3 = Some 1 ∧
   layer_of "main" "c" w3 = Some 2)%nat ∧
  layer_of "main" "d" w5 = Some 2%nat.
Proof.
  intros Hfresh roomId w'. split; [|by vm_compute].
  subst w'. unfold layer_of, Server.step, World.exec, Server.handle.
  rewrite Hfresh. unfold Server.connection. fold roomId.
  unfold RoomManager.addUser, RoomManager.getDrawingState,
    RoomManager.getOrCreateRoom, RoomManager.getUsers,
    Server.socket_join, Server.io_in_emit, Server.socket_emit,
    Server.socket_to_emit, World.bind, World.modify, World.ret.
  simpl.
  destruct (World.rooms w !! roomId) as [room|] eqn:Hroom; simpl;
    repeat (first [ rewrite Hroom | rewrite lookup_alter_eq
                  | rewrite lookup_insert_eq ]; simpl);
    done.
Qed.

Lemma layer_is_participant_count_witness :
  layer_of "main" "b"
    (Server.step (Server.Connect "b" None None 1)
       (Server.step (Server.Connect "a" None None 0) (World.init ∅)))
  = Some 1%nat.
Proof.
  refine (proj1 (layer_is_participant_count
                   (Server.step (Server.Connect "a" None None 0) (World.init ∅))
                   "b" None None 1 _)).
  vm_compute. reflexivity.
Defined.

(** C2, as the specification has it, fails: when the first of three
    participants has left, the fourth joiner is given the index that the
    third one holds, which is neither 3 nor above the indices in the
    room. *)
Lemma layer_index_is_reused :
  let w4 := Server.run
              [ Server.Connect "a" None None 0; Server.Connect "b" None None 1;
                Server.Connect "c" None None 2; Server.Disconnect "a" ]
              (World.init ∅) in
  let w5 := Server.step (Server.Connect "d" None None 3) w4 in
  layer_of "main" "c" w4 = Some 2%nat ∧
  layer_of "main" "d" w5 = Some 2%nat ∧
  ¬ (∃ m : nat, layer_of "main" "d" w5 = Some m ∧
       ∀ (p : string) (n : nat), layer_of "main" p w4 = Some n → (n < m)%nat).
Proof.
  intros w4 w5. split; [by vm_compute|]. split; [by vm_compute|].
  intros (m & Hd & Hall).
  assert (Hm : m = 2%nat) by (vm_compute in Hd; congruence).
  assert (Hc : layer_of "main" "c" w4 = Some 2%nat) by (by vm_compute).
  specialize (Hall "c" 2%nat Hc). lia.
Qed.

(** ** Appending and hydration *)

(** What the ['drawing'] handler does to a room that exists. *)
Lemma on_drawing_effect (w : World.t) (socket_id roomId : string)
    (room : World.Room) (data : JS.val) (now : Z) (rand : string) :
  World.rooms w !! roomId = Some room →
  JS.nullish data = false →
  let stroke :=
    Server.canonicalStroke socket_id (World.users room !! socket_id)
      data now rand in
  let w1 := World.exec (Server.on_drawing socket_id roomId data now rand) w in
  World.rooms w1
  = alter (World.with_drawingState
             (fun _ => (DrawingState.addStroke stroke (World.drawingState room)).2))
      roomId (World.rooms w) ∧
  World.tasks w1 = World.tasks w ++ [World.SaveMkdir roomId] ∧
  World.disk w1 = World.disk w ∧
  World.joined w1 = World.joined w ∧
  World.sockets w1 = World.sockets w.
Proof.
  intros Hroom Hdata stroke w1. subst w1 stroke.
  unfold World.exec, Server.on_drawing, RoomManager.onDrawingState,
    RoomManager.getDrawingState, RoomManager.getOrCreateRoom,
    RoomManager.getUsers, RoomManager.saveRoomState, Server.io_in_emit,
    World.bind, World.modify, World.ret.
  rewrite Hdata. simpl.
  repeat (first [ rewrite Hroom | rewrite lookup_alter_eq ]; simpl).
  done.
Qed.

Lemma log_of_alter (w : World.t) (roomId : string) (room : World.Room)
    (d : DrawingState.t) (rs : gmap string World.Room) :
  World.rooms w = alter (World.with_drawingState (fun _ => d)) roomId rs →
  rs !! roomId = Some room →
  World.drawingState <$> World.rooms w !! roomId = Some d.
Proof. intros -> Hroom. by rewrite lookup_alter_eq, Hroom. Qed.

Lemma log_of_drawingState (w : World.t) (roomId : string) (d : DrawingState.t) :
  World.drawingState <$> World.rooms w !! roomId = Some d →
  log_of roomId w = Some (DrawingState.strokes d).
Proof.
  unfold log_of. destruct (World.rooms w !! roomId); simpl; [|done].
  by intros [= ->].
Qed.

(** C1, as the code has it. A stroke appended while hydration is pending,
    by a ['drawing'] event whose payload is not [null] or [undefined], is in
    the log, and hydration stays pending. When hydration then settles, and
    whenever it settles later: if the file was read and parses, the room's
    drawing state is replaced by the one built from what the file holds at
    that moment, whatever the log held; the appended stroke is in the log
    afterwards only as far as the file lists it. If the file is missing,
    cannot be read or does not parse, the log is left as it is, with the
    appended stroke. *)
Theorem hydration_replaces_the_log
    (w : World.t) (i : nat) (socket_id : string) (s : World.Socket)
    (room : World.Room) (data : JS.val) (now : Z) (rand : string) :
  World.tasks w !! i = Some (World.Hydrate (World.roomId s)) →
  World.sockets w !! socket_id = Some s →
  World.rooms w !! World.roomId s = Some room →
  JS.nullish data = false →
  let roomId := World.roomId s in
  let stroke :=
    Server.canonicalStroke socket_id (World.users room !! socket_id)
      data now rand in
  let appended :=
    JS.push (DrawingState.strokes (World.drawingState room)) stroke in
  let w1 := Server.step (Server.Drawing socket_id data now rand) w in
  log_of roomId w1 = Some appended ∧
  World.tasks w1 !! i = Some (World.Hydrate roomId) ∧
  match World.disk w !! RoomManager.filePath roomId with
  | Some (JSON.Parses obj) =>
      World.drawingState <$>
        World.rooms (Server.step (Server.Settle i true) w1) !! roomId
      = Some (DrawingState.fromJSON obj)
  | _ => log_of roomId (Server.step (Server.Settle i true) w1) = Some appended
  end ∧
  log_of roomId (Server.step (Server.Settle i false) w1) = Some appended ∧
  ∀ (w2 : World.t) (j : nat) (room2 : World.Room),
    World.tasks w2 !! j = Some (World.Hydrate roomId) →
    World.rooms w2 !! roomId = Some room2 →
    World.drawingState <$>
      World.rooms (Server.step (Server.Settle j true) w2) !! roomId
    = Some match World.disk w2 !! RoomManager.filePath roomId with
           | Some (JSON.Parses obj) => DrawingState.fromJSON obj
           | _ => World.drawingState room2
           end.
Proof.
  intros Htask Hsock Hroom Hdata roomId stroke appended w1.
  assert (Hw1 : w1 = World.exec
                       (Server.on_drawing socket_id roomId data now rand) w).
  { subst w1. unfold Server.step, Server.handle, Server.of_socket, World.exec.
    by rewrite Hsock. }
  destruct (on_drawing_effect w socket_id roomId room data now rand Hroom Hdata)
    as (Hrooms & Htasks & Hdisk & _ & _).
  rewrite <- Hw1 in Hrooms, Htasks, Hdisk. fold stroke in Hrooms.
  assert (Hlog1 : log_of roomId w1 = Some appended).
  { apply (log_of_drawingState w1 roomId
             (DrawingState.addStroke stroke (World.drawingState room)).2).
    by eapply log_of_alter. }
  assert (Hpending : World.tasks w1 !! i = Some (World.Hydrate roomId)).
  { rewrite Htasks. by apply lookup_app_l_Some. }
  split; [done|]. split; [done|].
  split; [|split].
  - unfold Server.step, World.exec, Server.handle. rewrite Hpending.
    unfold Server.settle, RoomManager.hydrate. simpl. rewrite Hdisk.
    destruct (World.disk w !! RoomManager.filePath roomId) as [[|obj]|]; simpl;
      [done| |done].
    rewrite lookup_alter_eq. unfold log_of in Hlog1.
    by destruct (World.rooms w1 !! roomId).
  - unfold Server.step, World.exec, Server.handle. rewrite Hpending.
    unfold Server.settle, RoomManager.hydrate. by simpl.
  - intros w2 j room2 Hpending2 Hroom2.
    unfold Server.step, World.exec, Server.handle. rewrite Hpending2.
    unfold Server.settle, RoomManager.hydrate. simpl.
    destruct (World.disk w2 !! RoomManager.filePath roomId) as [[|obj]|]; simpl;
      rewrite ?lookup_alter_eq, Hroom2; done.
Qed.

Lemma hydration_replaces_the_log_witness :
  let p1 := JS.Obj [("id", JS.Str "p1")] in
  let files : gmap string JSON.file :=
    {[ RoomManager.filePath "main"
       := JSON.Parses (JS.Obj [("strokes", JS.Arr [p1])]) ]} in
  let w := Server.step (Server.Connect "a" None None 0) (World.init files) in
  let w1 := Server.step (Server.Drawing "a" (JS.Obj []) 5 "r") w in
  World.drawingState <$>
    World.rooms (Server.step (Server.Settle 0 true) w1) !! "main"
  = Some (DrawingState.mk [p1] []).
Proof.
  intros p1 files w w1.
  pose proof (hydration_replaces_the_log w 0 "a"
                {| World.roomId := "main"; World.userName := "User_a";
                   World.userColorOf := "#FF6B6B" |}
                {| World.users :=
                     {[ "a" := {| World.id := "a"; World.name := "User_a";
                                  World.color := "#FF6B6B"; World.layer := 0 |} ]};
                   World.drawingState := DrawingState.mk [] [] |}
                (JS.Obj []) 5 "r") as Hthm.
  destruct Hthm as (_ & _ & Hsettled & _).
  - vm_compute. reflexivity.
  - vm_compute. reflexivity.
  - vm_compute. reflexivity.
  - reflexivity.
  - exact Hsettled.
Defined.

(** C1, as the specification has it, fails: a room is created with
    hydration in flight, a stroke is appended, the log is [[s1]]; the
    read then settles with a persisted log [[p1]], and the log is [[p1]]:
    the appended stroke is lost. *)
Lemma hydration_overwrites_appended_stroke :
  let p1 := JS.Obj [("id", JS.Str "p1")] in
  let files : gmap string JSON.file :=
    {[ RoomManager.filePath "main"
       := JSON.Parses (JS.Obj [("strokes", JS.Arr [p1])]) ]} in
  let w1 := Server.run [ Server.Connect "a" None None 0;
                         Server.Drawing "a" (JS.Obj []) 5 "r" ]
              (World.init files) in
  let s1 := Server.canonicalStroke "a"
              (Some {| World.id := "a"; World.name := "User_a";
                       World.color := "#FF6B6B"; World.layer := 0 |})
              (JS.Obj []) 5 "r" in
  World.tasks w1 !! 0%nat = Some (World.Hydrate "main") ∧
  log_of "main" w1 = Some [s1] ∧
  log_of "main" (Server.step (Server.Settle 0 true) w1) = Some [p1] ∧
  ¬ (log_of "main" (Server.step (Server.Settle 0 true) w1) = Some [s1]).
Proof.
  intros p1 files w1 s1.
  split; [by vm_compute|]. split; [by vm_compute|]. split; [by vm_compute|].
  vm_compute. discriminate.
Qed.

(** When a save of the room wrote the appended stroke to the file before
    the read of hydration settles, the read finds it there: the log is
    replaced all the same, by a log that lists the stroke. *)
Example hydration_after_a_save :
  let data := JS.Obj [("color", JS.Str "#000000"); ("lineWidth", JS.Num 5);
                      ("points", JS.Arr [])] in
  let w1 := Server.run [ Server.Connect "a" None None 0;
                         Server.Drawing "a" data 5 "r";
                         Server.Settle 1 true; Server.Settle 1 true ]
              (World.init ∅) in
  let s1 := Server.canonicalStroke "a"
              (Some {| World.id := "a"; World.name := "User_a";
                       World.color := "#FF6B6B"; World.layer := 0 |})
              data 5 "r" in
  World.tasks w1 !! 0%nat = Some (World.Hydrate "main") ∧
  World.disk w1 !! RoomManager.filePath "main"
  = Some (JSON.Parses (JS.Obj [("strokes", JS.Arr [s1])])) ∧
  log_of "main" (Server.step (Server.Settle 0 true) w1) = Some [s1].
Proof.
  intros data w1 s1.
  split; [by vm_compute|]. split; by vm_compute.
Qed.

(** Room ids that differ can name one file, and a room id can name a file
    outside the directory of the rooms: [path.join] normalises. *)
Example filePath_is_normalised :
  RoomManager.filePath "main" = "../data/rooms/main.json" ∧
  RoomManager.filePath "sub/../main" = RoomManager.filePath "main" ∧
  RoomManager.filePath "../../x" = "../x.json".
Proof. by vm_compute. Qed.

(** ** Persistence *)

(** Induction on values, through the arrays and objects they nest. *)
Lemma val_nested_ind (P : JS.val → Prop) :
  P JS.Undefined → P JS.Null → (∀ b, P (JS.Bool b)) → (∀ n, P (JS.Num n)) →
  (∀ s, P (JS.Str s)) →
  (∀ xs, Forall P xs → P (JS.Arr xs)) →
  (∀ fs, Forall (fun kx => P kx.2) fs → P (JS.Obj fs)) →
  ∀ v, P v.
Proof.
  intros HU HN HB HNum HS HA HO. fix IH 1.
  intros [ | | b | n | s | xs | fs];
    [exact HU | exact HN | apply HB | apply HNum | apply HS | | ].
  - apply HA. induction xs as [|x xs IHxs]; constructor; [apply IH | apply IHxs].
  - apply HO. induction fs as [|[k x] fs IHfs]; constructor;
      [apply IH | apply IHfs].
Qed.

(** A value without [undefined] in it is read back as it was written. *)
Lemma reread_representable (v : JS.val) :
  JSON.representable v = true → JSON.reread v = v.
Proof.
  induction v as [ | | b | n | s | xs IH | fs IH] using val_nested_ind;
    simpl; try done.
  - intros Hall. f_equal.
    induction IH as [|x xs Hx _ IHxs]; simpl in *; [done|].
    apply andb_prop in Hall as [Hrx Hrxs].
    rewrite (IHxs Hrxs). f_equal.
    destruct x; try done; by apply Hx.
  - intros Hall. f_equal.
    induction IH as [|[k x] fs Hx _ IHfs]; simpl in *; [done|].
    apply andb_prop in Hall as [Hrx Hrfs].
    rewrite (IHfs Hrfs).
    destruct x; try done; f_equal; f_equal; by apply Hx.
Qed.

Lemma toJSON_representable (d : DrawingState.t) :
  forallb JSON.representable (DrawingState.strokes d) = true →
  JSON.reread (DrawingState.toJSON d) = DrawingState.toJSON d.
Proof.
  intros Hall. apply reread_representable. simpl. by rewrite Hall.
Qed.

(** The settling of the promise that was started last. *)
Lemma settle_last (w : World.t) (k : World.task) (ts : list World.task)
    (ok : bool) :
  World.tasks w = ts ++ [k] →
  Server.step (Server.Settle (length ts) ok) w
  = World.exec (Server.settle k ok) (World.with_tasks (fun _ => ts) w).
Proof.
  intros Hts. unfold Server.step, World.exec, Server.handle.
  rewrite Hts, list_lookup_middle by done. do 2 f_equal.
  destruct w; unfold World.with_tasks; simpl in *. subst.
  f_equal. rewrite (delete_middle ts [] k). apply app_nil_r.
Qed.

Lemma getOrCreateRoom_fresh (w : World.t) (roomId : string) :
  World.rooms w !! roomId = None →
  World.exec (RoomManager.getOrCreateRoom roomId) w
  = World.with_tasks (fun ts => ts ++ [World.Hydrate roomId])
      (World.with_rooms
         <[roomId := {| World.users := ∅;
                        World.drawingState := DrawingState.new JS.Undefined |}]>
         w).
Proof.
  intros Hnone. unfold World.exec, RoomManager.getOrCreateRoom.
  by rewrite Hnone.
Qed.

Lemma saveRoomState_mkdir_effect (w : World.t) (roomId : string)
    (room : World.Room) :
  World.rooms w !! roomId = Some room →
  World.exec (RoomManager.saveRoomState_mkdir roomId true) w
  = World.with_tasks
      (fun ts => ts ++ [World.SaveWrite roomId
                          (JSON.reread
                             (DrawingState.toJSON (World.drawingState room)))])
      w.
Proof.
  intros Hroom. unfold World.exec, RoomManager.saveRoomState_mkdir.
  by rewrite Hroom.
Qed.

(** C9. A room holds the log [L], of strokes that JSON represents. Its
    state is saved: [saveRoomState] is called, [mkdir] settles, the write
    settles. The process is started again and the room is created: the
    read settles, and the room's log is [L], the same strokes in the same
    order. *)
Theorem save_then_load (w : World.t) (roomId : string) (room : World.Room) :
  World.rooms w !! roomId = Some room →
  forallb JSON.representable (DrawingState.strokes (World.drawingState room))
  = true →
  let L := DrawingState.strokes (World.drawingState room) in
  let i := length (World.tasks w) in
  let saved :=
    Server.run [Server.Settle i true; Server.Settle i true]
      (World.exec (RoomManager.saveRoomState roomId) w) in
  let loaded :=
    Server.run [Server.Settle 0 true]
      (World.exec (RoomManager.getOrCreateRoom roomId) (Server.restart saved)) in
  log_of roomId (World.exec (RoomManager.getOrCreateRoom roomId)
                   (Server.restart saved)) = Some [] ∧
  log_of roomId loaded = Some L.
Proof.
  intros Hroom Hrepr L i saved loaded.
  assert (Hdisk : World.disk saved !! RoomManager.filePath roomId
                  = Some (JSON.Parses
                            (DrawingState.toJSON (World.drawingState room)))).
  { subst saved. unfold Server.run. simpl.
    set (w1 := World.exec (RoomManager.saveRoomState roomId) w).
    assert (Hw1 : w1 = World.with_tasks
                         (fun ts => ts ++ [World.SaveMkdir roomId]) w).
    { subst w1. unfold World.exec, RoomManager.saveRoomState.
      by rewrite Hroom. }
    subst i. rewrite (settle_last w1 (World.SaveMkdir roomId) (World.tasks w))
      by (by rewrite Hw1).
    set (w2 := World.exec _ _).
    assert (Hw2 : w2 = World.with_tasks
                         (fun _ => World.tasks w ++
                            [World.SaveWrite roomId
                               (DrawingState.toJSON (World.drawingState room))])
                         w).
    { subst w2. rewrite Hw1. unfold Server.settle.
      rewrite (saveRoomState_mkdir_effect _ roomId room) by done.
      rewrite (toJSON_representable _ Hrepr). by destruct w. }
    rewrite (settle_last w2 (World.SaveWrite roomId
               (DrawingState.toJSON (World.drawingState room))) (World.tasks w))
      by (by rewrite Hw2).
    unfold World.exec, Server.settle, RoomManager.saveRoomState_write,
      World.modify. simpl. by rewrite lookup_insert_eq. }
  set (started := World.exec (RoomManager.getOrCreateRoom roomId)
                    (Server.restart saved)) in *.
  assert (Hstarted : started
            = World.with_tasks (fun ts => ts ++ [World.Hydrate roomId])
                (World.with_rooms
                   <[roomId := {| World.users := ∅;
                                  World.drawingState :=
                                    DrawingState.new JS.Undefined |}]>
                   (Server.restart saved))).
  { subst started. apply getOrCreateRoom_fresh. apply lookup_empty. }
  split.
  { rewrite Hstarted. unfold log_of. simpl. by rewrite lookup_insert_eq. }
  subst loaded. unfold Server.run. simpl.
  rewrite (settle_last started (World.Hydrate roomId) []) by (by rewrite Hstarted).
  rewrite Hstarted. unfold World.exec, Server.settle, RoomManager.hydrate, log_of.
  simpl. rewrite Hdisk. simpl. by rewrite lookup_alter_eq, lookup_insert_eq.
Qed.

Lemma save_then_load_witness :
  let s1 := JS.Obj [("id", JS.Str "5r"); ("userId", JS.Str "a");
                    ("color", JS.Str "#000000"); ("lineWidth", JS.Num 5);
                    ("points", JS.Arr [JS.Obj [("x", JS.Num 1); ("y", JS.Num 2)]]);
                    ("isEraser", JS.Bool false); ("timestamp", JS.Num 10);
                    ("layer", JS.Num 0)] in
  let s2 := JS.Obj [("id", JS.Str "6q"); ("userId", JS.Str "b");
                    ("color", JS.Str "#4ECDC4"); ("lineWidth", JS.Num 3);
                    ("points", JS.Arr []);
                    ("isEraser", JS.Bool true); ("timestamp", JS.Num 5);
                    ("layer", JS.Num 1)] in
  let room := {| World.users := ∅;
                 World.drawingState := DrawingState.mk [s1; s2] [s1] |} in
  let w := World.with_rooms <["r" := room]> (World.init ∅) in
  let saved :=
    Server.run [Server.Settle 0 true; Server.Settle 0 true]
      (World.exec (RoomManager.saveRoomState "r") w) in
  log_of "r"
    (Server.run [Server.Settle 0 true]
       (World.exec (RoomManager.getOrCreateRoom "r") (Server.restart saved)))
  = Some [s1; s2].
Proof.
  intros s1 s2 room w saved.
  refine (proj2 (save_then_load w "r" room _ _)).
  - vm_compute. reflexivity.
  - vm_compute. reflexivity.
Defined.

(** ** Objects *)

Lemma lookup_field_set_eq (k : string) (x : JS.val) (fs : list (string * JS.val)) :
  JS.lookup_field k (JS.set k x fs) = x.
Proof.
  induction fs as [|[k' v] fs IH]; simpl.
  - by rewrite String.eqb_refl.
  - destruct (String.eqb k k') eqn:Hk; simpl.
    + by rewrite String.eqb_refl.
    + by rewrite Hk.
Qed.

Lemma lookup_field_set_ne (k k' : string) (x : JS.val)
    (fs : list (string * JS.val)) :
  k ≠ k' → JS.lookup_field k (JS.set k' x fs) = JS.lookup_field k fs.
Proof.
  intros Hne. apply String.eqb_neq in Hne.
  induction fs as [|[k'' v] fs IH]; simpl.
  - by rewrite Hne.
  - destruct (String.eqb k' k'') eqn:Hk'; simpl.
    + apply String.eqb_eq in Hk' as <-. by rewrite Hne.
    + by rewrite IH.
Qed.

(** ** Who is present: an invariant of the server *)

Lemma keeps_presence_ret {A : Type} (a : A) : keeps_presence (World.ret a).
Proof. by intros w. Qed.

Lemma keeps_presence_bind {A B : Type} (m : World.M A) (k : A → World.M B) :
  keeps_presence m → (∀ a, keeps_presence (k a)) →
  keeps_presence (World.bind m k).
Proof.
  intros Hm Hk w. unfold World.bind.
  destruct (m w) as [a w1] eqn:Hmw.
  specialize (Hm w). rewrite Hmw in Hm. simpl in Hm.
  destruct Hm as (Hj & Hs & Hu). destruct (Hk a w1) as (Hj' & Hs' & Hu').
  split; [congruence|]. split; [congruence|].
  intros roomId. by rewrite Hu', Hu.
Qed.

Lemma keeps_presence_same_rooms {A : Type} (m : World.M A) :
  (∀ w, World.rooms (m w).2 = World.rooms w ∧
        World.joined (m w).2 = World.joined w ∧
        World.sockets (m w).2 = World.sockets w) →
  keeps_presence m.
Proof.
  intros Hm w. destruct (Hm w) as (Hr & Hj & Hs).
  split; [done|]. split; [done|]. intros roomId.
  unfold RoomManager.getUsers. rewrite Hr.
  by destruct (World.rooms w !! roomId).
Qed.

Lemma keeps_presence_getOrCreateRoom (roomId : string) :
  keeps_presence (RoomManager.getOrCreateRoom roomId).
Proof.
  intros w. unfold RoomManager.getOrCreateRoom.
  destruct (World.rooms w !! roomId) as [room|] eqn:Hroom; simpl; [done|].
  split; [done|]. split; [done|]. intros r.
  unfold RoomManager.getUsers. simpl.
  destruct (decide (roomId = r)) as [<-|Hne].
  - by rewrite lookup_insert_eq, Hroom.
  - rewrite lookup_insert_ne by done. by destruct (World.rooms w !! r).
Qed.

Lemma keeps_presence_getUsers (roomId : string) :
  keeps_presence (RoomManager.getUsers roomId).
Proof.
  intros w.
  assert (Hsame : (RoomManager.getUsers roomId w).2 = w).
  { unfold RoomManager.getUsers. by destruct (World.rooms w !! roomId). }
  by rewrite Hsame.
Qed.

Lemma keeps_presence_alter_drawingState
    (f : DrawingState.t → DrawingState.t) (roomId : string) :
  keeps_presence
    (World.modify (World.with_rooms (alter (World.with_drawingState f) roomId))).
Proof.
  intros w. simpl. split; [done|]. split; [done|]. intros r.
  unfold RoomManager.getUsers. simpl.
  destruct (decide (roomId = r)) as [<-|Hne].
  - rewrite lookup_alter_eq. by destruct (World.rooms w !! roomId).
  - rewrite lookup_alter_ne by done. by destruct (World.rooms w !! r).
Qed.

Lemma keeps_presence_getDrawingState (roomId : string) :
  keeps_presence (RoomManager.getDrawingState roomId).
Proof.
  apply keeps_presence_bind; [apply keeps_presence_getOrCreateRoom|].
  intros room. apply keeps_presence_ret.
Qed.

Lemma keeps_presence_onDrawingState {A : Type} (roomId : string)
    (method : DrawingState.t → A * DrawingState.t) :
  keeps_presence (RoomManager.onDrawingState roomId method).
Proof.
  apply keeps_presence_bind; [apply keeps_presence_getDrawingState|].
  intros d. destruct (method d) as [a d'].
  apply keeps_presence_bind; [apply keeps_presence_alter_drawingState|].
  intros _. apply keeps_presence_ret.
Qed.

Lemma keeps_presence_saveRoomState (roomId : string) :
  keeps_presence (RoomManager.saveRoomState roomId).
Proof.
  apply keeps_presence_same_rooms. intros w.
  unfold RoomManager.saveRoomState.
  by destruct (World.rooms w !! roomId).
Qed.

Lemma keeps_presence_io_in_emit (room : string) (m : World.msg) :
  keeps_presence (Server.io_in_emit room m).
Proof. by apply keeps_presence_same_rooms. Qed.

Lemma keeps_presence_socket_emit (socket_id : string) (m : World.msg) :
  keeps_presence (Server.socket_emit socket_id m).
Proof. by apply keeps_presence_same_rooms. Qed.

Lemma keeps_presence_socket_to_emit (socket_id room : string) (m : World.msg) :
  keeps_presence (Server.socket_to_emit socket_id room m).
Proof. by apply keeps_presence_same_rooms. Qed.

Create HintDb presence.

#[local] Hint Resolve keeps_presence_ret keeps_presence_getOrCreateRoom
  keeps_presence_getUsers keeps_presence_getDrawingState
  keeps_presence_onDrawingState keeps_presence_saveRoomState
  keeps_presence_io_in_emit keeps_presence_socket_emit
  keeps_presence_socket_to_emit : presence.

Ltac presence_kept :=
  repeat first
    [ apply keeps_presence_bind; [auto with presence | intros ?]
    | match goal with |- keeps_presence (if ?b then _ else _) => destruct b end
    | match goal with
      | |- keeps_presence (match ?o with Some _ => _ | None => _ end) =>
          destruct o
      end
    | solve [auto with presence] ].

Lemma keeps_presence_on_drawing (socket_id roomId : string) (data : JS.val)
    (now : Z) (rand : string) :
  keeps_presence (Server.on_drawing socket_id roomId data now rand).
Proof. unfold Server.on_drawing. presence_kept. Qed.

Lemma keeps_presence_on_drawingSegment (socket_id roomId : string)
    (data : JS.val) (now : Z) :
  keeps_presence (Server.on_drawingSegment socket_id roomId data now).
Proof.
  unfold Server.on_drawingSegment. destruct data; presence_kept.
Qed.

Lemma keeps_presence_on_undo (socket_id roomId : string) (now : Z) :
  keeps_presence (Server.on_undo socket_id roomId now).
Proof. unfold Server.on_undo. presence_kept. Qed.

Lemma keeps_presence_on_redo (socket_id roomId : string) (now : Z) :
  keeps_presence (Server.on_redo socket_id roomId now).
Proof. unfold Server.on_redo. presence_kept. Qed.

Lemma keeps_presence_on_clear (socket_id roomId : string) :
  keeps_presence (Server.on_clear socket_id roomId).
Proof. unfold Server.on_clear. presence_kept. Qed.

Lemma keeps_presence_settle (k : World.task) (ok : bool) :
  keeps_presence (Server.settle k ok).
Proof.
  destruct k as [roomId|roomId|roomId content]; simpl.
  - intros w. unfold RoomManager.hydrate.
    destruct (if ok then _ else _) as [[|obj]|]; [done| |done].
    apply (keeps_presence_alter_drawingState
             (fun _ => DrawingState.fromJSON obj) roomId w).
  - apply keeps_presence_same_rooms. intros w.
    unfold RoomManager.saveRoomState_mkdir.
    by destruct (if ok then _ else _).
  - destruct ok; [|apply keeps_presence_ret].
    by apply keeps_presence_same_rooms.
Qed.

Lemma participants_unfold (roomId : string) (w : World.t) :
  participants roomId w
  = dom (match World.rooms w !! roomId with
         | Some room => World.users room
         | None => ∅
         end).
Proof.
  unfold participants, RoomManager.getUsers.
  by destruct (World.rooms w !! roomId).
Qed.

Lemma presence_inv_kept (w w' : World.t) :
  World.joined w' = World.joined w →
  World.sockets w' = World.sockets w →
  (∀ roomId, (RoomManager.getUsers roomId w').1
             = (RoomManager.getUsers roomId w).1) →
  presence_inv w → presence_inv w'.
Proof.
  intros Hj Hs Hu Hinv roomId p.
  unfold participants, Server.members. rewrite Hu, Hj, Hs. apply Hinv.
Qed.

Lemma keeps_presence_inv {A : Type} (m : World.M A) (w : World.t) :
  keeps_presence m → presence_inv w → presence_inv (World.exec m w).
Proof.
  intros Hm. destruct (Hm w) as (Hj & Hs & Hu). by apply presence_inv_kept.
Qed.

Lemma alter_lookup_insert {V : Type} (f : V → V) (k : string) (x : V)
    (m : gmap string V) :
  m !! k = Some x → alter f k m = <[k := f x]> m.
Proof.
  intros Hk. apply map_eq. intros j. destruct (decide (k = j)) as [<-|Hne].
  - by rewrite lookup_alter_eq, lookup_insert_eq, Hk.
  - by rewrite lookup_alter_ne, lookup_insert_ne.
Qed.

(** What a connection does to the rooms, the sockets and the socket.io
    rooms. *)
Lemma connection_effect (w : World.t) (socket_id : string)
    (query_roomId query_userName : option string) (pick : nat) :
  let roomId := JS.str_or query_roomId "main" in
  let userName :=
    JS.str_or query_userName ("User_" +:+ String.substring 0 6 socket_id) in
  let userColor := Server.generateUserColor pick in
  let userObj :=
    {| World.id := socket_id; World.name := userName; World.color := userColor;
       World.layer := size (RoomManager.getUsers roomId w).1 |} in
  let w' := World.exec
              (Server.connection socket_id query_roomId query_userName pick) w in
  World.sockets w'
  = <[socket_id := {| World.roomId := roomId; World.userName := userName;
                      World.userColorOf := userColor |}]> (World.sockets w) ∧
  World.joined w'
  = <[roomId := {[socket_id]} ∪ Server.members roomId w]> (World.joined w) ∧
  World.rooms w'
  = <[roomId := {| World.users :=
                     <[socket_id := userObj]> (RoomManager.getUsers roomId w).1;
                   World.drawingState :=
                     (RoomManager.getDrawingState roomId w).1 |}]>
      (World.rooms w).
Proof.
  intros roomId userName userColor userObj w'. subst w' userObj.
  unfold World.exec, Server.connection. fold roomId userName userColor.
  unfold RoomManager.addUser, RoomManager.getDrawingState,
    RoomManager.getOrCreateRoom, RoomManager.getUsers,
    Server.socket_join, Server.io_in_emit, Server.socket_emit,
    Server.socket_to_emit, World.bind, World.modify, World.ret.
  simpl.
  destruct (World.rooms w !! roomId) as [room|] eqn:Hroom; simpl;
    repeat (first [ rewrite Hroom | rewrite lookup_alter_eq
                  | rewrite lookup_insert_eq ]; simpl).
  - split; [done|]. split; [done|].
    rewrite (alter_lookup_insert _ _ room) by done. by destruct room.
  - split; [done|]. split; [done|].
    rewrite (alter_lookup_insert _ _
               {| World.users := ∅;
                  World.drawingState := DrawingState.new JS.Undefined |})
      by apply lookup_insert_eq.
    by rewrite insert_insert_eq.
Qed.

(** What a disconnection does to them. *)
Lemma disconnect_effect (w : World.t) (socket_id : string) (s : World.Socket) :
  World.sockets w !! socket_id = Some s →
  let w' := Server.step (Server.Disconnect socket_id) w in
  World.sockets w' = delete socket_id (World.sockets w) ∧
  World.joined w' = (fun x => x ∖ {[socket_id]}) <$> World.joined w ∧
  (World.rooms w' = World.rooms w ∨
   World.rooms w'
   = alter (World.with_users (delete socket_id)) (World.roomId s)
       (World.rooms w)).
Proof.
  intros Hsock w'. subst w'.
  unfold Server.step, World.exec, Server.handle, Server.of_socket.
  rewrite Hsock.
  unfold Server.on_disconnect, Server.socket_leaveAll, RoomManager.removeUser,
    Server.socket_to_emit, World.bind, World.modify, World.ret.
  simpl.
  destruct (World.rooms w !! World.roomId s) as [room|]; simpl;
    [destruct (World.users room !! socket_id); simpl|]; auto.
Qed.

Lemma presence_inv_connect (w : World.t) (socket_id : string)
    (query_roomId query_userName : option string) (pick : nat) :
  World.sockets w !! socket_id = None →
  presence_inv w →
  presence_inv
    (World.exec (Server.connection socket_id query_roomId query_userName pick) w).
Proof.
  intros Hfresh Hinv.
  destruct (connection_effect w socket_id query_roomId query_userName pick)
    as (Hs & Hj & Hr).
  set (w' := World.exec _ w) in *. set (r0 := JS.str_or query_roomId "main") in *.
  intros roomId p Hp.
  assert (Hcases : (roomId = r0 ∧ p = socket_id) ∨
                   (p ≠ socket_id ∧ p ∈ participants roomId w)).
  { rewrite participants_unfold, Hr in Hp.
    destruct (decide (roomId = r0)) as [->|Hne].
    - rewrite lookup_insert_eq in Hp. simpl in Hp.
      destruct (decide (p = socket_id)) as [->|Hp']; [by left|].
      right. split; [done|]. rewrite dom_insert_L in Hp.
      apply elem_of_union in Hp as [Hp|Hp]; [|done].
      by apply elem_of_singleton in Hp.
    - right. rewrite lookup_insert_ne in Hp by done.
      rewrite <- participants_unfold in Hp.
      split; [|done]. intros ->.
      destruct (Hinv _ _ Hp) as [_ Hsock]. by rewrite Hfresh in Hsock. }
  unfold Server.members. rewrite Hj, Hs.
  destruct Hcases as [[-> ->]|[Hne Hold]].
  - rewrite !lookup_insert_eq. simpl. split; [set_solver|done].
  - destruct (Hinv _ _ Hold) as [Hmem Hsock].
    rewrite (lookup_insert_ne (World.sockets w)) by done. split; [|done].
    destruct (decide (r0 = roomId)) as [->|Hr0].
    + rewrite lookup_insert_eq. simpl. set_solver.
    + by rewrite lookup_insert_ne.
Qed.

Lemma presence_inv_disconnect (w : World.t) (socket_id : string) :
  presence_inv w → presence_inv (Server.step (Server.Disconnect socket_id) w).
Proof.
  intros Hinv.
  destruct (World.sockets w !! socket_id) as [s|] eqn:Hsock; cycle 1.
  { unfold Server.step, World.exec, Server.handle, Server.of_socket.
    by rewrite Hsock. }
  destruct (disconnect_effect w socket_id s Hsock) as (Hs & Hj & Hr).
  set (w' := Server.step _ w) in *.
  intros roomId p Hp.
  assert (Hold : p ∈ participants roomId w ∧ p ≠ socket_id).
  { rewrite participants_unfold in Hp.
    destruct Hr as [Hr|Hr]; rewrite Hr in Hp.
    - rewrite <- participants_unfold in Hp. split; [done|]. intros ->.
      destruct (Hinv _ _ Hp) as [_ Hroom]. rewrite Hsock in Hroom.
      injection Hroom as Hroom.
      (* the socket takes part in the room it is bound to, so it was
         removed from it and the rooms have changed *)
      rewrite participants_unfold in Hp.
      revert Hr. subst w'.
      unfold Server.step, World.exec, Server.handle, Server.of_socket.
      rewrite Hsock.
      unfold Server.on_disconnect, Server.socket_leaveAll,
        RoomManager.removeUser, Server.socket_to_emit, World.bind,
        World.modify, World.ret. simpl. rewrite Hroom.
      destruct (World.rooms w !! roomId) as [room|] eqn:Hrm; simpl;
        [|set_solver].
      apply elem_of_dom in Hp as [u Hu]. rewrite Hu. simpl.
      intros Heq.
      assert (Hl : alter (World.with_users (delete socket_id)) roomId
                     (World.rooms w) !! roomId = Some room)
        by (by rewrite Heq).
      rewrite lookup_alter_eq, Hrm in Hl. injection Hl as Hl.
      assert (Hu' : World.users (World.with_users (delete socket_id) room)
                    !! socket_id = Some u) by (by rewrite Hl).
      simpl in Hu'. by rewrite lookup_delete_eq in Hu'.
    - destruct (decide (World.roomId s = roomId)) as [<-|Hne].
      + rewrite lookup_alter_eq in Hp. rewrite participants_unfold.
        destruct (World.rooms w !! World.roomId s) as [room|]; simpl in *;
          [|set_solver].
        rewrite dom_delete_L in Hp. set_solver.
      + rewrite lookup_alter_ne in Hp by done.
        rewrite <- participants_unfold in Hp.
        split; [done|]. intros ->.
        destruct (Hinv _ _ Hp) as [_ Hroom]. rewrite Hsock in Hroom.
        by injection Hroom. }
  destruct Hold as [Hold Hne]. destruct (Hinv _ _ Hold) as [Hmem Hroom].
  unfold Server.members in *. rewrite Hj, Hs, lookup_fmap.
  rewrite lookup_delete_ne by done. split; [|done].
  destruct (World.joined w !! roomId); simpl in *; set_solver.
Qed.

(** The invariant holds in every state the server can be in. *)
Lemma reachable_presence_inv (w : World.t) :
  Server.reachable w → presence_inv w.
Proof.
  induction 1 as [files|e w Hreach IH|w Hreach IH].
  - intros roomId p Hp. rewrite participants_unfold in Hp.
    simpl in Hp. rewrite lookup_empty in Hp. set_solver.
  - destruct e as [sid qr qn pick|sid data now rand|sid data now|sid now
                  |sid now|sid|sid|i ok].
    + unfold Server.step, World.exec, Server.handle.
      destruct (World.sockets w !! sid) eqn:Hsock; [done|].
      by apply presence_inv_connect.
    + unfold Server.step, Server.handle, Server.of_socket, World.exec.
      destruct (World.sockets w !! sid); [|done].
      apply keeps_presence_inv; [apply keeps_presence_on_drawing|done].
    + unfold Server.step, Server.handle, Server.of_socket, World.exec.
      destruct (World.sockets w !! sid); [|done].
      apply keeps_presence_inv; [apply keeps_presence_on_drawingSegment|done].
    + unfold Server.step, Server.handle, Server.of_socket, World.exec.
      destruct (World.sockets w !! sid); [|done].
      apply keeps_presence_inv; [apply keeps_presence_on_undo|done].
    + unfold Server.step, Server.handle, Server.of_socket, World.exec.
      destruct (World.sockets w !! sid); [|done].
      apply keeps_presence_inv; [apply keeps_presence_on_redo|done].
    + unfold Server.step, Server.handle, Server.of_socket, World.exec.
      destruct (World.sockets w !! sid); [|done].
      apply keeps_presence_inv; [apply keeps_presence_on_clear|done].
    + by apply presence_inv_disconnect.
    + unfold Server.step, Server.handle, World.exec.
      destruct (World.tasks w !! i) as [k|]; [|done].
      apply keeps_presence_inv; [apply keeps_presence_settle|].
      apply (keeps_presence_inv (World.modify (World.with_tasks (delete i))) w);
        [by apply keeps_presence_same_rooms|done].
  - intros roomId p Hp. rewrite participants_unfold in Hp.
    simpl in Hp. rewrite lookup_empty in Hp. set_solver.
Qed.

(** ** The live segment relay *)



(** ** The client: redraw from a snapshot *)

Lemma redraw_strokes_ctx (strokes : list Client.Stroke) (c : Client.t) :
  let c' := foldl (fun c stroke =>
                     Client.drawStroke (Client.points stroke)
                       (Client.color stroke) (Client.lineWidth stroke)
                       (Client.isEraser stroke || false) c)
              c strokes in
  Client.ctx c' = Client.ctx c ++ map paint_of (List.filter is_painted strokes) ∧
  Client.userLayers c' = Client.userLayers c ∧
  Client.incomingStrokes c' = Client.incomingStrokes c.
Proof.
  revert c. induction strokes as [|s strokes IH]; intros c; simpl.
  - by rewrite app_nil_r.
  - destruct (IH (Client.drawStroke (Client.points s) (Client.color s)
                    (Client.lineWidth s) (Client.isEraser s || false) c))
      as (Hctx & Hlayers & Hqueue).
    rewrite Hctx, Hlayers, Hqueue.
    unfold Client.drawStroke, is_painted.
    destruct (length (Client.points s) =? 0)%nat; simpl; [done|].
    by rewrite <- app_assoc.
Qed.

(** C3, as the code has it. On a full state snapshot the main canvas is
    cleared, filled with the background (in the compositing mode the
    context is in), and the strokes that have points are painted in the
    order in which the snapshot lists them; timestamps
    and layers play no part, and the per-author layers are left as they
    are. *)
Theorem snapshot_is_redrawn_in_log_order
    (strokes : list Client.Stroke) (c : Client.t) :
  Client.container c = true →
  let c' := Client.onStateReceived (Some strokes) c in
  Client.ctx c'
  = Client.background (Client.globalCompositeOperation c)
    :: map paint_of (List.filter is_painted strokes) ∧
  Client.userLayers c' = Client.userLayers c.
Proof.
  intros Hcontainer c'. subst c'.
  unfold Client.onStateReceived, Client.redraw. simpl. rewrite Hcontainer.
  destruct (redraw_strokes_ctx strokes
              (Client.with_ctx
                 (fun _ => [Client.background
                              (Client.globalCompositeOperation c)]) c))
    as (Hctx & Hlayers & _).
  by rewrite Hctx, Hlayers.
Qed.

Lemma snapshot_is_redrawn_in_log_order_witness :
  let sA := {| Client.points := [(0, 0); (10, 10)]; Client.color := "#FF6B6B";
               Client.lineWidth := 5; Client.isEraser := false;
               Client.timestamp := Some 10; Client.layer := Some 0 |} in
  let sB := {| Client.points := [(0, 10); (10, 0)]; Client.color := "#4ECDC4";
               Client.lineWidth := 5; Client.isEraser := false;
               Client.timestamp := Some 5; Client.layer := Some 1 |} in
  Client.ctx (Client.onStateReceived (Some [sA; sB]) (Client.new true "me"))
  = [Client.background "source-over"; paint_of sA; paint_of sB].
Proof.
  intros sA sB.
  refine (proj1 (snapshot_is_redrawn_in_log_order [sA; sB]
                   (Client.new true "me") _)).
  reflexivity.
Defined.

(** C3, as the specification has it, fails: for the snapshot that lists
    [sA] (layer 0, timestamp 10) before [sB] (layer 1, timestamp 5), [sA]
    is painted first, and [sB] is not painted before it. *)
Lemma snapshot_is_not_sorted_by_timestamp :
  let sA := {| Client.points := [(0, 0); (10, 10)]; Client.color := "#FF6B6B";
               Client.lineWidth := 5; Client.isEraser := false;
               Client.timestamp := Some 10; Client.layer := Some 0 |} in
  let sB := {| Client.points := [(0, 10); (10, 0)]; Client.color := "#4ECDC4";
               Client.lineWidth := 5; Client.isEraser := false;
               Client.timestamp := Some 5; Client.layer := Some 1 |} in
  let painted :=
    Client.ctx (Client.onStateReceived (Some [sA; sB]) (Client.new true "me")) in
  painted_before (paint_of sA) (paint_of sB) painted ∧
  ¬ painted_before (paint_of sB) (paint_of sA) painted.
Proof.
  intros sA sB painted. split.
  - exists 1%nat, 2%nat. by vm_compute.
  - intros (i & j & Hi & Hj & Hlt).
    assert (Hpainted : painted = [Client.background "source-over";
                                  paint_of sA; paint_of sB])
      by reflexivity.
    rewrite Hpainted in Hi, Hj.
    destruct i as [|[|[|i]]]; simpl in Hi; try discriminate.
    destruct j as [|[|[|j]]]; simpl in Hj; try discriminate; lia.
Qed.

(** The queue of completed strokes, for comparison, is sorted before it is
    painted: there [sB] comes first. *)
Example incoming_queue_is_sorted :
  let sA := {| Client.points := [(0, 0); (10, 10)]; Client.color := "#FF6B6B";
               Client.lineWidth := 5; Client.isEraser := false;
               Client.timestamp := Some 10; Client.layer := Some 0 |} in
  let sB := {| Client.points := [(0, 10); (10, 0)]; Client.color := "#4ECDC4";
               Client.lineWidth := 5; Client.isEraser := false;
               Client.timestamp := Some 5; Client.layer := Some 1 |} in
  let c := Client.enqueueStroke sB
             (Client.enqueueStroke sA (Client.new true "me")) in
  Client.ctx (Client.processIncomingQueue c)
  = [Client.background "source-over"; paint_of sB; paint_of sA].
Proof. reflexivity. Qed.

(** ** The client: the ordering gate *)

Lemma str_or_Some (s d : string) : s ≠ "" → JS.str_or (Some s) d = s.
Proof. intros Hs%String.eqb_neq. simpl. by rewrite Hs. Qed.

Lemma num_or_Some (n d : Z) : n ≠ 0 → JS.num_or (Some n) d = n.
Proof. intros Hn%Z.eqb_neq. simpl. by rewrite Hn. Qed.

(** C7. A remote author has a layer on which a segment was accepted
    before, so that its gate holds a timestamp. A segment of that author
    with a smaller timestamp changes nothing at all. A segment with the
    same or a greater timestamp is painted on the layer and its timestamp
    becomes the gate. Of three segments that arrive with timestamps 100, 80
    and 120, the first and the third are painted and the second is not. *)
Theorem ordering_gate (c : Client.t) (author : string)
    (layerData : Client.LayerData) (seg : Client.Segment) (t now : Z) :
  author ≠ "" →
  author ≠ Client.currentSocketId c →
  Client.seg_userId seg = Some author →
  Client.seg_timestamp seg = Some t →
  t ≠ 0 →
  Client.userLayers c !! author = Some layerData →
  Client.lastTimestamp layerData ≠ 0 →
  (t < Client.lastTimestamp layerData → Client.drawSegment seg now c = c) ∧
  (Client.lastTimestamp layerData ≤ t →
   Client.userLayers (Client.drawSegment seg now c) !! author
   = Some {| Client.canvas :=
               Client.canvas layerData
               ++ [paint_of_segment seg (Client.penWidth c)];
             Client.lastUpdate := now;
             Client.lastTimestamp := t |}) ∧
  let segment (ts : Z) :=
    {| Client.seg_userId := Some "b"; Client.seg_timestamp := Some ts;
       Client.seg_color := Some "#4ECDC4"; Client.seg_size := Some 3;
       Client.seg_tool := Some "brush"; Client.seg_points := None;
       Client.seg_x0 := Some ts; Client.seg_y0 := Some 1;
       Client.seg_x1 := Some ts; Client.seg_y1 := Some 2 |} in
  let c0 := Client.new true "a" in
  let c1 := Client.onDrawingSegmentReceived "a" (segment 100) 1000 c0 in
  let c2 := Client.onDrawingSegmentReceived "a" (segment 80) 1001 c1 in
  let c3 := Client.onDrawingSegmentReceived "a" (segment 120) 1002 c2 in
  Client.userLayers c1 !! "b"
  = Some {| Client.canvas := [paint_of_segment (segment 100) 5];
            Client.lastUpdate := 1000; Client.lastTimestamp := 100 |} ∧
  c2 = c1 ∧
  Client.userLayers c3 !! "b"
  = Some {| Client.canvas := [paint_of_segment (segment 100) 5;
                              paint_of_segment (segment 120) 5];
            Client.lastUpdate := 1002; Client.lastTimestamp := 120 |}.
Proof.
  intros Hauthor Hremote Huser Hstamp Ht Hlayer Hgate.
  split; [|split; [|by vm_compute]].
  - intros Hlt. unfold Client.drawSegment, Client.getUserLayer.
    rewrite Huser, Hstamp, str_or_Some, num_or_Some by done.
    apply String.eqb_neq in Hremote. rewrite Hremote, Hlayer.
    apply Z.eqb_neq in Hgate. apply Z.ltb_lt in Hlt.
    by rewrite Hgate, Hlt.
  - intros Hle. unfold Client.drawSegment, Client.getUserLayer.
    rewrite Huser, Hstamp, str_or_Some, num_or_Some by done.
    apply String.eqb_neq in Hremote. rewrite Hremote, Hlayer.
    assert (Hge : (t <? Client.lastTimestamp layerData) = false)
      by (apply Z.ltb_ge; lia).
    rewrite Hge, andb_false_r. unfold paint_of_segment.
    destruct (match Client.seg_tool seg with
              | Some tool => String.eqb tool "eraser"
              | None => false
              end); simpl; by rewrite lookup_insert_eq.
Qed.

Lemma ordering_gate_witness :
  let segment (ts : Z) :=
    {| Client.seg_userId := Some "b"; Client.seg_timestamp := Some ts;
       Client.seg_color := Some "#4ECDC4"; Client.seg_size := Some 3;
       Client.seg_tool := Some "eraser"; Client.seg_points := None;
       Client.seg_x0 := Some ts; Client.seg_y0 := Some 1;
       Client.seg_x1 := Some ts; Client.seg_y1 := Some 2 |} in
  let c1 := Client.drawSegment (segment 100) 1000 (Client.new true "a") in
  Client.drawSegment (segment 80) 1001 c1 = c1 ∧
  Client.lastTimestamp
    <$> Client.userLayers (Client.drawSegment (segment 100) 1002 c1) !! "b"
  = Some 100.
Proof.
  intros segment c1.
  pose proof (ordering_gate c1 "b"
                {| Client.canvas := [paint_of_segment (segment 100) 5];
                   Client.lastUpdate := 1000; Client.lastTimestamp := 100 |})
    as Hgate.
  split.
  - refine (proj1 (Hgate (segment 80) 80 1001 _ _ _ _ _ _ _) _);
      first [discriminate | reflexivity | lia | by vm_compute].
  - destruct (Hgate (segment 100) 100 1002) as (_ & Haccept & _);
      [first [discriminate | reflexivity | lia | by vm_compute] .. |].
    rewrite Haccept; [reflexivity | simpl; lia].
Defined.

(** * Further properties of the code *)

(** ** The history of a room *)

Lemma DrawingState_eta (d : DrawingState.t) :
  DrawingState.mk (DrawingState.strokes d) (DrawingState.undoStack d) = d.
Proof. by destruct d. Qed.

(** X1. On a log that is not empty, undo followed by redo gives back the
    stroke that was removed and the state as it was, redo stack
    included. *)
Theorem redo_reverts_undo (d : DrawingState.t) :
  DrawingState.strokes d ≠ [] →
  ∃ (s : JS.val) (d1 : DrawingState.t),
    DrawingState.undoLastStroke d = (s, d1) ∧
    JS.pop (DrawingState.strokes d) = Some (s, DrawingState.strokes d1) ∧
    DrawingState.redoLastStroke d1 = (s, d).
Proof.
  intros Hne. unfold DrawingState.undoLastStroke.
  destruct (JS.pop (DrawingState.strokes d)) as [[s rest]|] eqn:Hpop.
  - eexists _, _. split; [reflexivity|]. split; [done|].
    unfold DrawingState.redoLastStroke. simpl. rewrite pop_push.
    apply pop_Some in Hpop. rewrite <- Hpop. by rewrite DrawingState_eta.
  - by apply pop_None in Hpop.
Qed.

Lemma redo_reverts_undo_witness :
  let s1 := JS.Obj [("id", JS.Str "s1")] in
  let s2 := JS.Obj [("id", JS.Str "s2")] in
  let d := DrawingState.mk [s1; s2] [s1] in
  ∃ (s : JS.val) (d1 : DrawingState.t),
    DrawingState.undoLastStroke d = (s, d1) ∧
    JS.pop (DrawingState.strokes d) = Some (s, DrawingState.strokes d1) ∧
    DrawingState.redoLastStroke d1 = (s, d).
Proof.
  intros s1 s2 d. apply (redo_reverts_undo d). discriminate.
Defined.

(** X2. On a redo stack that is not empty, redo followed by undo gives
    back the stroke that was restored and the state as it was. *)
Theorem undo_reverts_redo (d : DrawingState.t) :
  DrawingState.undoStack d ≠ [] →
  ∃ (s : JS.val) (d1 : DrawingState.t),
    DrawingState.redoLastStroke d = (s, d1) ∧
    JS.pop (DrawingState.strokes d1) = Some (s, DrawingState.strokes d) ∧
    DrawingState.undoLastStroke d1 = (s, d).
Proof.
  intros Hne. unfold DrawingState.redoLastStroke.
  destruct (JS.pop (DrawingState.undoStack d)) as [[s rest]|] eqn:Hpop.
  - eexists _, _. split; [reflexivity|]. simpl. split; [apply pop_push|].
    unfold DrawingState.undoLastStroke. simpl. rewrite pop_push.
    apply pop_Some in Hpop. rewrite <- Hpop. by rewrite DrawingState_eta.
  - by apply pop_None in Hpop.
Qed.

Lemma undo_reverts_redo_witness :
  let s1 := JS.Obj [("id", JS.Str "s1")] in
  let s2 := JS.Obj [("id", JS.Str "s2")] in
  let d := DrawingState.mk [s1] [s2] in
  ∃ (s : JS.val) (d1 : DrawingState.t),
    DrawingState.redoLastStroke d = (s, d1) ∧
    JS.pop (DrawingState.strokes d1) = Some (s, DrawingState.strokes d) ∧
    DrawingState.undoLastStroke d1 = (s, d).
Proof.
  intros s1 s2 d. apply (undo_reverts_redo d). discriminate.
Defined.

Lemma history_move (m : move) (d : DrawingState.t) :
  history (move_on m d) = history d.
Proof.
  unfold history, move_on, DrawingState.undoLastStroke,
    DrawingState.redoLastStroke.
  destruct m.
  - destruct (JS.pop (DrawingState.strokes d)) as [[s rest]|] eqn:Hpop;
      simpl; [|done].
    apply pop_Some in Hpop. rewrite Hpop. unfold JS.push.
    by rewrite reverse_app, <- app_assoc.
  - destruct (JS.pop (DrawingState.undoStack d)) as [[s rest]|] eqn:Hpop;
      simpl; [|done].
    apply pop_Some in Hpop. rewrite Hpop. unfold JS.push.
    by rewrite reverse_app, <- app_assoc.
Qed.

(** X3. Undo and redo, in any number and any order, available or not, only
    move the boundary between the log and the undone strokes: the log
    followed by the undone strokes, last undone first, stays the same list,
    so no stroke is lost, repeated or reordered. *)
Theorem undo_redo_keep_history (ms : list move) (d : DrawingState.t) :
  history (foldl (fun d m => move_on m d) d ms) = history d ∧
  (DrawingState.getStrokeCount (foldl (fun d m => move_on m d) d ms)
   + length (DrawingState.undoStack (foldl (fun d m => move_on m d) d ms))
   = DrawingState.getStrokeCount d + length (DrawingState.undoStack d))%nat.
Proof.
  assert (Hhist : history (foldl (fun d m => move_on m d) d ms) = history d).
  { revert d. induction ms as [|m ms IH]; intros d; simpl; [done|].
    by rewrite IH, history_move. }
  split; [done|].
  apply (f_equal length) in Hhist. unfold history in Hhist.
  rewrite !length_app, !length_reverse in Hhist. done.
Qed.

(** X4. [fromJSON] accepts whatever was parsed: the strokes are the
    [strokes] array when there is one and none otherwise ([null], a
    number, a string, an array, an object without such an array), and the
    redo stack is empty. *)
Theorem fromJSON_total (obj : JS.val) :
  DrawingState.fromJSON obj
  = DrawingState.mk
      (match JS.get "strokes" obj with JS.Arr xs => xs | _ => [] end) [] ∧
  DrawingState.getStrokeCount (DrawingState.fromJSON obj)
  = match JS.get "strokes" obj with JS.Arr xs => length xs | _ => 0%nat end.
Proof.
  assert (Hfrom : DrawingState.fromJSON obj
                  = DrawingState.mk
                      (match JS.get "strokes" obj with
                       | JS.Arr xs => xs | _ => [] end) []).
  { unfold DrawingState.fromJSON.
    destruct obj as [ | |b|n|s|xs|fs]; simpl; try done.
    - by destruct b.
    - by destruct (n =? 0).
    - by destruct (String.eqb s "").
    - by destruct (JS.lookup_field "strokes" fs). }
  split; [done|]. rewrite Hfrom.
  by destruct (JS.get "strokes" obj).
Qed.

(** ** The room manager *)

(** X5. [getOrCreateRoom] is idempotent: a second call returns the room of
    the first and changes nothing, so that no second read of the file is
    started. *)
Theorem getOrCreateRoom_idempotent (roomId : string) (w : World.t) :
  let (room, w1) := RoomManager.getOrCreateRoom roomId w in
  World.rooms w1 !! roomId = Some room ∧
  RoomManager.getOrCreateRoom roomId w1 = (room, w1).
Proof.
  unfold RoomManager.getOrCreateRoom at 1.
  destruct (World.rooms w !! roomId) as [room|] eqn:Hroom.
  - split; [done|]. unfold RoomManager.getOrCreateRoom. by rewrite Hroom.
  - assert (Hnew : ∀ room,
              World.rooms
                (World.with_tasks (fun ts => ts ++ [World.Hydrate roomId])
                   (World.with_rooms <[roomId := room]> w)) !! roomId
              = Some room) by (intros room; apply lookup_insert_eq).
    split; [apply Hnew|]. unfold RoomManager.getOrCreateRoom at 1.
    by rewrite Hnew.
Qed.

(** X6. [removeUser] on a room or a socket that is not known returns
    nothing and changes nothing; after [addUser] of a socket that was not
    in the room it returns the user that was added and the participants
    are those from before. *)
Theorem removeUser_addUser (roomId socketId : string) (user : World.User)
    (w : World.t) :
  (RoomManager.getUsers roomId w).1 !! socketId = None →
  RoomManager.removeUser roomId socketId w = (None, w) ∧
  let w1 := World.exec (RoomManager.addUser roomId socketId user) w in
  (RoomManager.getUsers roomId w1).1 !! socketId = Some user ∧
  ∃ w2 : World.t,
    RoomManager.removeUser roomId socketId w1 = (Some user, w2) ∧
    (RoomManager.getUsers roomId w2).1 = (RoomManager.getUsers roomId w).1.
Proof.
  intros Habsent. unfold RoomManager.getUsers in Habsent. split.
  { unfold RoomManager.removeUser.
    destruct (World.rooms w !! roomId) as [room|]; [|done].
    simpl in Habsent. by rewrite Habsent. }
  unfold World.exec, RoomManager.addUser, RoomManager.getOrCreateRoom,
    RoomManager.removeUser, RoomManager.getUsers, World.bind, World.modify,
    World.ret.
  destruct (World.rooms w !! roomId) as [room|] eqn:Hroom; simpl in *;
    repeat (first [ rewrite Hroom | rewrite lookup_alter_eq
                  | rewrite lookup_insert_eq ]; simpl).
  - split; [done|]. eexists. split; [reflexivity|]. simpl.
    rewrite lookup_alter_eq. simpl.
    repeat (first [ rewrite Hroom | rewrite lookup_alter_eq
                  | rewrite lookup_insert_eq ]; simpl).
    by rewrite delete_insert_id.
  - split; [done|]. eexists. split; [reflexivity|]. simpl.
    repeat (first [ rewrite lookup_alter_eq
                  | rewrite lookup_insert_eq ]; simpl).
    by rewrite delete_insert_id.
Qed.

Lemma removeUser_addUser_witness :
  let user := {| World.id := "a"; World.name := "Ann";
                 World.color := "#FF6B6B"; World.layer := 0 |} in
  RoomManager.removeUser "r" "a" (World.init ∅) = (None, World.init ∅) ∧
  (RoomManager.getUsers "r"
     (World.exec (RoomManager.addUser "r" "a" user) (World.init ∅))).1 !! "a"
  = Some user.
Proof.
  intros user.
  destruct (removeUser_addUser "r" "a" user (World.init ∅))
    as (Hunknown & Hadded & _).
  - reflexivity.
  - by split.
Defined.

(** ** Invariants that every handler keeps

    An invariant that the elementary changes of the server state keep is
    kept by every method of the room manager, by every handler and so by
    every step of the server. *)

Section Preservation.

Variable I : World.t → Prop.

Hypothesis I_alter :
  ∀ (f : World.Room → World.Room) (r : string) (w : World.t),
    I w → I (World.with_rooms (alter f r) w).
Hypothesis I_create :
  ∀ (r : string) (room : World.Room) (w : World.t),
    World.rooms w !! r = None → I w →
    I (World.with_tasks (fun ts => ts ++ [World.Hydrate r])
         (World.with_rooms <[r := room]> w)).
Hypothesis I_mkdir :
  ∀ (r : string) (w : World.t),
    I w → I (World.with_tasks (fun ts => ts ++ [World.SaveMkdir r]) w).
Hypothesis I_write :
  ∀ (r : string) (content : JS.val) (w : World.t),
    I w → I (World.with_tasks (fun ts => ts ++ [World.SaveWrite r content]) w).
Hypothesis I_settled :
  ∀ (i : nat) (w : World.t), I w → I (World.with_tasks (delete i) w).
Hypothesis I_sent :
  ∀ (f : list World.Emission → list World.Emission) (w : World.t),
    I w → I (World.with_sent f w).
Hypothesis I_joined :
  ∀ (f : gmap string (gset string) → gmap string (gset string)) (w : World.t),
    I w → I (World.with_joined f w).
Hypothesis I_sockets :
  ∀ (f : gmap string World.Socket → gmap string World.Socket) (w : World.t),
    I w → I (World.with_sockets f w).
Hypothesis I_disk :
  ∀ (f : gmap string JSON.file → gmap string JSON.file) (w : World.t),
    I w → I (World.with_disk f w).

Lemma preserves_ret {A : Type} (a : A) : preserves I (World.ret a).
Proof. by intros w. Qed.

Lemma preserves_bind {A B : Type} (m : World.M A) (k : A → World.M B) :
  preserves I m → (∀ a, preserves I (k a)) → preserves I (World.bind m k).
Proof.
  intros Hm Hk w HI. unfold World.bind. specialize (Hm w HI).
  destruct (m w) as [a w1]. by apply Hk.
Qed.

Lemma preserves_modify (f : World.t → World.t) :
  (∀ w, I w → I (f w)) → preserves I (World.modify f).
Proof. intros Hf w HI. by apply Hf. Qed.

Lemma preserves_getOrCreateRoom (roomId : string) :
  preserves I (RoomManager.getOrCreateRoom roomId).
Proof.
  intros w HI. unfold RoomManager.getOrCreateRoom.
  destruct (World.rooms w !! roomId) eqn:Hroom; simpl; [done|].
  by apply I_create.
Qed.

Lemma preserves_getUsers (roomId : string) :
  preserves I (RoomManager.getUsers roomId).
Proof.
  intros w HI. unfold RoomManager.getUsers.
  by destruct (World.rooms w !! roomId).
Qed.

Lemma preserves_getDrawingState (roomId : string) :
  preserves I (RoomManager.getDrawingState roomId).
Proof.
  apply preserves_bind; [apply preserves_getOrCreateRoom|].
  intros room. apply preserves_ret.
Qed.

Lemma preserves_onDrawingState {A : Type} (roomId : string)
    (method : DrawingState.t → A * DrawingState.t) :
  preserves I (RoomManager.onDrawingState roomId method).
Proof.
  apply preserves_bind; [apply preserves_getDrawingState|].
  intros d. destruct (method d) as [a d'].
  apply preserves_bind; [|intros _; apply preserves_ret].
  apply preserves_modify. intros w. apply I_alter.
Qed.

Lemma preserves_addUser (roomId socketId : string) (user : World.User) :
  preserves I (RoomManager.addUser roomId socketId user).
Proof.
  apply preserves_bind; [apply preserves_getOrCreateRoom|]. intros _.
  apply preserves_bind; [|intros _; apply preserves_ret].
  apply preserves_modify. intros w. apply I_alter.
Qed.

Lemma preserves_removeUser (roomId socketId : string) :
  preserves I (RoomManager.removeUser roomId socketId).
Proof.
  intros w HI. unfold RoomManager.removeUser.
  destruct (World.rooms w !! roomId) as [room|]; [|done].
  destruct (World.users room !! socketId); [|done]. by apply I_alter.
Qed.

Lemma preserves_saveRoomState (roomId : string) :
  preserves I (RoomManager.saveRoomState roomId).
Proof.
  intros w HI. unfold RoomManager.saveRoomState.
  destruct (World.rooms w !! roomId); [|done]. by apply I_mkdir.
Qed.

Lemma preserves_settle (k : World.task) (ok : bool) :
  preserves I (Server.settle k ok).
Proof.
  intros w HI. destruct k as [roomId|roomId|roomId content]; simpl.
  - unfold RoomManager.hydrate.
    destruct (if ok then _ else _) as [[|obj]|]; [done| |done].
    by apply I_alter.
  - unfold RoomManager.saveRoomState_mkdir.
    destruct (if ok then _ else _); [|done]. by apply I_write.
  - unfold RoomManager.saveRoomState_write. destruct ok; [|done].
    by apply I_disk.
Qed.

Lemma preserves_io_in_emit (room : string) (m : World.msg) :
  preserves I (Server.io_in_emit room m).
Proof. intros w HI. by apply I_sent. Qed.

Lemma preserves_socket_emit (socket_id : string) (m : World.msg) :
  preserves I (Server.socket_emit socket_id m).
Proof. intros w HI. by apply I_sent. Qed.

Lemma preserves_socket_to_emit (socket_id room : string) (m : World.msg) :
  preserves I (Server.socket_to_emit socket_id room m).
Proof. intros w HI. by apply I_sent. Qed.

Ltac preserved :=
  repeat first
    [ apply preserves_ret
    | apply preserves_getOrCreateRoom
    | apply preserves_getUsers
    | apply preserves_getDrawingState
    | apply preserves_onDrawingState
    | apply preserves_addUser
    | apply preserves_removeUser
    | apply preserves_saveRoomState
    | apply preserves_io_in_emit
    | apply preserves_socket_emit
    | apply preserves_socket_to_emit
    | apply preserves_modify; intros ? ?;
        first [by apply I_sockets | by apply I_joined | by apply I_alter]
    | match goal with |- preserves _ (if ?b then _ else _) => destruct b end
    | match goal with
      | |- preserves _ (match ?o with Some _ => _ | None => _ end) =>
          destruct o
      end
    | apply preserves_bind; [|intros ?] ].

Lemma preserves_connection (socket_id : string)
    (query_roomId query_userName : option string) (pick : nat) :
  preserves I (Server.connection socket_id query_roomId query_userName pick).
Proof.
  unfold Server.connection, Server.socket_join. preserved.
Qed.

Lemma preserves_handle (e : Server.event) : preserves I (Server.handle e).
Proof.
  destruct e as [sid qr qn pick|sid data now rand|sid data now|sid now
                |sid now|sid|sid|i ok]; simpl.
  - intros w HI. destruct (World.sockets w !! sid); [done|].
    by apply preserves_connection.
  - intros w HI. unfold Server.of_socket.
    destruct (World.sockets w !! sid); [|done]. revert w HI.
    unfold Server.on_drawing. preserved.
  - intros w HI. unfold Server.of_socket.
    destruct (World.sockets w !! sid); [|done]. revert w HI.
    unfold Server.on_drawingSegment. destruct data; preserved.
  - intros w HI. unfold Server.of_socket.
    destruct (World.sockets w !! sid); [|done]. revert w HI.
    unfold Server.on_undo. preserved.
  - intros w HI. unfold Server.of_socket.
    destruct (World.sockets w !! sid); [|done]. revert w HI.
    unfold Server.on_redo. preserved.
  - intros w HI. unfold Server.of_socket.
    destruct (World.sockets w !! sid); [|done]. revert w HI.
    unfold Server.on_clear. preserved.
  - intros w HI. unfold Server.of_socket.
    destruct (World.sockets w !! sid); [|done]. revert w HI.
    unfold Server.on_disconnect, Server.socket_leaveAll. preserved.
  - intros w HI. destruct (World.tasks w !! i); [|done].
    apply preserves_settle. by apply I_settled.
Qed.

Lemma preserves_step (e : Server.event) (w : World.t) :
  I w → I (Server.step e w).
Proof. apply preserves_handle. Qed.

End Preservation.

Lemma is_Some_alter (f : World.Room → World.Room) (r r' : string)
    (rooms : gmap string World.Room) :
  is_Some (alter f r' rooms !! r) ↔ is_Some (rooms !! r).
Proof.
  destruct (decide (r' = r)) as [->|Hne].
  - rewrite lookup_alter_eq. by rewrite fmap_is_Some.
  - by rewrite lookup_alter_ne.
Qed.

(** X7. No step of the server removes a room: a room that exists still
    exists after any sequence of connections, events, disconnections and
    settled promises, also when its last participant has left. *)
Theorem rooms_are_never_removed (es : list Server.event) (w : World.t)
    (roomId : string) :
  is_Some (World.rooms w !! roomId) →
  is_Some (World.rooms (Server.run es w) !! roomId).
Proof.
  revert w. induction es as [|e es IH]; intros w Hroom; simpl; [done|].
  apply IH.
  apply (preserves_step (fun w => is_Some (World.rooms w !! roomId)));
    try done.
  - intros f r w0. simpl. by rewrite is_Some_alter.
  - intros r room w0 _. simpl.
    destruct (decide (r = roomId)) as [->|Hne].
    + by rewrite lookup_insert_eq.
    + by rewrite lookup_insert_ne.
Qed.

Lemma rooms_are_never_removed_witness :
  let w := Server.step (Server.Connect "a" None None 0) (World.init ∅) in
  is_Some (World.rooms
             (Server.run [Server.Disconnect "a"; Server.Settle 0 true] w)
           !! "main").
Proof.
  intros w.
  apply (rooms_are_never_removed
           [Server.Disconnect "a"; Server.Settle 0 true] w "main").
  vm_compute. eauto.
Defined.

Lemma hydrations_app (roomId : string) (w : World.t) (k : World.task) :
  hydrations roomId (World.with_tasks (fun ts => ts ++ [k]) w)
  = (hydrations roomId w
     + match k with
       | World.Hydrate r => if String.eqb r roomId then 1 else 0
       | _ => 0
       end)%nat.
Proof.
  unfold hydrations. simpl. rewrite List.filter_app, length_app. f_equal.
  destruct k as [r|r|r c]; simpl; try done. by destruct (String.eqb r roomId).
Qed.

Lemma hydrations_delete (roomId : string) (w : World.t) (i : nat) :
  (hydrations roomId (World.with_tasks (delete i) w) ≤ hydrations roomId w)%nat.
Proof.
  unfold hydrations. simpl. generalize (World.tasks w) as ts. clear w.
  intros ts. revert i. induction ts as [|k ts IH]; intros i; [done|].
  destruct i as [|i]; simpl.
  - destruct (match k with World.Hydrate r => String.eqb r roomId | _ => false end);
      simpl; lia.
  - specialize (IH i).
    destruct (match k with World.Hydrate r => String.eqb r roomId | _ => false end);
      simpl; lia.
Qed.

(** X8. In every state the server can be in, a room has at most one
    hydration pending, and a room that does not exist has none: the file
    of a room is read once for each start of the process, when the room
    is created. *)
Theorem at_most_one_hydration (w : World.t) :
  Server.reachable w → hydration_inv w.
Proof.
  induction 1 as [files|e w Hreach IH|w Hreach IH];
    [intros roomId; unfold hydrations; simpl; split; [done|lia]|
    |intros roomId; unfold hydrations; simpl; split; [done|lia]].
  apply (preserves_step hydration_inv); try done.
  - intros f r w0 Hinv roomId. destruct (Hinv roomId) as [Hnone Hle].
    split; [|done]. simpl. intros Hlook. apply Hnone.
    destruct (World.rooms w0 !! roomId) eqn:Hold; [|done].
    assert (Hsome : is_Some (alter f r (World.rooms w0) !! roomId))
      by (apply is_Some_alter; eauto).
    rewrite Hlook in Hsome. by destruct Hsome.
  - intros r room w0 Habsent Hinv roomId.
    destruct (Hinv roomId) as [Hnone Hle]. rewrite hydrations_app.
    change (hydrations roomId (World.with_rooms <[r:=room]> w0))
      with (hydrations roomId w0).
    simpl. destruct (String.eqb r roomId) eqn:Heq.
    + apply String.eqb_eq in Heq as ->. rewrite (Hnone Habsent).
      split; [|lia]. by rewrite lookup_insert_eq.
    + apply String.eqb_neq in Heq. rewrite lookup_insert_ne by done.
      split; [|lia]. intros Hn. rewrite (Hnone Hn). lia.
  - intros r w0 Hinv roomId. rewrite hydrations_app, Nat.add_0_r.
    apply Hinv.
  - intros r c w0 Hinv roomId. rewrite hydrations_app, Nat.add_0_r.
    apply Hinv.
  - intros i w0 Hinv roomId. destruct (Hinv roomId) as [Hnone Hle].
    pose proof (hydrations_delete roomId w0 i) as Hdel.
    split; [|lia]. intros Hn. specialize (Hnone Hn). lia.
Qed.

Lemma at_most_one_hydration_witness :
  hydration_inv
    (Server.run [ Server.Connect "a" None None 0;
                  Server.Drawing "a" (JS.Obj []) 5 "r";
                  Server.Connect "b" (Some "other") None 1 ]
       (World.init ∅)).
Proof.
  apply at_most_one_hydration.
  apply Server.reachable_step, Server.reachable_step, Server.reachable_step,
    Server.reachable_init.
Defined.

(** X9. The content of a save is taken when [mkdir] settles, not when
    [saveRoomState] is called: a stroke that is appended in between is in
    the file that is written. *)
Theorem save_writes_the_state_at_mkdir (w : World.t) (roomId : string)
    (room : World.Room) (stroke : JS.val) :
  World.rooms w !! roomId = Some room →
  let i := length (World.tasks w) in
  let w1 := World.exec (RoomManager.saveRoomState roomId) w in
  let w2 := World.exec
              (RoomManager.onDrawingState roomId
                 (DrawingState.addStroke stroke)) w1 in
  let w3 := Server.run [Server.Settle i true; Server.Settle i true] w2 in
  World.disk w3 !! RoomManager.filePath roomId
  = Some (JSON.Parses
            (JSON.reread
               (DrawingState.toJSON
                  (DrawingState.addStroke stroke (World.drawingState room)).2))).
Proof.
  intros Hroom i w1 w2 w3.
  set (d' := (DrawingState.addStroke stroke (World.drawingState room)).2).
  assert (Hw2 : World.tasks w2 = World.tasks w ++ [World.SaveMkdir roomId] ∧
                World.rooms w2 !! roomId
                = Some (World.with_drawingState (fun _ => d') room)).
  { subst w2 w1. unfold World.exec, RoomManager.saveRoomState,
      RoomManager.onDrawingState, RoomManager.getDrawingState,
      RoomManager.getOrCreateRoom, World.bind, World.modify, World.ret.
    rewrite Hroom. simpl. rewrite Hroom. simpl.
    by rewrite lookup_alter_eq, Hroom. }
  destruct Hw2 as [Htasks Hroom2].
  subst w3. unfold Server.run. simpl. subst i.
  rewrite (settle_last w2 (World.SaveMkdir roomId) (World.tasks w)) by done.
  unfold Server.settle at 1.
  rewrite (saveRoomState_mkdir_effect _ roomId
             (World.with_drawingState (fun _ => d') room)) by done.
  set (w2' := World.with_tasks _ (World.with_tasks _ w2)).
  rewrite (settle_last w2'
             (World.SaveWrite roomId
                (JSON.reread (DrawingState.toJSON d'))) (World.tasks w))
    by done.
  unfold World.exec, Server.settle, RoomManager.saveRoomState_write,
    World.modify. simpl. by rewrite lookup_insert_eq.
Qed.

Lemma save_writes_the_state_at_mkdir_witness :
  let s1 := JS.Obj [("id", JS.Str "s1")] in
  let s2 := JS.Obj [("id", JS.Str "s2")] in
  let room := {| World.users := ∅;
                 World.drawingState := DrawingState.mk [s1] [] |} in
  let w := World.with_rooms <["r" := room]> (World.init ∅) in
  let w1 := World.exec (RoomManager.saveRoomState "r") w in
  let w2 := World.exec
              (RoomManager.onDrawingState "r" (DrawingState.addStroke s2)) w1 in
  World.disk (Server.run [Server.Settle 0 true; Server.Settle 0 true] w2)
  !! RoomManager.filePath "r"
  = Some (JSON.Parses (JS.Obj [("strokes", JS.Arr [s1; s2])])).
Proof.
  intros s1 s2 room w w1 w2.
  apply (save_writes_the_state_at_mkdir w "r" room s2).
  vm_compute. reflexivity.
Defined.

(** X10. A promise that settles with an I/O error changes no room and no
    file and sends nothing. And whatever settles, a room changes only
    when it is a hydration that was read: no stage of a save touches the
    rooms. *)
Theorem failed_io_changes_nothing (w : World.t) (i : nat) :
  (World.rooms (Server.step (Server.Settle i false) w) = World.rooms w ∧
   World.disk (Server.step (Server.Settle i false) w) = World.disk w ∧
   World.sent (Server.step (Server.Settle i false) w) = World.sent w) ∧
  ∀ ok : bool,
    World.rooms (Server.step (Server.Settle i ok) w) = World.rooms w ∨
    (ok = true ∧ ∃ roomId, World.tasks w !! i = Some (World.Hydrate roomId)).
Proof.
  unfold Server.step, World.exec, Server.handle.
  destruct (World.tasks w !! i) as [[roomId|roomId|roomId content]|];
    simpl; [| | |by split; [|left]].
  - split; [done|]. intros [|]; [right; eauto|by left].
  - split; [done|]. intros ok. left.
    unfold RoomManager.saveRoomState_mkdir.
    by destruct (if ok then _ else _).
  - split; [done|]. intros [|]; by left.
Qed.

(** ** The gateway *)

Lemma getUsers_fst (roomId : string) (w : World.t) :
  (RoomManager.getUsers roomId w).1
  = match World.rooms w !! roomId with
    | Some room => World.users room
    | None => ∅
    end.
Proof.
  unfold RoomManager.getUsers. by destruct (World.rooms w !! roomId).
Qed.

Lemma connected_inv_kept (w w' : World.t) :
  World.sockets w' = World.sockets w →
  (∀ roomId, (RoomManager.getUsers roomId w').1
             = (RoomManager.getUsers roomId w).1) →
  connected_inv w → connected_inv w'.
Proof.
  intros Hs Hu Hinv p s. rewrite Hs, Hu. apply Hinv.
Qed.

Lemma keeps_connected_inv {A : Type} (m : World.M A) (w : World.t) :
  keeps_presence m → connected_inv w → connected_inv (World.exec m w).
Proof.
  intros Hm. destruct (Hm w) as (_ & Hs & Hu). by apply connected_inv_kept.
Qed.

Lemma connected_inv_connect (w : World.t) (socket_id : string)
    (query_roomId query_userName : option string) (pick : nat) :
  connected_inv w →
  connected_inv
    (World.exec (Server.connection socket_id query_roomId query_userName pick) w).
Proof.
  intros Hinv.
  destruct (connection_effect w socket_id query_roomId query_userName pick)
    as (Hs & _ & Hr).
  set (w' := World.exec _ w) in *. set (r0 := JS.str_or query_roomId "main") in *.
  intros p s. rewrite Hs, getUsers_fst, Hr.
  destruct (decide (socket_id = p)) as [<-|Hne].
  - rewrite lookup_insert_eq. intros [= <-]. simpl.
    rewrite lookup_insert_eq. simpl. rewrite lookup_insert_eq. eauto.
  - rewrite lookup_insert_ne by done. intros Hsock.
    destruct (Hinv p s Hsock) as (u & Hu & Hid). exists u. split; [|done].
    destruct (decide (r0 = World.roomId s)) as [Heq|Hr0].
    + rewrite <- Heq in *. rewrite lookup_insert_eq. simpl.
      by rewrite lookup_insert_ne.
    + rewrite lookup_insert_ne by done. by rewrite <- getUsers_fst.
Qed.

Lemma connected_inv_disconnect (w : World.t) (socket_id : string) :
  connected_inv w →
  connected_inv (Server.step (Server.Disconnect socket_id) w).
Proof.
  intros Hinv.
  destruct (World.sockets w !! socket_id) as [s0|] eqn:Hsock; cycle 1.
  { unfold Server.step, World.exec, Server.handle, Server.of_socket.
    by rewrite Hsock. }
  destruct (disconnect_effect w socket_id s0 Hsock) as (Hs & _ & Hr).
  set (w' := Server.step _ w) in *.
  intros p s. rewrite Hs, getUsers_fst.
  destruct (decide (socket_id = p)) as [<-|Hne].
  { by rewrite lookup_delete_eq. }
  rewrite lookup_delete_ne by done. intros Hp.
  destruct (Hinv p s Hp) as (u & Hu & Hid). exists u. split; [|done].
  rewrite getUsers_fst in Hu.
  destruct Hr as [-> | ->]; [done|].
  destruct (decide (World.roomId s0 = World.roomId s)) as [Heq|Hrm].
  - rewrite Heq, lookup_alter_eq.
    destruct (World.rooms w !! World.roomId s) as [room|]; simpl in *; [|done].
    by rewrite lookup_delete_ne.
  - by rewrite lookup_alter_ne.
Qed.

Lemma reachable_connected_inv (w : World.t) :
  Server.reachable w → connected_inv w.
Proof.
  induction 1 as [files|e w Hreach IH|w Hreach IH]; [by intros p s| |by intros p s].
  destruct e as [sid qr qn pick|sid data now rand|sid data now|sid now
                |sid now|sid|sid|i ok].
  - unfold Server.step, World.exec, Server.handle.
    destruct (World.sockets w !! sid) eqn:Hsock; [done|].
    by apply connected_inv_connect.
  - unfold Server.step, Server.handle, Server.of_socket, World.exec.
    destruct (World.sockets w !! sid); [|done].
    apply keeps_connected_inv; [apply keeps_presence_on_drawing|done].
  - unfold Server.step, Server.handle, Server.of_socket, World.exec.
    destruct (World.sockets w !! sid); [|done].
    apply keeps_connected_inv; [apply keeps_presence_on_drawingSegment|done].
  - unfold Server.step, Server.handle, Server.of_socket, World.exec.
    destruct (World.sockets w !! sid); [|done].
    apply keeps_connected_inv; [apply keeps_presence_on_undo|done].
  - unfold Server.step, Server.handle, Server.of_socket, World.exec.
    destruct (World.sockets w !! sid); [|done].
    apply keeps_connected_inv; [apply keeps_presence_on_redo|done].
  - unfold Server.step, Server.handle, Server.of_socket, World.exec.
    destruct (World.sockets w !! sid); [|done].
    apply keeps_connected_inv; [apply keeps_presence_on_clear|done].
  - by apply connected_inv_disconnect.
  - unfold Server.step, Server.handle, World.exec.
    destruct (World.tasks w !! i) as [k|]; [|done].
    apply keeps_connected_inv; [apply keeps_presence_settle|].
    apply (keeps_connected_inv (World.modify (World.with_tasks (delete i))) w);
      [by apply keeps_presence_same_rooms|done].
Qed.

(** X11. In every state the server can be in, the participants of a room
    are exactly the connected sockets whose handlers are bound to that
    room, each under its own id, and each of them is in the socket.io room
    of that name. *)
Theorem participants_are_the_connected_sockets (w : World.t)
    (roomId p : string) :
  Server.reachable w →
  (p ∈ participants roomId w ↔
   World.roomId <$> World.sockets w !! p = Some roomId) ∧
  (p ∈ participants roomId w → p ∈ Server.members roomId w) ∧
  (∀ u : World.User,
     (RoomManager.getUsers roomId w).1 !! p = Some u → World.id u = p).
Proof.
  intros Hreach.
  pose proof (reachable_presence_inv w Hreach) as Hpres.
  pose proof (reachable_connected_inv w Hreach) as Hconn.
  split; [split|split].
  - intros Hp. by apply Hpres.
  - destruct (World.sockets w !! p) as [s|] eqn:Hs; [|done].
    simpl. intros [= <-]. destruct (Hconn p s Hs) as (u & Hu & _).
    apply elem_of_dom. eauto.
  - intros Hp. by apply Hpres.
  - intros u Hu.
    assert (Hp : p ∈ participants roomId w) by (apply elem_of_dom; eauto).
    destruct (Hpres _ _ Hp) as [_ Hsock].
    destruct (World.sockets w !! p) as [s|] eqn:Hs; [|done].
    simpl in Hsock. injection Hsock as <-.
    destruct (Hconn p s Hs) as (u' & Hu' & Hid). congruence.
Qed.

Lemma participants_are_the_connected_sockets_witness :
  let w := Server.run [ Server.Connect "a" None None 0;
                        Server.Connect "b" (Some "other") None 1;
                        Server.Disconnect "a" ] (World.init ∅) in
  ("b" ∈ participants "other" w ↔
   World.roomId <$> World.sockets w !! "b" = Some "other") ∧
  ("b" ∈ participants "other" w → "b" ∈ Server.members "other" w) ∧
  (∀ u : World.User,
     (RoomManager.getUsers "other" w).1 !! "b" = Some u → World.id u = "b").
Proof.
  intros w. apply (participants_are_the_connected_sockets w "other" "b").
  apply Server.reachable_step, Server.reachable_step, Server.reachable_step,
    Server.reachable_init.
Defined.

Lemma on_drawing_sent (w : World.t) (socket_id roomId : string)
    (room : World.Room) (data : JS.val) (now : Z) (rand : string) :
  World.rooms w !! roomId = Some room →
  JS.nullish data = false →
  let stroke :=
    Server.canonicalStroke socket_id (World.users room !! socket_id)
      data now rand in
  World.sent (World.exec (Server.on_drawing socket_id roomId data now rand) w)
  = World.sent w
    ++ [ {| World.to := Server.members roomId w;
            World.what := World.drawing stroke |};
         {| World.to := Server.members roomId w;
            World.what :=
              World.state
                (JS.Arr (JS.push (DrawingState.strokes (World.drawingState room))
                           stroke))
                (Some now) |} ].
Proof.
  intros Hroom Hdata stroke. subst stroke.
  unfold World.exec, Server.on_drawing, RoomManager.onDrawingState,
    RoomManager.getDrawingState, RoomManager.getOrCreateRoom,
    RoomManager.getUsers, RoomManager.saveRoomState, Server.io_in_emit,
    Server.members, World.bind, World.modify, World.ret.
  rewrite Hdata. simpl.
  repeat (first [ rewrite Hroom | rewrite lookup_alter_eq ]; simpl).
  by rewrite <- app_assoc.
Qed.

(** X12. A completed stroke from a connected socket, with a payload that
    is not [null] or [undefined]: the server appends one canonical stroke
    to the tail of the room's log. Its author is the socket and its layer
    the one the server gave that socket, whatever the payload says; colour,
    width and points are the payload's; the timestamp is the payload's or,
    when missing or zero, the server's clock. The stroke and then the whole
    new log are sent to everyone in the room, the sender included.  On a
    payload that is [null] or [undefined] the handler throws before any of
    this: the log, the pending saves and what was sent stay as they are. *)
Theorem drawing_is_canonical_and_broadcast (w : World.t) (socket_id : string)
    (s : World.Socket) (data : JS.val) (now : Z) (rand : string) :
  Server.reachable w →
  World.sockets w !! socket_id = Some s →
  let roomId := World.roomId s in
  let w1 := Server.step (Server.Drawing socket_id data now rand) w in
  if JS.nullish data then w1 = w
  else
    ∃ (n : nat) (log : list JS.val) (stroke : JS.val),
      layer_of roomId socket_id w = Some n ∧
      log_of roomId w = Some log ∧
      log_of roomId w1 = Some (log ++ [stroke]) ∧
      JS.get "userId" stroke = JS.Str socket_id ∧
      JS.get "layer" stroke = JS.Num (Z.of_nat n) ∧
      JS.get "timestamp" stroke
      = JS.or (JS.get "timestamp" data) (JS.Num now) ∧
      JS.get "color" stroke = JS.get "color" data ∧
      JS.get "lineWidth" stroke = JS.get "lineWidth" data ∧
      JS.get "points" stroke = JS.get "points" data ∧
      World.sent w1
      = World.sent w
        ++ [ {| World.to := Server.members roomId w;
                World.what := World.drawing stroke |};
             {| World.to := Server.members roomId w;
                World.what :=
                  World.state (JS.Arr (log ++ [stroke])) (Some now) |} ] ∧
      socket_id ∈ Server.members roomId w.
Proof.
  intros Hreach Hsock roomId w1.
  destruct (reachable_connected_inv w Hreach _ _ Hsock) as (u & Hu & Hid).
  fold roomId in Hu. rewrite getUsers_fst in Hu.
  destruct (World.rooms w !! roomId) as [room|] eqn:Hroom; [|done].
  assert (Hw1 : w1 = World.exec
                       (Server.on_drawing socket_id roomId data now rand) w).
  { subst w1. unfold Server.step, Server.handle, Server.of_socket, World.exec.
    by rewrite Hsock. }
  destruct (JS.nullish data) eqn:Hdata.
  { rewrite Hw1.
    unfold World.exec, Server.on_drawing, RoomManager.getDrawingState,
      RoomManager.getOrCreateRoom, RoomManager.getUsers, World.bind, World.ret.
    rewrite Hroom. simpl. by rewrite ?Hroom, Hdata. }
  destruct (on_drawing_effect w socket_id roomId room data now rand Hroom Hdata)
    as (Hrooms & _).
  pose proof (on_drawing_sent w socket_id roomId room data now rand Hroom Hdata)
    as Hsent.
  rewrite <- Hw1 in Hrooms, Hsent. rewrite Hu in Hrooms, Hsent.
  exists (World.layer u), (DrawingState.strokes (World.drawingState room)),
    (Server.canonicalStroke socket_id (Some u) data now rand).
  split; [unfold layer_of; by rewrite Hroom, Hu|].
  split; [unfold log_of; by rewrite Hroom|].
  split.
  { unfold log_of. rewrite Hrooms, lookup_alter_eq, Hroom. done. }
  do 6 (split; [done|]). split; [done|].
  assert (Hp : socket_id ∈ participants roomId w).
  { rewrite participants_unfold, Hroom. apply elem_of_dom. eauto. }
  by apply (reachable_presence_inv w Hreach).
Qed.

Lemma drawing_is_canonical_and_broadcast_witness :
  let w := Server.run [ Server.Connect "a" None None 0;
                        Server.Connect "b" None None 1 ] (World.init ∅) in
  let data := JS.Obj [("userId", JS.Str "a"); ("layer", JS.Num 7);
                      ("color", JS.Str "#000000"); ("lineWidth", JS.Num 5);
                      ("points", JS.Arr [])] in
  ∃ stroke : JS.val,
    log_of "main" (Server.step (Server.Drawing "b" data 9 "x") w)
    = Some [stroke] ∧
    JS.get "userId" stroke = JS.Str "b" ∧
    JS.get "layer" stroke = JS.Num 1.
Proof.
  intros w data.
  pose proof (drawing_is_canonical_and_broadcast w "b"
                {| World.roomId := "main"; World.userName := "User_b";
                   World.userColorOf := "#4ECDC4" |} data 9 "x") as Hthm.
  destruct Hthm
    as (n & log & stroke & Hn & Hlog & Hlog1 & Huser & Hlayer & _).
  - apply Server.reachable_step, Server.reachable_step, Server.reachable_init.
  - vm_compute. reflexivity.
  - exists stroke.
    assert (n = 1%nat) as -> by (vm_compute in Hn; congruence).
    assert (log = []) as -> by (vm_compute in Hlog; congruence).
    done.
Defined.

(** What the ['undo'] handler does when the log is not empty. *)
Lemma on_undo_effect (w : World.t) (socket_id roomId : string)
    (room : World.Room) (s : JS.val) (rest : list JS.val) (now : Z) :
  World.rooms w !! roomId = Some room →
  JS.pop (DrawingState.strokes (World.drawingState room)) = Some (s, rest) →
  let d' := DrawingState.mk rest
              (JS.push (DrawingState.undoStack (World.drawingState room)) s) in
  let w1 := World.exec (Server.on_undo socket_id roomId now) w in
  World.rooms w1
  = alter (World.with_drawingState (fun _ => d')) roomId (World.rooms w) ∧
  World.joined w1 = World.joined w ∧
  World.sockets w1 = World.sockets w ∧
  World.disk w1 = World.disk w ∧
  if JS.truthy s then
    World.sent w1
    = World.sent w
      ++ [ {| World.to := Server.members roomId w;
              World.what := World.undo socket_id (JS.get "id" s)
                              (JS.get "userId" s) |};
           {| World.to := Server.members roomId w;
              World.what := World.state (JS.Arr rest) (Some now) |} ] ∧
    World.tasks w1 = World.tasks w ++ [World.SaveMkdir roomId]
  else
    World.sent w1
    = World.sent w
      ++ [ {| World.to := {[socket_id]};
              World.what := World.undoFailed "No strokes to undo" |} ] ∧
    World.tasks w1 = World.tasks w.
Proof.
  intros Hroom Hpop d' w1. subst w1 d'.
  unfold World.exec, Server.on_undo, RoomManager.onDrawingState,
    RoomManager.getDrawingState, RoomManager.getOrCreateRoom,
    RoomManager.saveRoomState, DrawingState.undoLastStroke,
    Server.io_in_emit, Server.socket_emit, Server.members,
    World.bind, World.modify, World.ret.
  rewrite Hroom. simpl. rewrite Hpop. simpl.
  destruct (JS.truthy s); simpl;
    repeat (first [ rewrite Hroom | rewrite lookup_alter_eq ]; simpl);
    [|done].
  by rewrite <- app_assoc.
Qed.

(** X13. Undo is global: when one participant has drawn a stroke (the
    payload of the ['drawing'] event not being [null] or [undefined], on
    which nothing is drawn), an undo asked by any participant of the room,
    the author or another, takes that stroke off the log and puts it on
    the redo stack. Everyone in the room is sent the undo, which names the
    asker and the author, and then the log as it was before the stroke. *)
Theorem undo_is_global (w : World.t) (author asker : string)
    (sa sb : World.Socket) (data : JS.val) (now : Z) (rand : string)
    (now' : Z) :
  Server.reachable w →
  World.sockets w !! author = Some sa →
  World.sockets w !! asker = Some sb →
  World.roomId sa = World.roomId sb →
  JS.nullish data = false →
  let roomId := World.roomId sa in
  let w1 := Server.step (Server.Drawing author data now rand) w in
  let w2 := Server.step (Server.Undo asker now') w1 in
  ∃ (log : list JS.val) (stroke : JS.val) (d2 : DrawingState.t),
    log_of roomId w = Some log ∧
    log_of roomId w1 = Some (log ++ [stroke]) ∧
    World.drawingState <$> World.rooms w2 !! roomId = Some d2 ∧
    DrawingState.strokes d2 = log ∧
    DrawingState.undoStack d2 = [stroke] ∧
    World.sent w2
    = World.sent w1
      ++ [ {| World.to := Server.members roomId w;
              World.what := World.undo asker (JS.get "id" stroke)
                              (JS.Str author) |};
           {| World.to := Server.members roomId w;
              World.what := World.state (JS.Arr log) (Some now') |} ] ∧
    asker ∈ Server.members roomId w ∧ author ∈ Server.members roomId w.
Proof.
  intros Hreach Ha Hb Hsame Hdata roomId w1 w2.
  destruct (reachable_connected_inv w Hreach _ _ Ha) as (u & Hu & _).
  fold roomId in Hu. rewrite getUsers_fst in Hu.
  destruct (World.rooms w !! roomId) as [room|] eqn:Hroom; [|done].
  assert (Hw1 : w1 = World.exec
                       (Server.on_drawing author roomId data now rand) w).
  { subst w1. unfold Server.step, Server.handle, Server.of_socket, World.exec.
    by rewrite Ha. }
  destruct (on_drawing_effect w author roomId room data now rand Hroom Hdata)
    as (Hrooms1 & _ & _ & Hjoined1 & Hsockets1).
  rewrite <- Hw1 in Hrooms1, Hjoined1, Hsockets1. rewrite Hu in Hrooms1.
  set (stroke := Server.canonicalStroke author (Some u) data now rand) in *.
  set (d1 := (DrawingState.addStroke stroke (World.drawingState room)).2) in *.
  assert (Hroom1 : World.rooms w1 !! roomId
                   = Some (World.with_drawingState (fun _ => d1) room))
    by (by rewrite Hrooms1, lookup_alter_eq, Hroom).
  assert (Hw2 : w2 = World.exec (Server.on_undo asker roomId now') w1).
  { subst w2. unfold Server.step, Server.handle, Server.of_socket, World.exec.
    rewrite Hsockets1, Hb. by rewrite <- Hsame. }
  destruct (on_undo_effect w1 asker roomId _ stroke
              (DrawingState.strokes (World.drawingState room)) now' Hroom1)
    as (Hrooms2 & _ & _ & _ & Hsent2 & _); [apply pop_push|].
  rewrite <- Hw2 in Hrooms2, Hsent2. simpl in Hrooms2, Hsent2.
  exists (DrawingState.strokes (World.drawingState room)), stroke.
  eexists. split; [unfold log_of; by rewrite Hroom|].
  split; [unfold log_of; by rewrite Hroom1|].
  split; [by rewrite Hrooms2, lookup_alter_eq, Hroom1|].
  split; [done|]. split; [done|]. split.
  { rewrite Hsent2. unfold Server.members. by rewrite Hjoined1. }
  pose proof (reachable_presence_inv w Hreach) as Hpres.
  split.
  - destruct (reachable_connected_inv w Hreach _ _ Hb) as (ub & Hub & _).
    rewrite <- Hsame in Hub. fold roomId in Hub.
    apply (Hpres roomId asker). apply elem_of_dom. eauto.
  - apply (Hpres roomId author). rewrite participants_unfold, Hroom.
    apply elem_of_dom. eauto.
Qed.

Lemma undo_is_global_witness :
  let w := Server.run [ Server.Connect "a" None None 0;
                        Server.Connect "b" None None 1 ] (World.init ∅) in
  let w1 := Server.step (Server.Drawing "a" (JS.Obj []) 5 "r") w in
  let w2 := Server.step (Server.Undo "b" 6) w1 in
  log_of "main" w2 = Some [] ∧
  ∃ stroke : JS.val,
    World.sent w2
    = World.sent w1
      ++ [ {| World.to := Server.members "main" w;
              World.what := World.undo "b" (JS.get "id" stroke) (JS.Str "a") |};
           {| World.to := Server.members "main" w;
              World.what := World.state (JS.Arr []) (Some 6) |} ].
Proof.
  intros w w1 w2.
  destruct (undo_is_global w "a" "b"
              {| World.roomId := "main"; World.userName := "User_a";
                 World.userColorOf := "#FF6B6B" |}
              {| World.roomId := "main"; World.userName := "User_b";
                 World.userColorOf := "#4ECDC4" |}
              (JS.Obj []) 5 "r" 6)
    as (log & stroke & d2 & Hlog & _ & Hd2 & Hstrokes & _ & Hsent & _).
  - apply Server.reachable_step, Server.reachable_step, Server.reachable_init.
  - vm_compute. reflexivity.
  - vm_compute. reflexivity.
  - reflexivity.
  - reflexivity.
  - assert (log = []) as -> by (vm_compute in Hlog; congruence).
    split; [|by exists stroke].
    apply (log_of_drawingState w2 "main" d2) in Hd2. by rewrite Hd2, Hstrokes.
Defined.

(** X14. An undo on a log whose last entry is a falsy value, as a
    hydrated file may hold one, takes the entry off the log all the same,
    but is answered as if there had been nothing to undo: only the asker is
    told, no new state is sent to the room and no save is started. *)
Theorem undo_of_a_falsy_entry (w : World.t) (socket_id : string)
    (s : World.Socket) (room : World.Room) (entry : JS.val)
    (rest : list JS.val) (now : Z) :
  World.sockets w !! socket_id = Some s →
  World.rooms w !! World.roomId s = Some room →
  DrawingState.strokes (World.drawingState room) = JS.push rest entry →
  JS.truthy entry = false →
  let w1 := Server.step (Server.Undo socket_id now) w in
  log_of (World.roomId s) w1 = Some rest ∧
  World.sent w1
  = World.sent w
    ++ [ {| World.to := {[socket_id]};
            World.what := World.undoFailed "No strokes to undo" |} ] ∧
  World.tasks w1 = World.tasks w.
Proof.
  intros Hsock Hroom Hlog Hfalsy w1.
  assert (Hw1 : w1 = World.exec
                       (Server.on_undo socket_id (World.roomId s) now) w).
  { subst w1. unfold Server.step, Server.handle, Server.of_socket, World.exec.
    by rewrite Hsock. }
  destruct (on_undo_effect w socket_id (World.roomId s) room entry rest now
              Hroom) as (Hrooms & _ & _ & _ & Hsent);
    [rewrite Hlog; apply pop_push|].
  rewrite Hfalsy in Hsent. rewrite <- Hw1 in Hrooms, Hsent.
  split; [|done]. unfold log_of. by rewrite Hrooms, lookup_alter_eq, Hroom.
Qed.

Lemma undo_of_a_falsy_entry_witness :
  let files : gmap string JSON.file :=
    {[ RoomManager.filePath "main"
       := JSON.Parses (JS.Obj [("strokes", JS.Arr [JS.Null])]) ]} in
  let w := Server.run [Server.Connect "a" None None 0; Server.Settle 0 true]
             (World.init files) in
  log_of "main" w = Some [JS.Null] ∧
  log_of "main" (Server.step (Server.Undo "a" 3) w) = Some [] ∧
  World.sent (Server.step (Server.Undo "a" 3) w)
  = World.sent w
    ++ [ {| World.to := {["a"]};
            World.what := World.undoFailed "No strokes to undo" |} ].
Proof.
  intros files w. split; [by vm_compute|].
  destruct (undo_of_a_falsy_entry w "a"
              {| World.roomId := "main"; World.userName := "User_a";
                 World.userColorOf := "#FF6B6B" |}
              {| World.users :=
                   {[ "a" := {| World.id := "a"; World.name := "User_a";
                                World.color := "#FF6B6B"; World.layer := 0 |} ]};
                 World.drawingState := DrawingState.mk [JS.Null] [] |}
              JS.Null [] 3) as (Hlog & Hsent & _).
  - vm_compute. reflexivity.
  - vm_compute. reflexivity.
  - reflexivity.
  - reflexivity.
  - by split.
Defined.

(** X15. A clear empties the log and the redo stack of the room, is
    announced by one [clear] event to everyone in the room, with no state
    snapshot, and starts a save; an undo or a redo that follows finds
    nothing and is answered to its asker alone. *)
Theorem clear_resets_the_room (w : World.t) (socket_id : string)
    (s : World.Socket) (room : World.Room) (now : Z) :
  World.sockets w !! socket_id = Some s →
  World.rooms w !! World.roomId s = Some room →
  let roomId := World.roomId s in
  let w1 := Server.step (Server.Clear socket_id) w in
  World.drawingState <$> World.rooms w1 !! roomId
  = Some (DrawingState.mk [] []) ∧
  World.sent w1
  = World.sent w ++ [ {| World.to := Server.members roomId w;
                         World.what := World.clear socket_id |} ] ∧
  World.tasks w1 = World.tasks w ++ [World.SaveMkdir roomId] ∧
  Server.step (Server.Undo socket_id now) w1
  = World.with_sent
      (fun l => l ++ [{| World.to := {[socket_id]};
                         World.what := World.undoFailed "No strokes to undo" |}])
      w1 ∧
  Server.step (Server.Redo socket_id now) w1
  = World.with_sent
      (fun l => l ++ [{| World.to := {[socket_id]};
                         World.what := World.redoFailed "No strokes to redo" |}])
      w1.
Proof.
  intros Hsock Hroom roomId w1.
  change (World.rooms w !! roomId = Some room) in Hroom.
  assert (Hw1 : w1 = World.with_sent
                       (fun l => l ++ [{| World.to := Server.members roomId w;
                                          World.what := World.clear socket_id |}])
                       (World.with_tasks
                          (fun ts => ts ++ [World.SaveMkdir roomId])
                          (World.with_rooms
                             (alter (World.with_drawingState
                                       (fun _ => DrawingState.mk [] []))
                                roomId) w))).
  { subst w1. unfold Server.step, Server.handle, Server.of_socket, World.exec.
    rewrite Hsock. fold roomId.
    unfold Server.on_clear, RoomManager.onDrawingState,
      RoomManager.getDrawingState, RoomManager.getOrCreateRoom,
      RoomManager.saveRoomState, Server.io_in_emit, Server.members,
      World.bind, World.modify, World.ret.
    rewrite Hroom. simpl. by rewrite lookup_alter_eq, Hroom. }
  assert (Hroom1 : World.rooms w1 !! roomId
                   = Some (World.with_drawingState
                             (fun _ => DrawingState.mk [] []) room))
    by (rewrite Hw1; simpl; by rewrite lookup_alter_eq, Hroom).
  assert (Hsock1 : World.sockets w1 !! socket_id = Some s)
    by (by rewrite Hw1).
  split; [by rewrite Hroom1|]. split; [by rewrite Hw1|].
  split; [by rewrite Hw1|].
  unfold Server.step, World.exec, Server.handle, Server.of_socket.
  rewrite Hsock1. fold roomId. unfold Server.on_undo, Server.on_redo, World.bind.
  by rewrite !(onDrawingState_unchanged w1 roomId _ _ JS.Null Hroom1).
Qed.

Lemma clear_resets_the_room_witness :
  let w := Server.run [ Server.Connect "a" None None 0;
                        Server.Drawing "a" (JS.Obj []) 5 "r";
                        Server.Drawing "a" (JS.Obj []) 6 "s";
                        Server.Undo "a" 7 ] (World.init ∅) in
  let w1 := Server.step (Server.Clear "a") w in
  World.drawingState <$> World.rooms w1 !! "main"
  = Some (DrawingState.mk [] []) ∧
  Server.step (Server.Redo "a" 8) w1
  = World.with_sent
      (fun l => l ++ [{| World.to := {["a"]};
                         World.what := World.redoFailed "No strokes to redo" |}])
      w1.
Proof.
  intros w w1.
  destruct (World.rooms w !! "main") as [room|] eqn:Hroom;
    [|vm_compute in Hroom; discriminate].
  destruct (clear_resets_the_room w "a"
              {| World.roomId := "main"; World.userName := "User_a";
                 World.userColorOf := "#FF6B6B" |} room 8)
    as (Hd & _ & _ & _ & Hredo).
  - vm_compute. reflexivity.
  - exact Hroom.
  - by split.
Defined.

(** X16. A connection sends five events, in this order: the roster of the
    room with the joiner in it, to everyone in the room, the joiner
    included; the room's log, to the joiner alone; [userJoined] with the
    joiner's name, colour and layer, to the others alone; the joiner's
    colour and again the roster, to the joiner alone. No log and no redo
    stack is changed by a connection. *)
Theorem join_announcements (w : World.t) (socket_id : string)
    (query_roomId query_userName : option string) (pick : nat) :
  World.sockets w !! socket_id = None →
  let roomId := JS.str_or query_roomId "main" in
  let userName :=
    JS.str_or query_userName ("User_" +:+ String.substring 0 6 socket_id) in
  let userColor := Server.generateUserColor pick in
  let before := (RoomManager.getUsers roomId w).1 in
  let roster :=
    <[socket_id := {| World.id := socket_id; World.name := userName;
                      World.color := userColor; World.layer := size before |}]>
      before in
  let log := default [] (log_of roomId w) in
  let w1 := Server.step
              (Server.Connect socket_id query_roomId query_userName pick) w in
  World.sent w1
  = World.sent w
    ++ [ {| World.to := {[socket_id]} ∪ Server.members roomId w;
            World.what := World.usersList roster |};
         {| World.to := {[socket_id]};
            World.what := World.state (JS.Arr log) None |};
         {| World.to := ({[socket_id]} ∪ Server.members roomId w) ∖ {[socket_id]};
            World.what := World.userJoined socket_id userName userColor
                            (size before) |};
         {| World.to := {[socket_id]};
            World.what := World.userColor userColor |};
         {| World.to := {[socket_id]};
            World.what := World.usersList roster |} ] ∧
  ∀ (r : string) (d : DrawingState.t),
    World.drawingState <$> World.rooms w !! r = Some d →
    World.drawingState <$> World.rooms w1 !! r = Some d.
Proof.
  intros Hfresh roomId userName userColor before roster log w1.
  split.
  - subst w1 roster before log.
    unfold Server.step, World.exec, Server.handle. rewrite Hfresh.
    unfold Server.connection. fold roomId userName userColor.
    unfold RoomManager.addUser, RoomManager.getDrawingState,
      RoomManager.getOrCreateRoom, RoomManager.getUsers, log_of,
      Server.socket_join, Server.io_in_emit, Server.socket_emit,
      Server.socket_to_emit, Server.members, DrawingState.getState,
      World.bind, World.modify, World.ret.
    simpl.
    destruct (World.rooms w !! roomId) as [room|] eqn:Hroom; simpl;
      repeat (first [ rewrite Hroom | rewrite lookup_alter_eq
                    | rewrite lookup_insert_eq ]; simpl);
      by rewrite <- !app_assoc.
  - intros r d Hd.
    assert (Hw1 : w1 = World.exec
                         (Server.connection socket_id query_roomId
                            query_userName pick) w).
    { subst w1. unfold Server.step, World.exec, Server.handle.
      by rewrite Hfresh. }
    destruct (connection_effect w socket_id query_roomId query_userName pick)
      as (_ & _ & Hrooms).
    rewrite <- Hw1 in Hrooms. rewrite Hrooms.
    destruct (decide (roomId = r)) as [<-|Hne].
    + rewrite lookup_insert_eq. simpl.
      unfold RoomManager.getDrawingState, RoomManager.getOrCreateRoom,
        World.bind, World.ret.
      subst roomId.
      destruct (World.rooms w !! JS.str_or query_roomId "main");
        by simplify_eq/=.
    + by rewrite lookup_insert_ne.
Qed.

Lemma join_announcements_witness :
  let w := Server.run [ Server.Connect "a" None None 0;
                        Server.Drawing "a" (JS.Obj []) 5 "r" ] (World.init ∅) in
  let w1 := Server.step (Server.Connect "b" None None 1) w in
  log_of "main" w1 = log_of "main" w ∧
  World.to <$> drop (length (World.sent w)) (World.sent w1)
  = [ {["b"; "a"]}; {["b"]}; {["a"]}; {["b"]}; {["b"]} ].
Proof.
  intros w w1.
  destruct (join_announcements w "b" None None 1) as [Hsent Hlogs];
    [by vm_compute|].
  split; [by vm_compute|].
  fold w1 in Hsent. rewrite Hsent, drop_app_length. by vm_compute.
Defined.

(** X17. A disconnection takes the socket out of its room: the
    participants are those from before without it, it is connected no
    more, and [userLeft] with its name and colour goes to the others in
    the room and not to it. No log or redo stack changes, and the others
    keep their layer indices. *)
Theorem disconnect_removes_the_participant (w : World.t) (socket_id : string)
    (s : World.Socket) :
  Server.reachable w →
  World.sockets w !! socket_id = Some s →
  let roomId := World.roomId s in
  let w1 := Server.step (Server.Disconnect socket_id) w in
  participants roomId w1 = participants roomId w ∖ {[socket_id]} ∧
  World.sockets w1 !! socket_id = None ∧
  (∃ u : World.User,
     (RoomManager.getUsers roomId w).1 !! socket_id = Some u ∧
     World.sent w1
     = World.sent w
       ++ [ {| World.to := Server.members roomId w ∖ {[socket_id]};
               World.what := World.userLeft socket_id (World.name u)
                               (World.color u) |} ]) ∧
  (∀ (r : string) (d : DrawingState.t),
     World.drawingState <$> World.rooms w !! r = Some d →
     World.drawingState <$> World.rooms w1 !! r = Some d) ∧
  (∀ r p : string, p ≠ socket_id → layer_of r p w1 = layer_of r p w).
Proof.
  intros Hreach Hsock roomId w1.
  destruct (reachable_connected_inv w Hreach _ _ Hsock) as (u & Hu & _).
  fold roomId in Hu. pose proof Hu as Hu0. rewrite getUsers_fst in Hu.
  destruct (World.rooms w !! roomId) as [room|] eqn:Hroom; [|done].
  assert (Hw1 : w1 = World.with_sockets (delete socket_id)
            (World.with_sent
               (fun l => l ++ [{| World.to := Server.members roomId w ∖ {[socket_id]};
                                  World.what := World.userLeft socket_id
                                                  (World.name u) (World.color u) |}])
               (World.with_rooms
                  (alter (World.with_users (delete socket_id)) roomId)
                  (World.with_joined (fmap (fun x => x ∖ {[socket_id]})) w)))).
  { subst w1. unfold Server.step, World.exec, Server.handle, Server.of_socket.
    rewrite Hsock. fold roomId.
    unfold Server.on_disconnect, Server.socket_leaveAll, RoomManager.removeUser,
      Server.socket_to_emit, Server.members, World.bind, World.modify,
      World.ret.
    simpl. rewrite Hroom, Hu. simpl.
    assert (Hto : default ∅
                    (((fun x : gset string => x ∖ {[socket_id]})
                      <$> World.joined w) !! roomId) ∖ {[socket_id]}
                  = default ∅ (World.joined w !! roomId) ∖ {[socket_id]}).
    { rewrite lookup_fmap.
      destruct (World.joined w !! roomId) as [x|]; simpl; [|done].
      apply set_eq. intros y. rewrite !elem_of_difference. tauto. }
    by rewrite Hto. }
  split; [|split; [|split; [|split]]].
  - rewrite !participants_unfold, Hw1. simpl.
    rewrite lookup_alter_eq, Hroom. simpl. apply dom_delete_L.
  - rewrite Hw1. simpl. apply lookup_delete_eq.
  - exists u. split; [done|]. by rewrite Hw1.
  - intros r d Hd. rewrite Hw1. simpl.
    destruct (decide (roomId = r)) as [<-|Hne].
    + rewrite lookup_alter_eq. by destruct (World.rooms w !! roomId).
    + by rewrite lookup_alter_ne.
  - intros r p Hne. unfold layer_of. rewrite Hw1. simpl.
    destruct (decide (roomId = r)) as [<-|Hr].
    + rewrite lookup_alter_eq, Hroom. simpl. by rewrite lookup_delete_ne.
    + by rewrite lookup_alter_ne.
Qed.

Lemma disconnect_removes_the_participant_witness :
  let w := Server.run [ Server.Connect "a" None None 0;
                        Server.Connect "b" None None 1;
                        Server.Connect "c" None None 2 ] (World.init ∅) in
  let w1 := Server.step (Server.Disconnect "a") w in
  participants "main" w1 = participants "main" w ∖ {["a"]} ∧
  layer_of "main" "c" w1 = Some 2%nat.
Proof.
  intros w w1.
  destruct (disconnect_removes_the_participant w "a"
              {| World.roomId := "main"; World.userName := "User_a";
                 World.userColorOf := "#FF6B6B" |})
    as (Hp & _ & _ & _ & Hlayers).
  - apply Server.reachable_step, Server.reachable_step, Server.reachable_step,
      Server.reachable_init.
  - vm_compute. reflexivity.
  - split; [exact Hp|]. fold w1 in Hlayers.
    rewrite (Hlayers "main" "c") by discriminate. by vm_compute.
Defined.

(** X18. The live segment relay is a pass-through: every field of the
    payload other than the five the server stamps arrives as it was sent;
    the client's timestamp is kept, and the server's clock is put in its
    place only when it is missing or zero; the layer is the sender's, when
    the sender is found in the room. A payload that is not an object or an
    array is dropped: nothing is sent and nothing changes. *)
Theorem segment_relay_is_a_pass_through (w : World.t) (socket_id : string)
    (s : World.Socket) (fields : list (string * JS.val)) (now : Z)
    (k : string) :
  World.sockets w !! socket_id = Some s →
  k ∉ ["layer"; "timestamp"; "serverTimestamp"; "userId"; "tool"] →
  (∃ (relayed : JS.val) (recipients : gset string),
     Server.step (Server.DrawingSegment socket_id (JS.Obj fields) now) w
     = World.with_sent
         (fun l => l ++ [{| World.to := recipients;
                            World.what := World.drawingSegment relayed |}]) w ∧
     JS.get k relayed = JS.get k (JS.Obj fields) ∧
     JS.get "timestamp" relayed
     = JS.or (JS.get "timestamp" (JS.Obj fields)) (JS.Num now) ∧
     JS.get "layer" relayed
     = match layer_of (World.roomId s) socket_id w with
       | Some n => JS.Num (Z.of_nat n)
       | None => JS.get "layer" (JS.Obj fields)
       end) ∧
  ∀ data : JS.val,
    match data with
    | JS.Obj _ | JS.Arr _ => True
    | _ => Server.step (Server.DrawingSegment socket_id data now) w = w
    end.
Proof.
  intros Hsock Hk.
  repeat (apply not_elem_of_cons in Hk as [? Hk]).
  split; cycle 1.
  { intros data. unfold Server.step, World.exec, Server.handle,
      Server.of_socket. rewrite Hsock. by destruct data. }
  unfold Server.step, World.exec, Server.handle, Server.of_socket.
  rewrite Hsock. unfold Server.on_drawingSegment, World.bind.
  destruct (RoomManager.getUsers (World.roomId s) w) as [us w0] eqn:Hus.
  assert (Hw0 : w0 = w ∧ us = (RoomManager.getUsers (World.roomId s) w).1)
    by (rewrite Hus; split; [|done]; unfold RoomManager.getUsers in Hus;
        destruct (World.rooms w !! World.roomId s); by injection Hus).
  destruct Hw0 as [-> Hus'].
  assert (Hlayer : layer_of (World.roomId s) socket_id w
                   = World.layer <$> us !! socket_id).
  { unfold layer_of. rewrite Hus', getUsers_fst.
    by destruct (World.rooms w !! World.roomId s). }
  set (data1 := match us !! socket_id with
                | Some user =>
                    JS.set "layer" (JS.Num (Z.of_nat (World.layer user))) fields
                | None => fields
                end).
  set (data2 := if negb (JS.truthy (JS.lookup_field "timestamp" data1))
                then JS.set "timestamp" (JS.Num now) data1 else data1).
  set (data3 := JS.set "userId" (JS.Str socket_id)
                  (JS.set "serverTimestamp" (JS.Num now) data2)).
  assert (Hf1 : ∀ k', k' ≠ "layer" →
                 JS.lookup_field k' data1 = JS.lookup_field k' fields).
  { intros k' Hk'. subst data1.
    destruct (us !! socket_id); by rewrite ?lookup_field_set_ne. }
  assert (Hf1l : JS.lookup_field "layer" data1
                = match us !! socket_id with
                  | Some user => JS.Num (Z.of_nat (World.layer user))
                  | None => JS.lookup_field "layer" fields
                  end).
  { subst data1. destruct (us !! socket_id); [|done].
    apply lookup_field_set_eq. }
  assert (Hf2 : ∀ k', k' ≠ "timestamp" →
                 JS.lookup_field k' data2 = JS.lookup_field k' data1).
  { intros k' Hk'. subst data2.
    destruct (negb _); by rewrite ?lookup_field_set_ne. }
  assert (Hf2t : JS.lookup_field "timestamp" data2
                = JS.or (JS.lookup_field "timestamp" fields) (JS.Num now)).
  { subst data2. unfold JS.or. rewrite <- (Hf1 "timestamp") by done.
    destruct (JS.truthy (JS.lookup_field "timestamp" data1)); simpl; [done|].
    apply lookup_field_set_eq. }
  assert (Hf3 : ∀ k', k' ≠ "userId" → k' ≠ "serverTimestamp" →
                 JS.lookup_field k' data3 = JS.lookup_field k' data2).
  { intros k' Hu Hst. subst data3. by rewrite !lookup_field_set_ne. }
  assert (Hf4 : ∀ k', k' ≠ "tool" →
                 JS.lookup_field k'
                   (if negb (JS.truthy (JS.lookup_field "tool" data3))
                    then JS.set "tool" (JS.Str "brush") data3 else data3)
                 = JS.lookup_field k' data3).
  { intros k' Hk'.
    destruct (negb (JS.truthy (JS.lookup_field "tool" data3)));
      by rewrite ?lookup_field_set_ne. }
  eexists _, _. split; [reflexivity|]. unfold JS.get.
  split; [|split].
  - by rewrite Hf4, Hf3, Hf2, Hf1.
  - by rewrite Hf4, Hf3, Hf2t.
  - rewrite Hf4, Hf3, Hf2, Hf1l, Hlayer by done. by destruct (us !! socket_id).
Qed.

Lemma segment_relay_is_a_pass_through_witness :
  let w := Server.run [ Server.Connect "a" None None 0;
                        Server.Connect "b" None None 1 ] (World.init ∅) in
  let fields := [("points", JS.Arr [JS.Num 1; JS.Num 2]);
                 ("timestamp", JS.Num 77); ("layer", JS.Num 9)] in
  ∃ (relayed : JS.val) (recipients : gset string),
    Server.step (Server.DrawingSegment "b" (JS.Obj fields) 100) w
    = World.with_sent
        (fun l => l ++ [{| World.to := recipients;
                           World.what := World.drawingSegment relayed |}]) w ∧
    JS.get "points" relayed = JS.Arr [JS.Num 1; JS.Num 2] ∧
    JS.get "timestamp" relayed = JS.Num 77 ∧
    JS.get "layer" relayed = JS.Num 1.
Proof.
  intros w fields.
  destruct (segment_relay_is_a_pass_through w "b"
              {| World.roomId := "main"; World.userName := "User_b";
                 World.userColorOf := "#4ECDC4" |} fields 100 "points")
    as [(relayed & recipients & Hstep & Hk & Ht & Hl) _].
  - vm_compute. reflexivity.
  - intros Hin. repeat (apply elem_of_cons in Hin as [Hin|Hin];
                        [discriminate|]).
    by apply elem_of_nil in Hin.
  - exists relayed, recipients. by repeat split.
Defined.

(** X19. The cursor relay: what is sent carries the sender's socket id as
    [userId], whatever the client put there, with the colour and the name
    the server holds for the sender, and every other field of the payload
    as it came; it goes to every participant of the room but the sender.
    The handler finds the sender in every state the server can be in; the
    colour ["#000000"] and the socket id as name stand in only for a sender
    that is not in the room. *)
Theorem cursor_relay (w : World.t) (socket_id : string) (s : World.Socket)
    (data : JS.val) (k : string) :
  Server.reachable w →
  World.sockets w !! socket_id = Some s →
  k ∉ ["userId"; "color"; "name"] →
  let roomId := World.roomId s in
  let recipients := (Relay.on_cursorMove socket_id roomId data w).1 in
  let payload := (Relay.on_cursorMove socket_id roomId data w).2 in
  (∃ u : World.User,
     (RoomManager.getUsers roomId w).1 !! socket_id = Some u ∧
     JS.get "color" payload = JS.Str (World.color u) ∧
     JS.get "name" payload = JS.Str (World.name u)) ∧
  JS.get "userId" payload = JS.Str socket_id ∧
  JS.get k payload = JS.lookup_field k (Relay.spread data) ∧
  (socket_id ∉ recipients) ∧
  (∀ p : string, p ∈ participants roomId w → p ≠ socket_id → p ∈ recipients) ∧
  ∀ w0 : World.t,
    (RoomManager.getUsers roomId w0).1 !! socket_id = None →
    JS.get "color" (Relay.on_cursorMove socket_id roomId data w0).2
    = JS.Str "#000000" ∧
    JS.get "name" (Relay.on_cursorMove socket_id roomId data w0).2
    = JS.Str socket_id.
Proof.
  intros Hreach Hsock Hk roomId recipients payload.
  repeat (apply not_elem_of_cons in Hk as [? Hk]).
  destruct (reachable_connected_inv w Hreach _ _ Hsock) as (u & Hu & _).
  fold roomId in Hu.
  subst recipients payload. unfold Relay.on_cursorMove, JS.get. simpl.
  split; [|split; [|split; [|split; [|split]]]].
  - exists u. split; [done|]. rewrite Hu.
    split; [rewrite lookup_field_set_ne by done|]; apply lookup_field_set_eq.
  - rewrite !lookup_field_set_ne by done. apply lookup_field_set_eq.
  - by rewrite !lookup_field_set_ne.
  - intros [_ Hself]%elem_of_difference. apply Hself.
    by apply elem_of_singleton.
  - intros p Hp Hne.
    destruct (reachable_presence_inv w Hreach _ _ Hp) as [Hmem _].
    apply elem_of_difference. split; [done|].
    by intros ->%elem_of_singleton.
  - intros w0 Hnone. rewrite Hnone.
    split; [rewrite lookup_field_set_ne by done|]; apply lookup_field_set_eq.
Qed.

Lemma cursor_relay_witness :
  let w := Server.run [ Server.Connect "a" None (Some "Ann") 0;
                        Server.Connect "b" None None 1 ] (World.init ∅) in
  let data := JS.Obj [("userId", JS.Str "b"); ("x", JS.Num 10);
                      ("y", JS.Num 20)] in
  let payload := (Relay.on_cursorMove "a" "main" data w).2 in
  JS.get "userId" payload = JS.Str "a" ∧
  JS.get "x" payload = JS.Num 10 ∧
  "b" ∈ (Relay.on_cursorMove "a" "main" data w).1.
Proof.
  intros w data payload.
  destruct (cursor_relay w "a"
              {| World.roomId := "main"; World.userName := "Ann";
                 World.userColorOf := "#FF6B6B" |} data "x")
    as (_ & Hid & Hx & _ & Hothers & _).
  - apply Server.reachable_step, Server.reachable_step, Server.reachable_init.
  - vm_compute. reflexivity.
  - intros Hin. repeat (apply elem_of_cons in Hin as [Hin|Hin];
                        [discriminate|]).
    by apply elem_of_nil in Hin.
  - split; [exact Hid|]. split; [exact Hx|].
    apply Hothers; [|discriminate].
    rewrite participants_unfold. apply elem_of_dom. vm_compute. eauto.
Defined.

(** ** The client: remote segments *)

(** X20. A remote segment touches the layer of its author and no other:
    every layer that exists stays, the layer of any other author is left as
    it was, the author's layer only gains what is painted, and a gate that
    holds an accepted (non-zero) timestamp never moves back.  The queue of
    completed strokes is not touched. *)
Theorem segment_touches_one_layer (seg : Client.Segment) (now : Z)
    (c : Client.t) (v : string) (ld : Client.LayerData) :
  Client.userLayers c !! v = Some ld →
  let c' := Client.drawSegment seg now c in
  (∃ ld' : Client.LayerData,
     Client.userLayers c' !! v = Some ld' ∧
     (∃ more, Client.canvas ld' = Client.canvas ld ++ more) ∧
     (Client.lastTimestamp ld ≠ 0 →
      Client.lastTimestamp ld ≤ Client.lastTimestamp ld') ∧
     (v ≠ JS.str_or (Client.seg_userId seg) (Client.currentSocketId c) →
      ld' = ld)) ∧
  Client.incomingStrokes c' = Client.incomingStrokes c.
Proof.
  intros Hv c'. subst c'. unfold Client.drawSegment.
  set (author := JS.str_or (Client.seg_userId seg) (Client.currentSocketId c)).
  assert (Hsame : ∃ ld' : Client.LayerData,
            Client.userLayers c !! v = Some ld' ∧
            (∃ more, Client.canvas ld' = Client.canvas ld ++ more) ∧
            (Client.lastTimestamp ld ≠ 0 →
             Client.lastTimestamp ld ≤ Client.lastTimestamp ld') ∧
            (v ≠ author → ld' = ld)).
  { exists ld. split; [done|]. split; [by exists []; rewrite app_nil_r|].
    split; [lia|done]. }
  destruct (String.eqb author (Client.currentSocketId c)); [done|].
  unfold Client.getUserLayer.
  destruct (Client.userLayers c !! author) as [layerData|] eqn:Hauthor.
  - destruct (negb (Client.lastTimestamp layerData =? 0)
              && (JS.num_or (Client.seg_timestamp seg) now
                  <? Client.lastTimestamp layerData)) eqn:Hgate; [done|].
    assert (Hlayers : ∀ c0 : Client.t,
              Client.userLayers c0 = <[author := {|
                 Client.canvas := Client.canvas layerData
                   ++ [paint_of_segment seg (Client.penWidth c)];
                 Client.lastUpdate := now;
                 Client.lastTimestamp :=
                   JS.num_or (Client.seg_timestamp seg) now |}]>
                (Client.userLayers c) →
              ∃ ld' : Client.LayerData,
                Client.userLayers c0 !! v = Some ld' ∧
                (∃ more, Client.canvas ld' = Client.canvas ld ++ more) ∧
                (Client.lastTimestamp ld ≠ 0 →
                 Client.lastTimestamp ld ≤ Client.lastTimestamp ld') ∧
                (v ≠ author → ld' = ld)).
    { intros c0 ->. destruct (decide (v = author)) as [->|Hne].
      - rewrite lookup_insert_eq. eexists. split; [done|].
        assert (layerData = ld) as -> by congruence.
        split; [by eexists|]. split; [|done]. simpl. intros Hnz.
        apply andb_false_iff in Hgate as [Hz|Hlt].
        + apply negb_false_iff, Z.eqb_eq in Hz. done.
        + by apply Z.ltb_ge in Hlt.
      - rewrite lookup_insert_ne by done. exists ld.
        split; [done|]. split; [by exists []; rewrite app_nil_r|].
        split; [lia|done]. }
    destruct (match Client.seg_tool seg with
              | Some tool => String.eqb tool "eraser"
              | None => false
              end) eqn:Htool; (split; [by apply Hlayers; unfold paint_of_segment;
                                          rewrite Htool|done]).
  - destruct (Client.container c) eqn:Hcont; [|done].
    simpl.
    assert (Hne : v ≠ author) by (intros ->; congruence).
    assert (Hlayers : ∀ x y : Client.LayerData,
              ∃ ld' : Client.LayerData,
                <[author := x]> (<[author := y]> (Client.userLayers c)) !! v
                = Some ld' ∧
                (∃ more, Client.canvas ld' = Client.canvas ld ++ more) ∧
                (Client.lastTimestamp ld ≠ 0 →
                 Client.lastTimestamp ld ≤ Client.lastTimestamp ld') ∧
                (v ≠ author → ld' = ld)).
    { intros x y. rewrite !lookup_insert_ne by done. exists ld.
      split; [done|]. split; [by exists []; rewrite app_nil_r|].
      split; [lia|done]. }
    destruct (match Client.seg_tool seg with
              | Some tool => String.eqb tool "eraser"
              | None => false
              end); (split; [apply Hlayers|done]).
Qed.

Lemma segment_touches_one_layer_witness :
  let c := Client.with_userLayers
             <["a" := {| Client.canvas := []; Client.lastUpdate := 1;
                         Client.lastTimestamp := 100 |}]>
             (Client.new true "me") in
  let seg := {| Client.seg_userId := Some "b"; Client.seg_timestamp := Some 7;
                Client.seg_color := None; Client.seg_size := None;
                Client.seg_tool := None; Client.seg_points := None;
                Client.seg_x0 := None; Client.seg_y0 := None;
                Client.seg_x1 := None; Client.seg_y1 := None |} in
  Client.incomingStrokes (Client.drawSegment seg 9 c) = [].
Proof.
  intros c seg.
  apply (segment_touches_one_layer seg 9 c "a"
           {| Client.canvas := []; Client.lastUpdate := 1;
              Client.lastTimestamp := 100 |}).
  reflexivity.
Defined.

(** X21. Of the remote segments only the eraser's reach the main canvas.
    A segment that is taken is painted on the layer of its author, after
    what the layer held, and its timestamp becomes the gate; if its tool
    is ["eraser"], its stroke is in addition applied to the main canvas, in
    eraser mode, after what was painted there; if not, the main canvas is
    left as it is.  A segment that is not taken changes nothing.  The
    compositing mode of the main context is the same after as before. *)
Theorem main_canvas_takes_only_erasers (seg : Client.Segment) (now : Z)
    (c : Client.t) :
  let c' := Client.drawSegment seg now c in
  let author := JS.str_or (Client.seg_userId seg) (Client.currentSocketId c) in
  let erases := match Client.seg_tool seg with
                | Some tool => String.eqb tool "eraser"
                | None => false
                end in
  Client.ctx c'
  = Client.ctx c
    ++ (if is_accepted seg now c && erases
        then [paint_of_segment seg (Client.penWidth c)] else []) ∧
  Client.globalCompositeOperation c' = Client.globalCompositeOperation c ∧
  if is_accepted seg now c
  then Client.userLayers c' !! author
       = Some {| Client.canvas :=
                   match Client.userLayers c !! author with
                   | Some layerData => Client.canvas layerData
                   | None => []
                   end ++ [paint_of_segment seg (Client.penWidth c)];
                 Client.lastUpdate := now;
                 Client.lastTimestamp :=
                   JS.num_or (Client.seg_timestamp seg) now |}
  else c' = c.
Proof.
  intros c' author erases. subst c'.
  unfold Client.drawSegment, is_accepted, paint_of_segment. fold author erases.
  destruct (String.eqb author (Client.currentSocketId c)); cbn [negb andb].
  { by rewrite app_nil_r. }
  unfold Client.getUserLayer.
  destruct (Client.userLayers c !! author) as [layerData|] eqn:Hlayer.
  - destruct (Z.eqb_spec (Client.lastTimestamp layerData) 0) as [Hzero|Hset];
      cbn [negb andb orb].
    + destruct erases; cbn [andb app Client.ctx Client.with_ctx
                            Client.with_userLayers Client.userLayers
                            Client.globalCompositeOperation Client.penWidth];
        (split; [by rewrite ?app_nil_r|]); (split; [done|]);
        apply lookup_insert_eq.
    + destruct (Z.leb_spec (Client.lastTimestamp layerData)
                  (JS.num_or (Client.seg_timestamp seg) now)) as [Hle|Hlt].
      * assert ((JS.num_or (Client.seg_timestamp seg) now
                 <? Client.lastTimestamp layerData) = false) as ->
          by (apply Z.ltb_ge; lia).
        destruct erases; cbn [andb app Client.ctx Client.with_ctx
                              Client.with_userLayers Client.userLayers
                              Client.globalCompositeOperation Client.penWidth];
          (split; [by rewrite ?app_nil_r|]); (split; [done|]);
          apply lookup_insert_eq.
      * assert ((JS.num_or (Client.seg_timestamp seg) now
                 <? Client.lastTimestamp layerData) = true) as ->
          by (apply Z.ltb_lt; lia).
        cbn [andb]. by rewrite app_nil_r.
  - destruct (Client.container c) eqn:Hcont; cbn [andb].
    + cbn [Client.lastTimestamp Z.eqb negb andb Client.canvas app].
      destruct erases; cbn [andb app Client.ctx Client.with_ctx
                            Client.with_userLayers Client.userLayers
                            Client.globalCompositeOperation Client.penWidth];
        (split; [by rewrite ?app_nil_r|]); (split; [done|]);
        apply lookup_insert_eq.
    + by rewrite app_nil_r.
Qed.

(** X22. When a participant leaves, their layer goes and with it the gate:
    the next segment under that id is accepted whatever its timestamp, on a
    new layer that holds this segment alone and whose gate is the segment's
    timestamp.  Without a container there is no layer to paint on. *)
Theorem segment_after_leave (seg : Client.Segment) (now : Z) (c : Client.t) :
  let author := JS.str_or (Client.seg_userId seg) (Client.currentSocketId c) in
  author ≠ Client.currentSocketId c →
  Client.userLayers
    (Client.drawSegment seg now (Main.onUserLeft author c)) !! author
  = if Client.container c
    then Some {| Client.canvas := [paint_of_segment seg (Client.penWidth c)];
                 Client.lastUpdate := now;
                 Client.lastTimestamp :=
                   JS.num_or (Client.seg_timestamp seg) now |}
    else None.
Proof.
  intros author Hne.
  unfold Client.drawSegment, Main.onUserLeft, Client.clearUserLayer. simpl.
  fold author.
  apply String.eqb_neq in Hne. rewrite Hne.
  unfold Client.getUserLayer. simpl. rewrite lookup_delete_eq.
  destruct (Client.container c); simpl; [|apply lookup_delete_eq].
  unfold paint_of_segment.
  destruct (match Client.seg_tool seg with
            | Some tool => String.eqb tool "eraser"
            | None => false
            end); simpl; apply lookup_insert_eq.
Qed.

Lemma segment_after_leave_witness :
  let gate := {| Client.canvas := []; Client.lastUpdate := 1;
                 Client.lastTimestamp := 100 |} in
  let c := Client.with_userLayers <["b" := gate]> (Client.new true "me") in
  let seg := {| Client.seg_userId := Some "b"; Client.seg_timestamp := Some 7;
                Client.seg_color := None; Client.seg_size := None;
                Client.seg_tool := None; Client.seg_points := None;
                Client.seg_x0 := None; Client.seg_y0 := None;
                Client.seg_x1 := None; Client.seg_y1 := None |} in
  Client.drawSegment seg 9 c = c ∧
  Client.lastTimestamp <$>
    Client.userLayers (Client.drawSegment seg 9 (Main.onUserLeft "b" c)) !! "b"
  = Some 7.
Proof.
  intros gate c seg. split.
  - vm_compute. reflexivity.
  - change "b" with (JS.str_or (Client.seg_userId seg) (Client.currentSocketId c))
      at 1 2.
    rewrite (segment_after_leave seg 9 c); [reflexivity|].
    vm_compute. discriminate.
Defined.

(** ** The client: the queue of completed strokes *)

Lemma queue_le_total (a b : Client.Stroke) : queue_le a b ∨ queue_le b a.
Proof.
  unfold queue_le, Client.compareStrokes.
  destruct (Z.eqb_spec (JS.num_or (Client.timestamp a) 0)
              (JS.num_or (Client.timestamp b) 0)) as [Heq|Hne];
    destruct (Z.eqb_spec (JS.num_or (Client.timestamp b) 0)
                (JS.num_or (Client.timestamp a) 0)); simpl; lia.
Qed.

Lemma queue_le_trans (a b c : Client.Stroke) :
  queue_le a b → queue_le b c → queue_le a c.
Proof.
  unfold queue_le, Client.compareStrokes.
  destruct (Z.eqb_spec (JS.num_or (Client.timestamp a) 0)
              (JS.num_or (Client.timestamp b) 0));
    destruct (Z.eqb_spec (JS.num_or (Client.timestamp b) 0)
                (JS.num_or (Client.timestamp c) 0));
    destruct (Z.eqb_spec (JS.num_or (Client.timestamp a) 0)
                (JS.num_or (Client.timestamp c) 0)); simpl; lia.
Qed.

Lemma sort_insert_perm {A : Type} (compare : A → A → Z) (x : A) (l : list A) :
  Client.sort_insert compare x l ≡ₚ x :: l.
Proof.
  induction l as [|y l IH]; simpl; [done|].
  destruct (compare x y <=? 0); [done|].
  rewrite IH. apply Permutation_swap.
Qed.

Lemma sort_perm {A : Type} (compare : A → A → Z) (l : list A) :
  Client.sort compare l ≡ₚ l.
Proof.
  induction l as [|x l IH]; simpl; [done|].
  change (Client.sort_insert compare x (Client.sort compare l) ≡ₚ x :: l).
  by rewrite sort_insert_perm, IH.
Qed.

Lemma sort_insert_sorted (x : Client.Stroke) (l : list Client.Stroke) :
  StronglySorted queue_le l →
  StronglySorted queue_le (Client.sort_insert Client.compareStrokes x l).
Proof.
  induction 1 as [|y l Hl IH Hy]; simpl.
  - by repeat constructor.
  - destruct (Z.leb_spec (Client.compareStrokes x y) 0) as [Hle|Hgt].
    + constructor; [by constructor|].
      constructor; [done|].
      eapply Forall_impl; [exact Hy|].
      intros z Hz. by eapply queue_le_trans.
    + constructor; [done|].
      rewrite sort_insert_perm. constructor; [|done].
      destruct (queue_le_total x y) as [Hxy|Hyx]; [|done].
      unfold queue_le in Hxy. lia.
Qed.

Lemma sort_sorted (l : list Client.Stroke) :
  StronglySorted queue_le (Client.sort Client.compareStrokes l).
Proof.
  induction l as [|x l IH]; [constructor|].
  by apply sort_insert_sorted.
Qed.

(** Sorting what is sorted changes nothing. *)
Lemma sort_of_sorted (l : list Client.Stroke) :
  StronglySorted queue_le l → Client.sort Client.compareStrokes l = l.
Proof.
  induction 1 as [|x l Hl IH Hx]; [done|].
  change (Client.sort_insert Client.compareStrokes x
            (Client.sort Client.compareStrokes l) = x :: l).
  rewrite IH. destruct Hx as [|y l Hxy _]; simpl; [done|].
  unfold queue_le in Hxy.
  by destruct (Z.leb_spec (Client.compareStrokes x y) 0); [|lia].
Qed.

Lemma queue_batch_ctx (batch : list Client.Stroke) (c : Client.t) :
  let c' := foldl (fun c stroke =>
                     Client.drawStroke (Client.points stroke)
                       (JS.str_or (Some (Client.color stroke)) "#000000")
                       (JS.num_or (Some (Client.lineWidth stroke))
                          (Client.penWidth c))
                       (Client.isEraser stroke || false) c)
              c batch in
  Client.ctx c'
  = Client.ctx c
    ++ map (paint_of_queued (Client.penWidth c)) (List.filter is_painted batch) ∧
  Client.userLayers c' = Client.userLayers c ∧
  Client.incomingStrokes c' = Client.incomingStrokes c ∧
  Client.penWidth c' = Client.penWidth c ∧
  Client.container c' = Client.container c ∧
  Client.currentSocketId c' = Client.currentSocketId c.
Proof.
  revert c. induction batch as [|s batch IH]; intros c; cbn [foldl].
  - simpl. by rewrite app_nil_r.
  - destruct (IH (Client.drawStroke (Client.points s)
                    (JS.str_or (Some (Client.color s)) "#000000")
                    (JS.num_or (Some (Client.lineWidth s)) (Client.penWidth c))
                    (Client.isEraser s || false) c))
      as (Hctx & Hlayers & Hqueue & Hpen & Hcont & Hid).
    rewrite Hctx, Hlayers, Hqueue, Hpen, Hcont, Hid.
    unfold Client.drawStroke. cbn [List.filter]. unfold is_painted at 2.
    destruct (length (Client.points s) =? 0)%nat; simpl; [done|].
    by rewrite <- app_assoc.
Qed.

Lemma processIncomingQueue_effect (c : Client.t) :
  let sorted := Client.sort Client.compareStrokes (Client.incomingStrokes c) in
  let c' := Client.processIncomingQueue c in
  Client.ctx c'
  = Client.ctx c
    ++ map (paint_of_queued (Client.penWidth c))
         (List.filter is_painted (take 5 sorted)) ∧
  Client.incomingStrokes c' = drop 5 sorted ∧
  Client.userLayers c' = Client.userLayers c ∧
  Client.penWidth c' = Client.penWidth c.
Proof.
  intros sorted c'. subst sorted c'. unfold Client.processIncomingQueue.
  destruct (Client.incomingStrokes c) as [|s q] eqn:Hq.
  - simpl. by rewrite app_nil_r.
  - destruct (queue_batch_ctx
                (take 5 (Client.sort Client.compareStrokes (s :: q)))
                (Client.with_incomingStrokes
                   (fun _ => drop 5 (Client.sort Client.compareStrokes (s :: q)))
                   c))
      as (Hctx & Hlayers & Hqueue & Hpen & _).
    by rewrite Hctx, Hlayers, Hqueue, Hpen.
Qed.

(** X23. One frame of the queue of completed strokes: at most five strokes
    leave the queue, the ones that come first by timestamp and then by
    layer; they are painted on the main canvas in that order (a stroke
    without points paints nothing), and what stays queued stays in that
    order behind them.  No stroke is lost or doubled, and the per-author
    layers are not touched. *)
Theorem queue_frame (c : Client.t) :
  let c' := Client.processIncomingQueue c in
  ∃ batch : list Client.Stroke,
    (length batch = length (Client.incomingStrokes c) `min` 5)%nat ∧
    batch ++ Client.incomingStrokes c' ≡ₚ Client.incomingStrokes c ∧
    StronglySorted queue_le (batch ++ Client.incomingStrokes c') ∧
    Client.ctx c'
    = Client.ctx c
      ++ map (paint_of_queued (Client.penWidth c))
           (List.filter is_painted batch) ∧
    Client.userLayers c' = Client.userLayers c.
Proof.
  intros c'. subst c'.
  destruct (processIncomingQueue_effect c) as (Hctx & Hqueue & Hlayers & _).
  exists (take 5 (Client.sort Client.compareStrokes (Client.incomingStrokes c))).
  rewrite Hqueue, take_drop.
  split; [|split; [apply sort_perm|split; [apply sort_sorted|done]]].
  rewrite length_take, (Permutation_length (sort_perm _ _)). lia.
Qed.

(** X24. A burst of completed strokes is painted in the order of the
    queue however many frames it takes: once the frames, five strokes
    each, have covered the queue, it is empty and the main canvas has
    gained the strokes that have points, in the order in which the sort
    of the whole queue by timestamp and then by layer puts them. *)
Theorem queue_is_painted_in_order (n : nat) (c : Client.t) :
  (length (Client.incomingStrokes c) ≤ 5 * n)%nat →
  let c' := Nat.iter n Client.processIncomingQueue c in
  Client.incomingStrokes c' = [] ∧
  Client.ctx c'
  = Client.ctx c
    ++ map (paint_of_queued (Client.penWidth c))
         (List.filter is_painted
            (Client.sort Client.compareStrokes (Client.incomingStrokes c))).
Proof.
  revert c. induction n as [|n IH]; intros c Hlen c'; subst c'.
  - simpl. destruct (Client.incomingStrokes c); simpl in *; [|lia].
    by rewrite app_nil_r.
  - rewrite Nat.iter_succ_r.
    destruct (processIncomingQueue_effect c) as (Hctx & Hqueue & _ & Hpen).
    cbv zeta in Hctx, Hqueue.
    specialize (IH (Client.processIncomingQueue c)).
    rewrite Hqueue, Hctx, Hpen in IH.
    destruct IH as [Hempty Hpainted].
    { rewrite length_drop, (Permutation_length (sort_perm _ _)). lia. }
    split; [done|]. rewrite Hpainted.
    rewrite (sort_of_sorted (drop 5 _)).
    2:{ apply (StronglySorted_app_1_r queue_le
                 (take 5 (Client.sort Client.compareStrokes
                            (Client.incomingStrokes c)))).
        rewrite take_drop. apply sort_sorted. }
    rewrite <- app_assoc, <- map_app, <- List.filter_app.
    by rewrite take_drop.
Qed.

Lemma queue_is_painted_in_order_witness :
  let s (ts : Z) := {| Client.points := [(ts, ts)]; Client.color := "#111111";
                       Client.lineWidth := 3; Client.isEraser := false;
                       Client.timestamp := Some ts; Client.layer := None |} in
  let c := Client.with_incomingStrokes
             (fun _ => [s 6; s 5; s 4; s 3; s 2; s 1]) (Client.new true "me") in
  Client.incomingStrokes (Nat.iter 2 Client.processIncomingQueue c) = [] ∧
  Client.ctx (Nat.iter 2 Client.processIncomingQueue c)
  = Client.background "source-over"
    :: map (paint_of_queued 5) [s 1; s 2; s 3; s 4; s 5; s 6].
Proof.
  intros s c.
  destruct (queue_is_painted_in_order 2 c) as [Hempty Hpainted].
  - simpl. lia.
  - split; [exact Hempty|]. rewrite Hpainted. vm_compute. reflexivity.
Defined.

(** ** The client: snapshots and clears *)

Lemma drawStroke_fold (strokes : list Client.Stroke) (c : Client.t) :
  foldl (fun c stroke =>
           Client.drawStroke (Client.points stroke) (Client.color stroke)
             (Client.lineWidth stroke) (Client.isEraser stroke || false) c)
    c strokes
  = Client.with_ctx
      (fun ops => ops ++ map paint_of (List.filter is_painted strokes))
      (Client.with_globalCompositeOperation
         (mode_after strokes (Client.globalCompositeOperation c)) c).
Proof.
  revert c. induction strokes as [|s strokes IH]; intros c; cbn [foldl].
  - destruct c. unfold Client.with_ctx, Client.with_globalCompositeOperation,
      mode_after. simpl. by rewrite app_nil_r.
  - rewrite IH. unfold Client.drawStroke, mode_after. cbn [List.filter].
    destruct (length (Client.points s) =? 0)%nat eqn:Hlen.
    + assert (is_painted s = false) as ->
        by (unfold is_painted; by rewrite Hlen).
      done.
    + assert (is_painted s = true) as ->
        by (unfold is_painted; by rewrite Hlen).
      unfold Client.with_ctx, Client.with_globalCompositeOperation.
      cbn [Client.ctx Client.globalCompositeOperation Client.userLayers
           Client.container Client.penWidth Client.incomingStrokes
           Client.currentSocketId map].
      rewrite <- app_assoc.
      destruct (List.filter is_painted strokes) as [|s' l]; [reflexivity|].
      change (last (s :: s' :: l)) with (last (s' :: l)).
      destruct (last (s' :: l)) eqn:Hlast; [reflexivity|].
      by apply last_None in Hlast.
Qed.

Lemma redraw_eq (strokes : list Client.Stroke) (c : Client.t) :
  Client.redraw strokes c
  = if Client.container c
    then Client.with_ctx
           (fun _ => Client.background (Client.globalCompositeOperation c)
                     :: map paint_of (List.filter is_painted strokes))
           (Client.with_globalCompositeOperation
              (mode_after strokes (Client.globalCompositeOperation c)) c)
    else c.
Proof.
  unfold Client.redraw. destruct (Client.container c); [|done].
  by rewrite drawStroke_fold.
Qed.

(** X25. A redraw wipes the strokes that were painted before, but not the
    compositing mode of the context: [drawStroke] leaves the mode of its
    stroke set, and the background of the next redraw or clear is filled in
    that mode.  So after a snapshot the strokes on the main canvas are
    those of the snapshot alone, whatever was painted earlier, while the
    fill under them runs in the mode of the last stroke painted before, in
    ['destination-out'] after an eraser stroke.  A clear is the redraw of
    the empty snapshot.  Neither touches the layers of the authors, their
    gates, or the queue of completed strokes. *)
Theorem redraw_keeps_the_compositing_mode
    (strokes previous : list Client.Stroke) (c : Client.t) :
  Client.container c = true →
  let c1 := Client.redraw previous c in
  let c2 := Client.redraw strokes c1 in
  Client.globalCompositeOperation c1
  = mode_after previous (Client.globalCompositeOperation c) ∧
  Client.ctx c2
  = Client.background (mode_after previous (Client.globalCompositeOperation c))
    :: map paint_of (List.filter is_painted strokes) ∧
  Client.ctx (Main.onClearReceived c1)
  = [Client.background
       (mode_after previous (Client.globalCompositeOperation c))] ∧
  Main.onClearReceived c = Client.onStateReceived None c ∧
  Client.userLayers c2 = Client.userLayers c ∧
  Client.incomingStrokes c2 = Client.incomingStrokes c.
Proof.
  intros Hcont c1 c2. subst c1 c2.
  unfold Client.onStateReceived, Main.onClearReceived, Main.clear.
  rewrite !redraw_eq. rewrite Hcont. simpl. by rewrite Hcont.
Qed.

Lemma redraw_keeps_the_compositing_mode_witness :
  let rubber := {| Client.points := [(0, 0); (10, 10)];
                   Client.color := "#FF6B6B"; Client.lineWidth := 8;
                   Client.isEraser := true; Client.timestamp := Some 10;
                   Client.layer := Some 0 |} in
  let c1 := Client.redraw [rubber] (Client.new true "me") in
  Client.ctx c1 = [Client.background "source-over"; paint_of rubber] ∧
  Client.ctx (Main.onClearReceived c1)
  = [Client.background "destination-out"] ∧
  Client.ctx (Client.redraw [] c1) = [Client.background "destination-out"].
Proof.
  intros rubber c1.
  destruct (redraw_keeps_the_compositing_mode [] [rubber]
              (Client.new true "me"))
    as (_ & Hredraw & Hclear & _); [reflexivity|].
  split; [reflexivity|]. split; [exact Hclear|exact Hredraw].
Defined.

(** ** The local pen *)

Lemma slice_last_length {A : Type} (n : nat) (l : list A) :
  length (Pen.slice_last n l) = (length l `min` n)%nat.
Proof. unfold Pen.slice_last. rewrite length_drop. lia. Qed.

Lemma run_app (es1 es2 : list Pen.event) (p : Pen.t) :
  Pen.run (es1 ++ es2) p
  = ((Pen.run es2 (Pen.run es1 p).1).1,
     (Pen.run es1 p).2 ++ (Pen.run es2 (Pen.run es1 p).1).2).
Proof.
  revert p. induction es1 as [|e es1 IH]; intros p; simpl.
  - by destruct (Pen.run es2 p).
  - destruct (Pen.handle e p) as [p1 out1]. rewrite IH.
    destruct (Pen.run es1 p1) as [p2 out2]. simpl.
    by rewrite app_assoc.
Qed.

Lemma run_cons (e : Pen.event) (es : list Pen.event) (p : Pen.t) :
  Pen.run (e :: es) p
  = ((Pen.run es (Pen.handle e p).1).1,
     (Pen.handle e p).2 ++ (Pen.run es (Pen.handle e p).1).2).
Proof.
  simpl. destruct (Pen.handle e p) as [p1 out1]. simpl.
  destruct (Pen.run es p1). reflexivity.
Qed.

(** X26. The buffer of the pen never holds more than five points, and a
    live segment carries at least two points and at most five, whatever
    the pointer does. *)
Theorem pen_buffer_is_bounded (es : list Pen.event) (p : Pen.t) :
  (length (Pen.pointBuffer p) ≤ Pen.maxBufferSize)%nat →
  (length (Pen.pointBuffer (Pen.run es p).1) ≤ Pen.maxBufferSize)%nat ∧
  Forall (fun o => match o with
                   | Pen.segment seg =>
                       (2 ≤ length (Pen.points seg) ≤ Pen.maxBufferSize)%nat
                   | Pen.strokeComplete _ => True
                   end) (Pen.run es p).2.
Proof.
  unfold Pen.maxBufferSize.
  revert p. induction es as [|e es IH]; intros p Hp.
  - simpl. by split.
  - rewrite run_cons. simpl.
    assert (Hstep : (length (Pen.pointBuffer (Pen.handle e p).1) ≤ 5)%nat ∧
              Forall (fun o => match o with
                               | Pen.segment seg =>
                                   (2 ≤ length (Pen.points seg) ≤ 5)%nat
                               | Pen.strokeComplete _ => True
                               end) (Pen.handle e p).2).
    { destruct e as [coords|coords now|now]; simpl.
      - split; [lia|constructor].
      - unfold Pen.draw.
        destruct (Pen.isDrawing p); cbn [negb]; [|by simpl; split].
        cbn [fst snd Pen.pointBuffer]. unfold Pen.maxBufferSize, JS.push.
        set (buffer := if (5 <? length (Pen.pointBuffer p ++ [coords]))%nat
                       then tail (Pen.pointBuffer p ++ [coords])
                       else Pen.pointBuffer p ++ [coords]).
        assert (Hbuffer : (length buffer ≤ 5)%nat).
        { subst buffer.
          destruct (Nat.ltb_spec 5 (length (Pen.pointBuffer p ++ [coords])))
            as [Hlt|Hge]; [|done].
          rewrite length_tl, length_app. simpl. lia. }
        split; [done|].
        pose proof (slice_last_length 3 buffer) as Hslice.
        destruct (Pen.minSegmentInterval <=? now - Pen.lastSentTime p);
          cbn [andb]; [|constructor].
        destruct (Nat.leb_spec 2 (length (Pen.slice_last 3 buffer)))
          as [Hle|Hgt]; [|constructor].
        constructor; [|constructor]. cbn [Pen.points]. lia.
      - unfold Pen.stopDrawing.
        destruct (Pen.isDrawing p); cbn [negb]; [|by simpl; split].
        cbn [fst snd Pen.pointBuffer length]. split; [lia|].
        apply Forall_app. split; [|by repeat constructor].
        destruct (Nat.leb_spec 2 (length (Pen.pointBuffer p))) as [Hle|Hgt];
          [|by apply Forall_nil].
        apply Forall_cons_2; [|by apply Forall_nil]. cbn [Pen.points]. lia. }
    destruct Hstep as [Hbuffer Hout].
    destruct (IH _ Hbuffer) as [Hbuffer' Hout'].
    split; [done|]. by apply Forall_app.
Qed.

Lemma pen_buffer_is_bounded_witness :
  let es := [Pen.down (0, 0); Pen.move (1, 1) 20; Pen.move (2, 2) 40;
             Pen.move (3, 3) 60; Pen.move (4, 4) 80; Pen.move (5, 5) 100;
             Pen.move (6, 6) 120] in
  (length (Pen.pointBuffer (Pen.run es (Pen.new "me")).1) ≤ 5)%nat.
Proof.
  intros es. apply (pen_buffer_is_bounded es (Pen.new "me")). simpl. lia.
Defined.

Lemma draw_while_drawing (coords : Client.Point) (now : Z) (p : Pen.t) :
  Pen.isDrawing p = true →
  Pen.isDrawing (Pen.draw coords now p).1 = true ∧
  Pen.currentPath (Pen.draw coords now p).1 = Pen.currentPath p ++ [coords] ∧
  ((Pen.draw coords now p).2 = [] ∨
   ∃ seg, (Pen.draw coords now p).2 = [Pen.segment seg]).
Proof.
  intros Hdrawing. unfold Pen.draw. rewrite Hdrawing. cbn [negb fst snd].
  split; [done|]. split; [done|].
  destruct (_ && _); [right; by eexists|by left].
Qed.

Lemma run_moves (ms : list (Client.Point * Z)) (p : Pen.t) :
  Pen.isDrawing p = true →
  let r := Pen.run (map (fun m => Pen.move m.1 m.2) ms) p in
  Pen.isDrawing r.1 = true ∧
  Pen.currentPath r.1 = Pen.currentPath p ++ map fst ms ∧
  ∃ segments : list Pen.LiveSegment, r.2 = map Pen.segment segments.
Proof.
  revert p. induction ms as [|[coords now] ms IH]; intros p Hdrawing r; subst r.
  - simpl. rewrite app_nil_r. split; [done|]. split; [done|]. by exists [].
  - cbn [map]. rewrite run_cons. cbn [Pen.handle fst snd].
    destruct (draw_while_drawing coords now p Hdrawing)
      as (Hdrawing1 & Hpath1 & Hout1).
    destruct (IH _ Hdrawing1) as (Hdrawing2 & Hpath2 & segments & Hout2).
    split; [done|]. split.
    + rewrite Hpath2, Hpath1, <- app_assoc. done.
    + rewrite Hout2. destruct Hout1 as [->|[seg ->]].
      * by exists segments.
      * by exists (seg :: segments).
Qed.

(** X27. A stroke ends with its whole path: from the press over any moves
    to the release, the pen reports live segments and then, once and last,
    the completed stroke with every point of the pointer in order, the
    press first.  After the release the pen is idle and further moves do
    nothing. *)
Theorem stroke_completes_with_its_path (c0 : Client.Point)
    (ms : list (Client.Point * Z)) (now : Z) (p : Pen.t) :
  let es := Pen.down c0 :: map (fun m => Pen.move m.1 m.2) ms ++ [Pen.up now] in
  (∃ segments : list Pen.LiveSegment,
     (Pen.run es p).2
     = map Pen.segment segments ++ [Pen.strokeComplete (c0 :: map fst ms)]) ∧
  Pen.isDrawing (Pen.run es p).1 = false ∧
  Pen.currentPath (Pen.run es p).1 = [] ∧
  ∀ (coords : Client.Point) (t : Z),
    Pen.draw coords t (Pen.run es p).1 = ((Pen.run es p).1, []).
Proof.
  intros es. subst es. rewrite run_cons, run_app. cbn [Pen.handle fst snd].
  destruct (run_moves ms (Pen.startDrawing c0 p) eq_refl)
    as (Hdrawing & Hpath & segments & Hout).
  rewrite Hout. cbn [Pen.run Pen.handle].
  unfold Pen.stopDrawing. rewrite Hdrawing, Hpath. cbn [negb fst snd app].
  split; [|split; [done|split; [done|]]].
  - destruct (2 <=? _)%nat.
    + exists (segments ++ [{| Pen.points := Pen.pointBuffer
                                (Pen.run (map (fun m => Pen.move m.1 m.2) ms)
                                   (Pen.startDrawing c0 p)).1;
                              Pen.color := Pen.penColor
                                (Pen.run (map (fun m => Pen.move m.1 m.2) ms)
                                   (Pen.startDrawing c0 p)).1;
                              Pen.size := Pen.lineWidth
                                (Pen.run (map (fun m => Pen.move m.1 m.2) ms)
                                   (Pen.startDrawing c0 p)).1;
                              Pen.tool := Pen.toolOf (Pen.mode
                                (Pen.run (map (fun m => Pen.move m.1 m.2) ms)
                                   (Pen.startDrawing c0 p)).1);
                              Pen.userId := Pen.currentSocketId
                                (Pen.run (map (fun m => Pen.move m.1 m.2) ms)
                                   (Pen.startDrawing c0 p)).1;
                              Pen.timestamp := now |}]).
      rewrite map_app. simpl. by rewrite <- !app_assoc.
    + by exists segments.
  - intros coords t. reflexivity.
Qed.

Lemma spaced_later (gap t0 t : Z) (ts : list Z) :
  0 ≤ gap → gap ≤ t - t0 → spaced gap (t :: ts) → spaced gap (t0 :: ts).
Proof.
  intros Hgap Ht [Hhead Htail]. split; [|done].
  destruct ts as [|t' ts]; [done|lia].
Qed.

(** X28. Live segments of the moves are throttled: between two segments
    that the moves of the pointer emit, and between the time of the last
    emission and the next segment, lie at least twelve milliseconds,
    however fast the pointer events come. *)
Theorem segments_are_throttled (ms : list (Client.Point * Z)) (p : Pen.t) :
  spaced Pen.minSegmentInterval
    (Pen.lastSentTime p
     :: segment_times (Pen.run (map (fun m => Pen.move m.1 m.2) ms) p).2).
Proof.
  revert p. induction ms as [|[coords now] ms IH]; intros p.
  - simpl. done.
  - cbn [map]. rewrite run_cons. cbn [Pen.handle fst snd].
    unfold segment_times. rewrite omap_app. fold segment_times.
    specialize (IH (Pen.draw coords now p).1). revert IH.
    unfold Pen.draw. destruct (Pen.isDrawing p); cbn [negb fst snd]; [|done].
    cbn [Pen.lastSentTime].
    destruct (Z.leb_spec Pen.minSegmentInterval (now - Pen.lastSentTime p))
      as [Hle|Hgt]; cbn [andb]; [|done].
    destruct (2 <=? length (Pen.slice_last 3 _))%nat;
      cbn [omap app Pen.timestamp].
    + intros IH. split; [done|exact IH].
    + apply spaced_later; [done|exact Hle].
Qed.

(** ** From the pen to the layer on a remote client *)

Lemma as_points_point_val (ps : list Client.Point) :
  Wire.as_points (JS.Arr (map WebSocketManager.point_val ps)) = Some (Some ps).
Proof.
  unfold Wire.as_points.
  rewrite (mapM_fmap_Some Wire.as_point WebSocketManager.point_val); [done|].
  by intros [x y].
Qed.

(** X29. What the client sends for a live segment reads back as it was
    meant: a segment of two points or more goes out in the point format,
    under the id of the connection and with the time of sending, and the
    receiver strokes exactly these points; with fewer than two points the
    legacy format goes out with null coordinates, which the receiver
    strokes from the origin to the origin.  A client that is not connected
    sends nothing. *)
Theorem sent_segment_reads_back (seg : Pen.LiveSegment) (now : Z)
    (ws : WebSocketManager.t) :
  match Main.onSegment seg now ws with
  | [Main.emit_drawingSegment data] =>
      WebSocketManager.connected ws = true ∧
      Wire.segment_of data
      = Some {| Client.seg_userId := Some (WebSocketManager.userId ws);
                Client.seg_timestamp := Some now;
                Client.seg_color := Some (Pen.color seg);
                Client.seg_size := Some (Pen.size seg);
                Client.seg_tool := Some (Pen.tool seg);
                Client.seg_points :=
                  if (2 <=? length (Pen.points seg))%nat
                  then Some (Pen.points seg) else None;
                Client.seg_x0 := None; Client.seg_y0 := None;
                Client.seg_x1 := None; Client.seg_y1 := None |} ∧
      Client.segment_points <$> Wire.segment_of data
      = Some (if (2 <=? length (Pen.points seg))%nat
              then Pen.points seg else [(0, 0); (0, 0)])
  | [] => WebSocketManager.connected ws = false
  | _ => False
  end.
Proof.
  unfold Main.onSegment, WebSocketManager.sendSegment.
  destruct (WebSocketManager.connected ws); [|done].
  split; [done|].
  destruct (2 <=? length (Pen.points seg))%nat eqn:Hlen.
  - unfold Wire.segment_of, Client.segment_points.
    cbn -[Wire.as_points Nat.leb length].
    rewrite as_points_point_val. cbn -[Nat.leb length]. by rewrite Hlen.
  - done.
Qed.

(** X30. From the pen of one client to the segment another client reads:
    what a connected client sends for a live segment of two points or
    more, the server relays to the other members of the sender's room, and
    what arrives reads as the same points, colour and size, under the
    sender's socket id whatever id the client wrote, with the client's
    time of sending (the server's time when that is 0) and the client's
    tool (["brush"] when that is empty). *)
Theorem pen_segment_reaches_the_room (w : World.t) (socket_id : string)
    (s : World.Socket) (ws : WebSocketManager.t) (seg : Pen.LiveSegment)
    (sent now : Z) :
  World.sockets w !! socket_id = Some s →
  WebSocketManager.connected ws = true →
  (2 ≤ length (Pen.points seg))%nat →
  ∃ data relayed : JS.val,
    Main.onSegment seg sent ws = [Main.emit_drawingSegment data] ∧
    Server.step (Server.DrawingSegment socket_id data now) w
    = World.with_sent
        (fun l => l ++ [{| World.to := Server.members (World.roomId s) w
                                       ∖ {[socket_id]};
                           World.what := World.drawingSegment relayed |}]) w ∧
    Wire.segment_of relayed
    = Some {| Client.seg_userId := Some socket_id;
              Client.seg_timestamp := Some (if sent =? 0 then now else sent);
              Client.seg_color := Some (Pen.color seg);
              Client.seg_size := Some (Pen.size seg);
              Client.seg_tool :=
                Some (if String.eqb (Pen.tool seg) "" then "brush"
                      else Pen.tool seg);
              Client.seg_points := Some (Pen.points seg);
              Client.seg_x0 := None; Client.seg_y0 := None;
              Client.seg_x1 := None; Client.seg_y1 := None |} ∧
    Client.segment_points <$> Wire.segment_of relayed
    = Some (Pen.points seg).
Proof.
  intros Hsock Hconn Hlen. apply Nat.leb_le in Hlen.
  unfold Main.onSegment, WebSocketManager.sendSegment.
  rewrite Hconn, Hlen.
  exists (JS.Obj
            (JS.set "points"
               (JS.Arr (map WebSocketManager.point_val (Pen.points seg)))
               [ ("userId", JS.Str (WebSocketManager.userId ws));
                 ("color", JS.Str (Pen.color seg));
                 ("size", JS.Num (Pen.size seg));
                 ("tool", JS.Str (Pen.tool seg));
                 ("timestamp", JS.Num sent) ])).
  unfold Server.step, World.exec, Server.handle, Server.of_socket.
  rewrite Hsock. unfold Server.on_drawingSegment, World.bind.
  destruct (RoomManager.getUsers (World.roomId s) w) as [us w0] eqn:Hus.
  assert (w0 = w) as ->.
  { unfold RoomManager.getUsers in Hus.
    destruct (World.rooms w !! World.roomId s); by injection Hus. }
  unfold Client.segment_points, Wire.segment_of, Server.socket_to_emit.
  destruct (us !! socket_id) as [user|];
    cbn -[Wire.as_points Nat.leb length difference];
    destruct (sent =? 0) eqn:Hsent;
    destruct (String.eqb (Pen.tool seg) "") eqn:Htool;
    cbn -[Wire.as_points Nat.leb length difference];
    (eexists; split; [reflexivity|]; split; [reflexivity|];
     cbn -[Wire.as_points Nat.leb length difference];
     rewrite ?Hsent, ?Htool;
     cbn -[Wire.as_points Nat.leb length difference];
     rewrite as_points_point_val;
     cbn -[Nat.leb length]; rewrite Hlen; done).
Qed.

Lemma pen_segment_reaches_the_room_witness :
  let w := Server.run [ Server.Connect "a" None (Some "Ann") 0;
                        Server.Connect "b" None None 1 ] (World.init ∅) in
  let seg := {| Pen.points := [(1, 1); (2, 3)]; Pen.color := "#123456";
                Pen.size := 4; Pen.tool := "brush"; Pen.userId := "a";
                Pen.timestamp := 50 |} in
  let ws := {| WebSocketManager.connected := true;
               WebSocketManager.userId := "a" |} in
  ∃ data relayed : JS.val,
    Main.onSegment seg 50 ws = [Main.emit_drawingSegment data] ∧
    Client.segment_points <$> Wire.segment_of relayed
    = Some [(1, 1); (2, 3)].
Proof.
  intros w seg ws.
  destruct (pen_segment_reaches_the_room w "a"
              {| World.roomId := "main"; World.userName := "Ann";
                 World.userColorOf := "#FF6B6B" |} ws seg 50 60)
    as (data & relayed & Hsent & _ & _ & Hpoints).
  - vm_compute. reflexivity.
  - reflexivity.
  - simpl. lia.
  - by exists data, relayed.
Defined.
